(** * go-markov-image: the colour codec, the transition model and the
      image synthesiser of package [markov], embedded in Rocq.

    Conventions of the embedding.
    - Go's [int], [uint8] and [uint32] are integers of [Z]; the wrap-around of
      a conversion to [uint8] is written out ([u8]).  Coordinates are [int]s of
      a decoded image and stay far from the 64-bit limits.
    - [color.Color] is an interface with one method, [RGBA()].  A value of it
      is either a [color.RGBA] or any other implementation, which is
      represented by what its [RGBA()] returns.  The nil interface value is
      [None] of [option Color].
    - [stateSpace], a [map[uint32][]uint32], is a [gmap Z (list Z)].
    - [crypto/rand] is an oracle: an infinite sequence of integers, consumed
      one per call of [rand.Int]; statements quantify over every oracle.
    - A Go panic is the outcome [Panic]. *)

From Stdlib Require Import ZArith Lia.
From stdpp Require Import base numbers option list gmap strings fin_maps.

Local Open Scope Z_scope.

(** ** Package [image/color] *)

(* type RGBA struct { R, G, B, A uint8 } *)
Record color_RGBA : Type := mkRGBA { R : Z; G : Z; B : Z; A : Z }.

(* A non-nil value of the interface color.Color. *)
Inductive Color : Type :=
| OfRGBA (c : color_RGBA)      (* a color.RGBA *)
| OfOther (r g b a : Z).       (* any other implementation, by its RGBA() *)

Definition u8 (x : Z) : Z := x mod 256.
Definition u32 (x : Z) : Z := x mod 2 ^ 32.

(* func (c RGBA) RGBA(): r = uint32(c.R); r |= r << 8; and so on *)
Definition widen (v : Z) : Z := Z.lor v (Z.shiftl v 8).

Definition RGBA (c : Color) : Z * Z * Z * Z :=
  match c with
  | OfRGBA c => (widen (R c), widen (G c), widen (B c), widen (A c))
  | OfOther r g b a => (r, g, b, a)
  end.

(** ** color.go of package [markov] *)

Definition DefaultCompression : Z := 1.

Definition pack (b : Z * Z * Z * Z) : Z :=
  let '(b0, b1, b2, b3) := b in
  Z.lor (Z.lor (Z.lor (u32 (Z.shiftl b0 24)) (u32 (Z.shiftl b1 16)))
               (u32 (Z.shiftl b2 8)))
        b3.

Definition unpack (i : Z) : Z * Z * Z * Z :=
  (u8 (Z.land (Z.shiftr i 24) 255),
   u8 (Z.land (Z.shiftr i 16) 255),
   u8 (Z.land (Z.shiftr i 8) 255),
   u8 (Z.land i 255)).

Definition colorToRGBA (c : Color) : color_RGBA :=
  let '(r, g, b, a) := RGBA c in
  {| R := u8 r; G := u8 g; B := u8 b; A := u8 a |}.

(* Go's integer division panics on a zero divisor.  The one caller passes
   DefaultCompression, so the quotient below is always the Go quotient. *)
Definition compressColor (c : Color) (threshold : Z) : Color :=
  let '(r, g, b, a) := RGBA c in
  OfRGBA {| R := u8 ((u8 r / threshold) * threshold);
            G := u8 ((u8 g / threshold) * threshold);
            B := u8 ((u8 b / threshold) * threshold);
            A := u8 ((u8 a / threshold) * threshold) |}.

Definition encodeColor (c : Color) : Z :=
  let c := compressColor c DefaultCompression in
  let '(r, g, b, a) := RGBA c in
  pack (u8 r, u8 g, u8 b, u8 a).

Definition decodeColor (i : Z) : Color :=
  let '(b0, b1, b2, b3) := unpack i in
  OfRGBA {| R := b0; G := b1; B := b2; A := b3 |}.

Definition is_u8 (x : Z) : Prop := 0 <= x < 256.
Definition is_u32 (x : Z) : Prop := 0 <= x < 2 ^ 32.

(** ** Package [image] *)

Record Point : Type := mkPoint { X : Z; Y : Z }.
Record Rectangle : Type := mkRectangle { Min : Point; Max : Point }.

#[global] Instance Point_eq_dec : EqDecision Point.
Proof. solve_decision. Defined.

Definition Add (p q : Point) : Point :=
  {| X := X p + X q; Y := Y p + Y q |}.

(* func (p Point) In(r Rectangle) bool *)
Definition In_ (p : Point) (r : Rectangle) : bool :=
  (X (Min r) <=? X p) && (X p <? X (Max r)) &&
  (Y (Min r) <=? Y p) && (Y p <? Y (Max r)).

Definition Dx (r : Rectangle) : Z := X (Max r) - X (Min r).
Definition Dy (r : Rectangle) : Z := Y (Max r) - Y (Min r).

(* func Rect(x0, y0, x1, y1 int) Rectangle: the corners, put in order *)
Definition image_Rect (x0 y0 x1 y1 : Z) : Rectangle :=
  let '(x0, x1) := if x1 <? x0 then (x1, x0) else (x0, x1) in
  let '(y0, y1) := if y1 <? y0 then (y1, y0) else (y0, y1) in
  {| Min := {| X := x0; Y := y0 |}; Max := {| X := x1; Y := y1 |} |}.

(* A decoded image, of the interface image.Image. *)
Record Image : Type := mkImage { Bounds : Rectangle; At : Z -> Z -> Color }.

(* type RGBA struct { Pix []uint8; Stride int; Rect Rectangle } *)
Record image_RGBA : Type :=
  mkImageRGBA { Pix : list Z; Stride : Z; Rect : Rectangle }.

Definition PixOffset (p : image_RGBA) (x y : Z) : Z :=
  (y - Y (Min (Rect p))) * Stride p + (x - X (Min (Rect p))) * 4.

(** ** Outcomes, the random source and the monad of the synthesiser *)

Inductive Res (T : Type) : Type :=
| Ok (v : T)
| Panic.
Arguments Ok {T} v.
Arguments Panic {T}.

(* [entropy] is what crypto/rand will deliver, call after call; [calls] is a
   ghost record of the calls of GetNextColor: argument and result. *)
Record World : Type :=
  mkWorld { entropy : nat -> Z; calls : list (Color * option Color) }.

Definition M (T : Type) : Type := World -> Res (T * World).

Definition ret {T} (v : T) : M T := fun w => Ok (v, w).
Definition panic {T} : M T := fun _ => Panic.
Definition bind {T U} (c : M T) (k : T -> M U) : M U :=
  fun w => match c w with
           | Ok (v, w') => k v w'
           | Panic => Panic
           end.

Notation "'do' x <- c ; k" := (bind c (fun x => k))
  (at level 10, x pattern, c at level 100, k at level 200,
   format "'[v' 'do'  x  <-  c ; '/' k ']'").

Fixpoint foldM {S T} (f : S -> T -> M S) (l : list T) (s : S) : M S :=
  match l with
  | [] => ret s
  | x :: l' => do s' <- f s x ; foldM f l' s'
  end.

(* rand.Int(rand.Reader, max): uniform in [0, max); panics if max <= 0.
   The reader is taken not to fail (its error is dropped by every caller). *)
Definition advance (w : World) : World :=
  {| entropy := fun n => entropy w (S n); calls := calls w |}.

Definition rand_Int (max : Z) : M Z :=
  fun w =>
    if max <=? 0 then Panic
    else Ok (entropy w 0%nat mod max, advance w).

Definition record_call (c : Color) (r : option Color) : M unit :=
  fun w => Ok (tt, {| entropy := entropy w; calls := calls w ++ [(c, r)] |}).

(* An index expression s[i], which panics out of range. *)
Definition index {T} (s : list T) (i : Z) : M T :=
  if i <? 0 then panic
  else match s !! Z.to_nat i with
       | Some v => ret v
       | None => panic
       end.

(* func NewRGBA(r Rectangle) *RGBA; panics on negative dimensions. *)
Definition NewRGBA (r : Rectangle) : M image_RGBA :=
  if (Dx r <? 0) || (Dy r <? 0) then panic
  else ret {| Pix := replicate (Z.to_nat (4 * Dx r * Dy r)) 0;
              Stride := 4 * Dx r; Rect := r |}.

(* s := p.Pix[i : i+4 : i+4], a slice expression: panics out of range. *)
Definition slice4 (pix : list Z) (i : Z) : M (Z * Z * Z * Z) :=
  if (i <? 0) || (Z.of_nat (length pix) <? i + 4) then panic
  else
    let n := Z.to_nat i in
    match pix !! n, pix !! S n, pix !! S (S n), pix !! S (S (S n)) with
    | Some a, Some b, Some c, Some d => ret (a, b, c, d)
    | _, _, _, _ => panic
    end.

Definition SetRGBA (p : image_RGBA) (x y : Z) (c : color_RGBA) : M image_RGBA :=
  if negb (In_ {| X := x; Y := y |} (Rect p)) then ret p
  else
    let i := PixOffset p x y in
    do _ <- slice4 (Pix p) i ;
    let n := Z.to_nat i in
    ret {| Pix := <[S (S (S n)) := A c]>
                    (<[S (S n) := B c]> (<[S n := G c]> (<[n := R c]> (Pix p))));
           Stride := Stride p; Rect := Rect p |}.

Definition RGBAAt (p : image_RGBA) (x y : Z) : M color_RGBA :=
  if negb (In_ {| X := x; Y := y |} (Rect p))
  then ret {| R := 0; G := 0; B := 0; A := 0 |}
  else
    do (a, b, c, d) <- slice4 (Pix p) (PixOffset p x y) ;
    ret {| R := a; G := b; B := c; A := d |}.

(* func (p *RGBA) At(x, y int) color.Color *)
Definition RGBA_At (p : image_RGBA) (x y : Z) : M Color :=
  do c <- RGBAAt p x y ; ret (OfRGBA c).

(** ** Package [randomstack] (github.com/crossedbot/collections) *)

(** Modelled from the spec: the package is imported, it is not part of this
    repository.  The frontier is a stack whose pop order is unspecified and
    random: Pop removes the entry at a drawn position, so that over all
    oracles every order of popping is covered. *)
Definition randomstack_New : list Point := [].
Definition Push (stack : list Point) (p : Point) : list Point := stack ++ [p].
Definition Len (stack : list Point) : Z := Z.of_nat (length stack).
Definition Pop (stack : list Point) : M (Point * list Point) :=
  do i <- rand_Int (Len stack) ;
  do p <- index stack i ;
  ret (p, delete (Z.to_nat i) stack).

(** ** markov.go *)

Record markov : Type :=
  mkMarkov { keys : list Z; model : gmap Z (list Z);
             format : string; bounds : Rectangle }.

Definition adjacent : list Point :=
  [ {| X := -1; Y := 0 |}; {| X := 0; Y := -1 |};
    {| X := 1; Y := 0 |}; {| X := 0; Y := 1 |} ].

Definition ZR : Rectangle :=
  {| Min := {| X := 0; Y := 0 |}; Max := {| X := 0; Y := 0 |} |}.

Definition New : markov :=
  {| keys := []; model := ∅; format := ""; bounds := ZR |}.

Definition MinX (m : markov) : Z := X (Min (bounds m)).
Definition MinY (m : markov) : Z := Y (Min (bounds m)).
Definition MaxX (m : markov) : Z := X (Max (bounds m)).
Definition MaxY (m : markov) : Z := Y (Max (bounds m)).

(* The result is the interface value: [None] is nil. *)
Definition GetNextColor (m : markov) (c : Color) : M (option Color) :=
  let key := encodeColor c in
  do r <- match model m !! key with
          | Some values =>
              do i <- rand_Int (Z.of_nat (length values)) ;
              do v <- index values i ;
              ret (Some (decodeColor v))
          | None => ret None
          end ;
  do _ <- record_call c r ;
  ret r.

Definition GetRandomColor (m : markov) : M Color :=
  do i <- rand_Int (Z.of_nat (length (keys m))) ;
  do v <- index (keys m) i ;
  ret (decodeColor v).

Definition AddColorTransition (m : markov) (c1 c2 : Color) : markov :=
  let key1 := encodeColor c1 in
  let key2 := encodeColor c2 in
  let keys' := match model m !! key1 with
               | Some _ => keys m
               | None => keys m ++ [key1]
               end in
  {| keys := keys';
     model := <[key1 := default [] (model m !! key1) ++ [key2]]> (model m);
     format := format m; bounds := bounds m |}.

(* p_.X >= m.MinX() && p_.X < m.MaxX() && p_.Y >= m.MinY() && p_.Y < m.MaxY() *)
Definition within (m : markov) (p : Point) : bool :=
  (MinX m <=? X p) && (X p <? MaxX m) && (MinY m <=? Y p) && (Y p <? MaxY m).

(* The start of Generate: the random point, lines 101 to 106. *)
Definition Generate_start (m : markov) : M Point :=
  do x <- rand_Int (MaxX m) ;
  do y <- rand_Int (MaxY m) ;
  ret {| X := x; Y := y |}.

Definition Generate_init (m : markov) : M (image_RGBA * list Point) :=
  do im <- NewRGBA (image_Rect (MinX m) (MinY m) (MaxX m) (MaxY m)) ;
  let stack := randomstack_New in
  do p <- Generate_start m ;
  do c <- GetRandomColor m ;
  do im <- SetRGBA im (X p) (Y p) (colorToRGBA c) ;
  ret (im, Push stack p).

(* One turn of [for _, adj := range adjacent]; [c] is the variable of the
   enclosing loop, which the body assigns. *)
Definition Generate_adjacent (m : markov) (p : Point)
    (st : Color * image_RGBA * list Point) (adj : Point)
    : M (Color * image_RGBA * list Point) :=
  let '(c, im, stack) := st in
  let p_ := Add p adj in
  if within m p_ then
    do v <- index (Pix im) (PixOffset im (X p_) (Y p_)) ;
    if v =? 0 then
      do c' <- GetNextColor m c ;
      match c' with
      | None => panic             (* colorToRGBA calls c.RGBA() on nil *)
      | Some c =>
          do im <- SetRGBA im (X p_) (Y p_) (colorToRGBA c) ;
          ret (c, im, Push stack p_)
      end
    else ret st
  else ret st.

(* One turn of [for stack.Len() > 0]. *)
Definition Generate_step (m : markov) (im : image_RGBA) (stack : list Point)
    : M (image_RGBA * list Point) :=
  do (p, stack) <- Pop stack ;
  do c <- RGBA_At im (X p) (Y p) ;
  do (_, im, stack) <- foldM (Generate_adjacent m p) adjacent (c, im, stack) ;
  ret (im, stack).

Inductive Outcome : Type :=
| Returned (im : image_RGBA)
| Panicked
| Running (im : image_RGBA) (stack : list Point).

(* The loop, cut after [fuel] turns. *)
Fixpoint Generate_loop (fuel : nat) (m : markov) (im : image_RGBA)
    (stack : list Point) (w : World) : Outcome * World :=
  if Len stack >? 0 then
    match fuel with
    | O => (Running im stack, w)
    | S fuel' =>
        match Generate_step m im stack w with
        | Ok ((im', stack'), w') => Generate_loop fuel' m im' stack' w'
        | Panic => (Panicked, w)
        end
    end
  else (Returned im, w).

Definition Generate (fuel : nat) (m : markov) (w : World) : Outcome * World :=
  match Generate_init m w with
  | Ok ((im, stack), w') => Generate_loop fuel m im stack w'
  | Panic => (Panicked, w)
  end.

(* The integers lo, lo+1, ..., hi-1 that [for x := lo; x < hi; x++] visits. *)
Definition zrange (lo hi : Z) : list Z := seqZ lo (hi - lo).

(* The body of the scan at one pixel, lines 160 to 169. *)
Definition ReadFile_pixel (im : Image) (x y : Z) (m : markov) : markov :=
  let p := {| X := x; Y := y |} in
  let c := At im (X p) (Y p) in
  foldl (fun m adj =>
           let p := Add p adj in
           if within m p then
             let c_ := At im (X p) (Y p) in
             AddColorTransition m c c_
           else m)
        m adjacent.

(* The two loops, lines 158 to 171.  The bounds they test are those of the
   model, which the body leaves as they are. *)
Definition ReadFile_scan (im : Image) (m : markov) : markov :=
  foldl (fun m x =>
           foldl (fun m y => ReadFile_pixel im x y m) m
                 (zrange (MinY m) (MaxY m)))
        m (zrange (MinX m) (MaxX m)).

(* What os.Open and image.Decode make of the file name. *)
Inductive File : Type :=
| OpenFails (err : string)
| DecodeFails (err : string)
| Decodes (im : Image) (format : string).

Definition quote : string := String (Ascii.ascii_of_nat 34) EmptyString.
Definition newline : string := String (Ascii.ascii_of_nat 10) EmptyString.

(* fmt.Errorf of ReadFile and of WriteFile, with its quotation marks. *)
Definition unsupported (fmt : string) : string :=
  ("file format " ++ quote ++ fmt ++ quote
   ++ " not supported; supported formats are: " ++ quote ++ "png" ++ quote)%string.

Definition ReadFile (m : markov) (f : File) : markov * option string :=
  match f with
  | OpenFails err => (m, Some err)
  | DecodeFails err => (m, Some err)
  | Decodes im fmt =>
      if negb (String.eqb fmt "png") then (m, Some (unsupported fmt))
      else
        let m := {| keys := keys m; model := model m;
                    format := fmt; bounds := Bounds im |} in
        (ReadFile_scan im m, None)
  end.

(* The model of a decoded PNG: New(), then ReadFile. *)
Definition build (im : Image) : markov := fst (ReadFile New (Decodes im "png")).

(* What os.Create makes of the file name. *)
Inductive Created : Type :=
| CreateFails (err : string)
| Creates.

(* How a call of WriteFile ends: it returns, with its error value and with
   the grid it handed to png.Encode, if any; it panics; or Generate is still
   running when its fuel is spent. *)
Inductive WriteOutcome : Type :=
| WriteReturns (err : option string) (encoded : option image_RGBA)
| WritePanics
| WriteRunning.

(* Generate runs before the format is looked at; the error of png.Encode is
   dropped. *)
Definition WriteFile (fuel : nat) (m : markov) (o : Created) (w : World)
    : WriteOutcome * World :=
  match o with
  | CreateFails err => (WriteReturns (Some err) None, w)
  | Creates =>
      match Generate fuel m w with
      | (Returned d, w') =>
          if String.eqb (format m) "png"
          then (WriteReturns None (Some d), w')
          else (WriteReturns (Some (unsupported (format m))) None, w')
      | (Panicked, w') => (WritePanics, w')
      | (Running _ _, w') => (WriteRunning, w')
      end
  end.

(** ** main.go *)

(* ExitCodeFatal = iota + 1 *)
Definition ExitCodeFatal : Z := 0 + 1.

(* How the process ends: os.Exit with a code or the return of main, which
   is code 0; a panic; or Generate still running when its fuel is spent. *)
Inductive Exit : Type :=
| Exited (code : Z)
| Crashed
| StillRunning.

(* What the process leaves: the lines it printed, the grid it encoded to the
   output file, if it did, and how it ended. *)
Record Process : Type :=
  mkProcess { stdout : list string;
              output : option (string * image_RGBA);
              exit : Exit }.

Definition usage (arg0 : string) : Process :=
  {| stdout := [("usage: " ++ arg0 ++ " <input>.png <output>.png"
                 ++ " -- generate a new image using Markov chaining"
                 ++ newline)%string];
     output := None; exit := Exited 0 |}.

(* fatal(err, msg) when err is not nil. *)
Definition fatal (err msg : string) : Process :=
  {| stdout := [(msg ++ ": " ++ err ++ newline)%string];
     output := None; exit := Exited ExitCodeFatal |}.

(* [fs_open] and [fs_create] are what os.Open with image.Decode, and
   os.Create, make of a file name. *)
Definition run (args : list string) (fs_open : string -> File)
    (fs_create : string -> Created) (fuel : nat) (w : World) : Process :=
  if Z.of_nat (length args) <? 3 then
    match args with
    | arg0 :: _ => usage arg0
    | [] => {| stdout := []; output := None; exit := Crashed |}
    end
  else
    match args with
    | _ :: arg1 :: arg2 :: _ =>
        let m := New in
        match ReadFile m (fs_open arg1) with
        | (_, Some err) => fatal err "failed to read input file"
        | (m, None) =>
            match WriteFile fuel m (fs_create arg2) w with
            | (WriteReturns (Some err) _, _) =>
                fatal err "failed to write output file"
            | (WriteReturns None encoded, _) =>
                {| stdout := [];
                   output := (fun d => (arg2, d)) <$> encoded;
                   exit := Exited 0 |}
            | (WritePanics, _) =>
                {| stdout := []; output := None; exit := Crashed |}
            | (WriteRunning, _) =>
                {| stdout := []; output := None; exit := StillRunning |}
            end
        end
    | _ => {| stdout := []; output := None; exit := Crashed |}
    end.

(** ** Quantities the statements are about *)

(* The sum of the lengths of the transition lists, over all keys. *)
Definition transitions (m : markov) : nat :=
  map_fold (fun _ values n => (length values + n)%nat) 0%nat (model m).

(* The pixels of a rectangle, in the order of the scan. *)
Definition pixels (r : Rectangle) : list Point :=
  x ← zrange (X (Min r)) (X (Max r));
  y ← zrange (Y (Min r)) (Y (Max r));
  [ {| X := x; Y := y |} ].

(* The neighbours of [p] that lie in [r]. *)
Definition neighbours (r : Rectangle) (p : Point) : list Point :=
  filter (fun q => In_ q r = true) ((fun adj => Add p adj) <$> adjacent).

(* The ordered pairs (pixel, neighbour within bounds). *)
Definition adjacencies (r : Rectangle) : list (Point * Point) :=
  p ← pixels r; (fun q => (p, q)) <$> neighbours r p.

(* Sums over a list, and the value of a test as a number. *)
Definition zsum {T} (f : T -> Z) (l : list T) : Z :=
  foldr (fun x s => f x + s) 0 l.

Definition b2z (b : bool) : Z := if b then 1 else 0.

(* The calls of AddColorTransition that the scan of an image makes. *)
Definition calls_at (im : Image) (r : Rectangle) (p : Point)
    : list (Color * Color) :=
  (fun q => (At im (X p) (Y p), At im (X q) (Y q))) <$> neighbours r p.

Definition scan_calls (im : Image) (r : Rectangle) : list (Color * Color) :=
  p ← pixels r; calls_at im r p.

Definition add_call (m : markov) (cc : Color * Color) : markov :=
  AddColorTransition m cc.1 cc.2.

(* A list without its repetitions, each element where it first stands. *)
Fixpoint first_occurrences (l : list Z) : list Z :=
  match l with
  | [] => []
  | k :: l' => k :: filter (fun k' => k' ≠ k) (first_occurrences l')
  end.

(* The invariant of the model. *)
Record model_inv (m : markov) : Prop :=
  { inv_nonempty : forall k values, model m !! k = Some values -> values ≠ [];
    inv_keys : forall k, k ∈ keys m <-> is_Some (model m !! k);
    inv_nodup : NoDup (keys m) }.

(* The calls [l] of GetNextColor form a chain from [c] to [c']: the first
   is given [c], each later one what the one before returned, and the last
   returned [c']. *)
Fixpoint chained (c : Color) (l : list (Color * option Color)) (c' : Color)
    : Prop :=
  match l with
  | [] => c = c'
  | (a, r) :: l' => a = c /\ exists c1, r = Some c1 /\ chained c1 l' c'
  end.

(* The byte of a cell that Generate reads to tell whether the cell is
   unset, the four bytes of a cell, and the number of cells that read as
   unset. *)
Definition red_at (im : image_RGBA) (p : Point) : option Z :=
  Pix im !! Z.to_nat (PixOffset im (X p) (Y p)).

Definition cell (im : image_RGBA) (p : Point) : option color_RGBA :=
  let n := Z.to_nat (PixOffset im (X p) (Y p)) in
  match Pix im !! n, Pix im !! S n, Pix im !! S (S n), Pix im !! S (S (S n)) with
  | Some a, Some b, Some c, Some d => Some {| R := a; G := b; B := c; A := d |}
  | _, _, _, _ => None
  end.

Definition unset (im : image_RGBA) (r : Rectangle) : nat :=
  length (filter (fun p => red_at im p = Some 0) (pixels r)).

(* The colour of a key, as it is written to a cell. *)
Definition key_RGBA (k : Z) : color_RGBA := colorToRGBA (decodeColor k).

(* The cell holds the colour of a key of the model. *)
Definition painted (m : markov) (im : image_RGBA) (p : Point) : Prop :=
  exists k, is_Some (model m !! k) /\ cell im p = Some (key_RGBA k).

(* The states of the synthesis on a model whose colours all have a red byte:
   the canvas has the bounds of the model, each of its cells is unset or
   painted, and the frontier holds painted cells within bounds. *)
Record canvas_inv (m : markov) (im : image_RGBA) (stack : list Point) : Prop :=
  { cv_rect : Rect im = bounds m;
    cv_stride : Stride im = 4 * Dx (bounds m);
    cv_length : Z.of_nat (length (Pix im)) = 4 * Dx (bounds m) * Dy (bounds m);
    cv_cells : forall p, In_ p (bounds m) = true ->
                         red_at im p = Some 0 \/ painted m im p;
    cv_stack : forall p, p ∈ stack -> In_ p (bounds m) = true /\ painted m im p }.

(* A model whose transitions lead to keys, and whose keys are 32-bit values
   with a red byte that is not zero. *)
Record model_closed (m : markov) : Prop :=
  { mc_inv : model_inv m;
    mc_values : forall k values v,
        model m !! k = Some values -> v ∈ values -> is_Some (model m !! v);
    mc_u32 : forall k, is_Some (model m !! k) -> is_u32 k;
    mc_red : forall k, is_Some (model m !! k) -> R (key_RGBA k) ≠ 0 }.

(* The states of one turn of the inner loop: the current colour is that of a
   key, the canvas and the frontier are as above, and the frontier and the
   unset cells together number at most [n]. *)
Definition turn_inv (m : markov) (n : nat)
    (st : Color * image_RGBA * list Point) : Prop :=
  let '(c, im, stack) := st in
  (exists k, is_Some (model m !! k) /\ c = decodeColor k)
  /\ canvas_inv m im stack
  /\ (length stack + unset im (bounds m) <= n)%nat.

(* The keys that calls with source key [k] append to the list of [k]. *)
Definition targets (k : Z) (ops : list (Color * Color)) : list Z :=
  (fun cc => encodeColor cc.2)
    <$> filter (fun cc => encodeColor cc.1 = k) ops.

(* The four bytes of a colour are those of a color.RGBA. *)
Definition is_RGBA8 (c : color_RGBA) : Prop :=
  is_u8 (R c) /\ is_u8 (G c) /\ is_u8 (B c) /\ is_u8 (A c).

(* A cell that was never written. *)
Definition zero_RGBA : color_RGBA := {| R := 0; G := 0; B := 0; A := 0 |}.

(* A model whose transitions lead to keys and whose keys are 32-bit values. *)
Record model_sound (m : markov) : Prop :=
  { ms_inv : model_inv m;
    ms_values : forall k values v,
        model m !! k = Some values -> v ∈ values -> is_Some (model m !! v);
    ms_u32 : forall k, is_Some (model m !! k) -> is_u32 k }.

(* The states of the loop of Generate: the canvas has the bounds of the
   model, each of its cells was never written or holds the colour of a key,
   the frontier holds painted cells within bounds, a painted cell that is
   not on the frontier has painted neighbours only, and some cell is
   painted. *)
Record frontier_inv (m : markov) (im : image_RGBA) (stack : list Point) : Prop :=
  { fi_rect : Rect im = bounds m;
    fi_stride : Stride im = 4 * Dx (bounds m);
    fi_length : Z.of_nat (length (Pix im)) = 4 * Dx (bounds m) * Dy (bounds m);
    fi_stack : forall p, p ∈ stack -> In_ p (bounds m) = true /\ painted m im p;
    fi_cells : forall p, In_ p (bounds m) = true ->
                         cell im p = Some zero_RGBA \/ painted m im p;
    fi_closed : forall p, In_ p (bounds m) = true -> painted m im p ->
                          p ∈ stack
                          \/ forall q, q ∈ neighbours (bounds m) p -> painted m im q;
    fi_some : exists p, In_ p (bounds m) = true /\ painted m im p }.

(* The states of the inner loop of a step that popped [p] from a frontier of
   which [stack1] is left, on the canvas [im0], after the offsets [done]. *)
Record turn_sound (m : markov) (p : Point) (im0 : image_RGBA)
    (stack1 : list Point) (done : list Point)
    (c : Color) (im : image_RGBA) (stack : list Point) : Prop :=
  { ts_colour : exists k, is_Some (model m !! k) /\ c = decodeColor k;
    ts_rect : Rect im = bounds m;
    ts_stride : Stride im = 4 * Dx (bounds m);
    ts_length : Z.of_nat (length (Pix im)) = 4 * Dx (bounds m) * Dy (bounds m);
    ts_stack : forall x, x ∈ stack -> In_ x (bounds m) = true /\ painted m im x;
    ts_cells : forall x, In_ x (bounds m) = true ->
                         cell im x = Some zero_RGBA \/ painted m im x;
    ts_kept : forall x, In_ x (bounds m) = true ->
                        painted m im0 x -> painted m im x;
    ts_new : forall x, In_ x (bounds m) = true -> painted m im x ->
                       x ∈ stack \/ painted m im0 x;
    ts_done : forall adj, adj ∈ done -> In_ (Add p adj) (bounds m) = true ->
                          painted m im (Add p adj);
    ts_frontier : forall x, x ∈ stack1 -> x ∈ stack;
    ts_fixed : forall x v, In_ x (bounds m) = true ->
                           red_at im0 x = Some v -> v ≠ 0 ->
                           cell im x = cell im0 x }.




(* The cells of [im] within [r] whose red byte is not zero are the same in
   [out]. *)
Definition kept (r : Rectangle) (im out : image_RGBA) : Prop :=
  forall x v, In_ x r = true -> red_at im x = Some v -> v ≠ 0 ->
              cell out x = cell im x.

(** ** Sample inputs *)

Definition opaque (r g b : Z) : Color :=
  OfRGBA {| R := r; G := g; B := b; A := 255 |}.

Definition rect (x0 y0 x1 y1 : Z) : Rectangle :=
  {| Min := {| X := x0; Y := y0 |}; Max := {| X := x1; Y := y1 |} |}.

(* Red, green, blue and yellow at (0,0), (1,0), (0,1) and (1,1). *)
Definition four_colours : Image :=
  {| Bounds := rect 0 0 2 2;
     At := fun x y =>
             if (x =? 0) && (y =? 0) then opaque 255 0 0
             else if (x =? 1) && (y =? 0) then opaque 0 255 0
             else if (x =? 0) && (y =? 1) then opaque 0 0 255
             else opaque 255 255 0 |}.

(* One red pixel. *)
Definition one_pixel : Image :=
  {| Bounds := rect 0 0 1 1; At := fun _ _ => opaque 255 0 0 |}.

(* A red grid whose bounds do not start at the origin. *)
Definition off_origin : Image :=
  {| Bounds := rect 2 2 4 4; At := fun _ _ => opaque 255 0 0 |}.

(* An oracle and a world to start from. *)
Definition sample_world : World :=
  {| entropy := fun n => 7 * Z.of_nat n + 3; calls := [] |}.

(* Three white pixels in a row, and the model of them with one more
   transition, from white to yellow, added through AddColorTransition. *)
Definition white_row : Image :=
  {| Bounds := rect 0 0 3 1; At := fun _ _ => opaque 255 255 255 |}.

Definition white_then_yellow : markov :=
  AddColorTransition (build white_row) (opaque 255 255 255) (opaque 255 255 0).

(* Draws that start at (0,0) and take the last transition of a list of 5. *)
Definition yellow_world : World :=
  {| entropy := fun n => if Nat.eqb n 0 then 0 else 4; calls := [] |}.

(* The oracle that always delivers 0, and the canvas that Generate starts
   from under it for [four_colours]: red at (0,0). *)
Definition zeros_world : World := {| entropy := fun _ => 0; calls := [] |}.

Definition red_corner : image_RGBA :=
  {| Pix := [255; 0; 0; 255; 0; 0; 0; 0; 0; 0; 0; 0; 0; 0; 0; 0];
     Stride := 8; Rect := rect 0 0 2 2 |}.

(* The world after the step that pops (0,0) from [red_corner]. *)
Definition after_red_corner : World :=
  {| entropy := fun _ => 0;
     calls := [ (opaque 255 0 0, Some (opaque 0 255 0));
                (opaque 0 255 0, Some (opaque 255 0 0)) ] |}.

(* Two black, opaque pixels side by side, and the states of the synthesis
   of their model: a canvas of cells that are unset or black, and a frontier
   that is not empty and holds black cells only. *)
Definition black_row : Image :=
  {| Bounds := rect 0 0 2 1; At := fun _ _ => opaque 0 0 0 |}.

Definition black_state (im : image_RGBA) (stack : list Point) : Prop :=
  exists a b,
    im = {| Pix := [0; 0; 0; a; 0; 0; 0; b]; Stride := 8; Rect := rect 0 0 2 1 |}
    /\ stack ≠ []
    /\ forall p, p ∈ stack ->
                 (p = {| X := 0; Y := 0 |} /\ a = 255)
                 \/ (p = {| X := 1; Y := 0 |} /\ b = 255).

(* The oracle that always delivers 1. *)
Definition ones_world : World := {| entropy := fun _ => 1; calls := [] |}.

(** ** Arithmetic of the codec *)

Lemma shiftl_u8_u32 (b n : Z) :
  is_u8 b -> 0 <= n <= 24 -> u32 (Z.shiftl b n) = b * 2 ^ n.
Proof.
  intros Hb Hn. unfold u32. rewrite Z.shiftl_mul_pow2 by lia.
  apply Z.mod_small.
  assert (2 ^ n <= 2 ^ 24) by (apply Z.pow_le_mono_r; lia).
  assert (0 < 2 ^ n) by (apply Z.pow_pos_nonneg; lia).
  change (2 ^ 32) with (256 * 2 ^ 24). unfold is_u8 in Hb. nia.
Qed.

Lemma lor_add_low (x hi lo n : Z) :
  x = hi * 2 ^ n -> 0 <= n -> 0 <= lo < 2 ^ n -> Z.lor x lo = x + lo.
Proof.
  intros -> Hn Hlo. rewrite <- Z.shiftl_mul_pow2 by lia.
  assert (Hdisj : Z.land (Z.shiftl hi n) lo = 0).
  { apply Z.bits_inj'; intros k Hk. rewrite Z.land_spec, Z.bits_0.
    destruct (Z.lt_ge_cases k n) as [Hlt | Hge].
    - rewrite Z.shiftl_spec_low by lia. reflexivity.
    - destruct (Z.eq_dec lo 0) as [-> | Hne].
      + rewrite Z.bits_0. apply andb_false_r.
      + rewrite (Z.bits_above_log2 lo k), andb_false_r; [reflexivity | lia |].
        apply Z.lt_le_trans with n; [apply Z.log2_lt_pow2; lia | lia]. }
  rewrite <- Z.lxor_lor by exact Hdisj.
  symmetry. apply Z.add_nocarry_lxor. exact Hdisj.
Qed.

Ltac pow_lia :=
  change (2 ^ 8) with 256 in *; change (2 ^ 16) with 65536 in *;
  change (2 ^ 24) with 16777216 in *; change (2 ^ 32) with 4294967296 in *;
  lia.

Lemma pack_sum (b0 b1 b2 b3 : Z) :
  is_u8 b0 -> is_u8 b1 -> is_u8 b2 -> is_u8 b3 ->
  pack (b0, b1, b2, b3) = b0 * 16777216 + b1 * 65536 + b2 * 256 + b3.
Proof.
  intros H0 H1 H2 H3. unfold pack.
  rewrite !shiftl_u8_u32 by (auto; lia).
  unfold is_u8 in *.
  rewrite (lor_add_low (b0 * 2 ^ 24) b0 (b1 * 2 ^ 16) 24) by pow_lia.
  rewrite (lor_add_low _ (b0 * 256 + b1) (b2 * 2 ^ 8) 16) by pow_lia.
  rewrite (lor_add_low _ (b0 * 65536 + b1 * 256 + b2) b3 8) by pow_lia.
  pow_lia.
Qed.

Lemma unpack_div (i : Z) :
  unpack i = ((i / 16777216) mod 256, (i / 65536) mod 256,
              (i / 256) mod 256, i mod 256).
Proof.
  unfold unpack, u8. change 255 with (Z.ones 8).
  rewrite !Z.land_ones, !Z.shiftr_div_pow2 by lia.
  change (2 ^ 8) with 256. rewrite !Z.mod_mod by lia. reflexivity.
Qed.

Lemma unpack_is_u8 (i : Z) :
  let '(b0, b1, b2, b3) := unpack i in
  is_u8 b0 /\ is_u8 b1 /\ is_u8 b2 /\ is_u8 b3.
Proof.
  rewrite unpack_div. unfold is_u8.
  repeat split; apply Z.mod_pos_bound; lia.
Qed.

Lemma unpack_pack (b0 b1 b2 b3 : Z) :
  is_u8 b0 -> is_u8 b1 -> is_u8 b2 -> is_u8 b3 ->
  unpack (pack (b0, b1, b2, b3)) = (b0, b1, b2, b3).
Proof.
  intros H0 H1 H2 H3. rewrite pack_sum, unpack_div by assumption.
  unfold is_u8 in *.
  repeat f_equal.
  - rewrite Z.mod_small; [| split; [apply Z.div_pos | apply Z.div_lt_upper_bound]; lia].
    symmetry. apply (Z.div_unique _ _ _ (b1 * 65536 + b2 * 256 + b3)); lia.
  - symmetry. apply (Z.mod_unique _ _ (b0)); [lia |].
    symmetry. apply (Z.div_unique _ _ _ (b2 * 256 + b3)); lia.
  - symmetry. apply (Z.mod_unique _ _ (b0 * 256 + b1)); [lia |].
    symmetry. apply (Z.div_unique _ _ _ b3); lia.
  - symmetry. apply (Z.mod_unique _ _ (b0 * 65536 + b1 * 256 + b2)); lia.
Qed.

Lemma pack_unpack (i : Z) : is_u32 i -> pack (unpack i) = i.
Proof.
  intros Hi. pose proof (unpack_is_u8 i) as Hu.
  destruct (unpack i) as [[[b0 b1] b2] b3] eqn:E.
  destruct Hu as (H0 & H1 & H2 & H3).
  rewrite pack_sum by assumption.
  rewrite unpack_div in E. inversion E; subst; clear E.
  unfold is_u32 in Hi. change (2 ^ 32) with 4294967296 in Hi.
  Z.to_euclidean_division_equations. lia.
Qed.

(** C8.  pack and unpack are inverse to each other: unpack undoes pack on
    every four 8-bit values, pack undoes unpack on every 32-bit value, and
    each maps into the domain of the other. *)
Theorem pack_unpack_inverse (b0 b1 b2 b3 i : Z) :
  is_u8 b0 -> is_u8 b1 -> is_u8 b2 -> is_u8 b3 -> is_u32 i ->
  unpack (pack (b0, b1, b2, b3)) = (b0, b1, b2, b3) /\
  pack (unpack i) = i /\
  is_u32 (pack (b0, b1, b2, b3)) /\
  (let '(c0, c1, c2, c3) := unpack i in
   is_u8 c0 /\ is_u8 c1 /\ is_u8 c2 /\ is_u8 c3).
Proof.
  intros H0 H1 H2 H3 Hi. split; [| split; [| split]].
  - apply unpack_pack; assumption.
  - apply pack_unpack; assumption.
  - unfold is_u32. rewrite pack_sum by assumption. unfold is_u8 in *. pow_lia.
  - apply unpack_is_u8.
Qed.

Lemma pack_unpack_inverse_witness :
  unpack (pack (18, 52, 86, 120)) = (18, 52, 86, 120) /\
  pack (unpack 305419896) = 305419896.
Proof.
  destruct (pack_unpack_inverse 18 52 86 120 305419896) as (Hu & Hp & _).
  - unfold is_u8. lia.
  - unfold is_u8. lia.
  - unfold is_u8. lia.
  - unfold is_u8. lia.
  - unfold is_u32. pow_lia.
  - split; assumption.
Defined.

(** ** The transition model *)

Lemma AddColorTransition_bounds (m : markov) (c1 c2 : Color) :
  bounds (AddColorTransition m c1 c2) = bounds m.
Proof. reflexivity. Qed.

Lemma within_In_ (m : markov) (p : Point) : within m p = In_ p (bounds m).
Proof. reflexivity. Qed.

Lemma fold_lengths_insert (mo : gmap Z (list Z)) (k v : Z) :
  map_fold (fun _ values n => (length values + n)%nat) 0%nat
           (<[k := default [] (mo !! k) ++ [v]]> mo)
  = S (map_fold (fun _ values n => (length values + n)%nat) 0%nat mo).
Proof.
  assert (Hcomm : forall (z1 z2 : list Z) (y : nat),
             (length z1 + (length z2 + y) = length z2 + (length z1 + y))%nat)
    by (intros; lia).
  destruct (mo !! k) as [values |] eqn:E; simpl.
  - rewrite <- insert_delete_eq.
    rewrite map_fold_insert_L; [| intros; apply Hcomm | apply lookup_delete_eq].
    rewrite (map_fold_delete_L _ _ k values mo); [| intros; apply Hcomm | exact E].
    rewrite length_app. simpl. lia.
  - rewrite map_fold_insert_L; [| intros; apply Hcomm | exact E].
    reflexivity.
Qed.

Lemma transitions_AddColorTransition (m : markov) (c1 c2 : Color) :
  transitions (AddColorTransition m c1 c2) = S (transitions m).
Proof. unfold transitions. simpl. apply fold_lengths_insert. Qed.

Lemma transitions_New : transitions New = 0%nat.
Proof. unfold transitions. simpl. apply map_fold_empty. Qed.

Lemma model_inv_empty (fmt : string) (r : Rectangle) :
  model_inv {| keys := []; model := ∅; format := fmt; bounds := r |}.
Proof.
  split; simpl.
  - intros k values H. rewrite lookup_empty in H. discriminate.
  - intros k. rewrite lookup_empty. split.
    + intros H. inversion H.
    + intros [x H]. discriminate.
  - constructor.
Qed.

Lemma model_inv_AddColorTransition (m : markov) (c1 c2 : Color) :
  model_inv m -> model_inv (AddColorTransition m c1 c2).
Proof.
  intros [Hne Hkeys Hnd]. split; simpl.
  - intros k values. rewrite lookup_insert. case_decide as Hk.
    + intros [= <-]. destruct (default [] _); discriminate.
    + apply Hne.
  - intros k. rewrite lookup_insert.
    destruct (model m !! encodeColor c1) as [old |] eqn:E.
    + case_decide as Hk.
      * subst k. split; [eauto |]. intros _. apply Hkeys. rewrite E. eauto.
      * apply Hkeys.
    + rewrite elem_of_app, list_elem_of_singleton. case_decide as Hk.
      * subst k. split; [eauto | auto].
      * rewrite Hkeys. split; [intros [? | ?]; congruence | auto].
  - destruct (model m !! encodeColor c1) as [old |] eqn:E; [exact Hnd |].
    apply NoDup_app. split; [exact Hnd |]. split; [| apply NoDup_singleton].
    intros k Hk ->%list_elem_of_singleton.
    apply Hkeys in Hk. rewrite E in Hk. destruct Hk; discriminate.
Qed.

Lemma model_inv_New : model_inv New.
Proof. apply model_inv_empty. Qed.

Lemma bounds_foldl_add_call (ops : list (Color * Color)) (m : markov) :
  bounds (foldl add_call m ops) = bounds m.
Proof. revert m. induction ops as [| op ops IH]; intros m; simpl; [| rewrite IH]; reflexivity. Qed.

Lemma transitions_foldl_add_call (ops : list (Color * Color)) (m : markov) :
  transitions (foldl add_call m ops) = (transitions m + length ops)%nat.
Proof.
  revert m. induction ops as [| op ops IH]; intros m; simpl; [lia |].
  rewrite IH. unfold add_call. rewrite transitions_AddColorTransition. lia.
Qed.

Lemma model_inv_foldl_add_call (ops : list (Color * Color)) (m : markov) :
  model_inv m -> model_inv (foldl add_call m ops).
Proof.
  revert m. induction ops as [| op ops IH]; intros m Hm; simpl; [exact Hm |].
  apply IH, model_inv_AddColorTransition, Hm.
Qed.

(* The keys are the sources of the calls, each where it first occurs. *)
Lemma keys_foldl_add_call (ops : list (Color * Color)) (m : markov) :
  model_inv m ->
  keys (foldl add_call m ops)
  = keys m ++ filter (fun k => k ∉ keys m)
                     (first_occurrences ((fun cc => encodeColor cc.1) <$> ops)).
Proof.
  revert m. induction ops as [| [c1 c2] ops IH]; intros m Hm; simpl.
  { rewrite app_nil_r. reflexivity. }
  rewrite IH by (apply model_inv_AddColorTransition, Hm).
  set (l := first_occurrences _). set (k := encodeColor c1).
  unfold add_call, AddColorTransition; simpl. fold k.
  destruct (model m !! k) as [old |] eqn:E.
  - assert (Hin : k ∈ keys m) by (apply (inv_keys m Hm); rewrite E; eauto).
    rewrite filter_cons_False by (intros Hn; apply Hn, Hin).
    rewrite list_filter_filter. f_equal. apply list_filter_iff.
    intros x. split; [| tauto]. intros Hx. split; [exact Hx |].
    intros ->. exact (Hx Hin).
  - assert (Hout : k ∉ keys m).
    { intros Hin%(inv_keys m Hm). rewrite E in Hin. destruct Hin; discriminate. }
    rewrite filter_cons_True by exact Hout.
    rewrite <- app_assoc. simpl. do 2 f_equal.
    rewrite list_filter_filter. apply list_filter_iff.
    intros x. rewrite elem_of_app, list_elem_of_singleton. tauto.
Qed.

(** ** The scan of ReadFile, as a sequence of calls of AddColorTransition *)

Lemma foldl_bind {S T U} (f : S -> U -> S) (g : T -> list U) (l : list T) (a : S) :
  foldl f a (l ≫= g) = foldl (fun a x => foldl f a (g x)) a l.
Proof.
  revert a. induction l as [| x l IH]; intros a; simpl; [reflexivity |].
  rewrite foldl_app. apply IH.
Qed.

Lemma foldl_agree {S T} (I : S -> Prop) (f g : S -> T -> S) (l : list T) (a : S) :
  (forall a x, I a -> f a x = g a x /\ I (f a x)) ->
  I a -> foldl f a l = foldl g a l /\ I (foldl f a l).
Proof.
  intros Hfg. revert a. induction l as [| x l IH]; intros a Ha; simpl; [auto |].
  destruct (Hfg a x Ha) as [E Hfa]. rewrite <- E. apply IH, Hfa.
Qed.

Lemma ReadFile_pixel_calls_gen (im : Image) (p : Point) (c : Color)
    (r : Rectangle) (adjs : list Point) (m : markov) :
  bounds m = r ->
  foldl (fun m adj =>
           let p := Add p adj in
           if within m p then
             let c_ := At im (X p) (Y p) in
             AddColorTransition m c c_
           else m)
        m adjs
  = foldl add_call m
          ((fun q => (c, At im (X q) (Y q)))
             <$> filter (fun q => In_ q r = true) ((fun adj => Add p adj) <$> adjs)).
Proof.
  revert m. induction adjs as [| adj adjs IH]; intros m Hr; [reflexivity |].
  rewrite fmap_cons. cbn [foldl]. rewrite within_In_, Hr.
  destruct (In_ (Add p adj) r) eqn:E.
  - rewrite filter_cons_True by exact E. rewrite fmap_cons. cbn [foldl].
    apply IH. exact Hr.
  - rewrite filter_cons_False by (rewrite E; discriminate). apply IH. exact Hr.
Qed.

Lemma ReadFile_pixel_calls (im : Image) (x y : Z) (m : markov) :
  ReadFile_pixel im x y m
  = foldl add_call m (calls_at im (bounds m) {| X := x; Y := y |}).
Proof. apply ReadFile_pixel_calls_gen. reflexivity. Qed.

Lemma ReadFile_scan_calls (im : Image) (m : markov) :
  ReadFile_scan im m = foldl add_call m (scan_calls im (bounds m)).
Proof.
  unfold ReadFile_scan, scan_calls, pixels.
  set (r := bounds m). unfold MinX, MaxX. fold r.
  rewrite (foldl_bind add_call), (foldl_bind _ _ (zrange (X (Min r)) (X (Max r)))).
  apply (foldl_agree (fun m => bounds m = r)); [| reflexivity].
  intros m1 x H1. unfold MinY, MaxY. rewrite H1.
  rewrite (foldl_bind _ _ (zrange (Y (Min r)) (Y (Max r)))).
  apply (foldl_agree (fun m => bounds m = r)); [| exact H1].
  intros m2 y H2. cbn [foldl]. rewrite ReadFile_pixel_calls, H2.
  split; [reflexivity |]. rewrite bounds_foldl_add_call. exact H2.
Qed.

Lemma build_calls (im : Image) :
  build im = foldl add_call
                   {| keys := []; model := ∅; format := "png"; bounds := Bounds im |}
                   (scan_calls im (Bounds im)).
Proof. unfold build, ReadFile. cbn [String.eqb Ascii.eqb Bool.eqb negb fst]. apply ReadFile_scan_calls. Qed.

Lemma bounds_build (im : Image) : bounds (build im) = Bounds im.
Proof. rewrite build_calls, bounds_foldl_add_call. reflexivity. Qed.

Lemma model_inv_build (im : Image) : model_inv (build im).
Proof. rewrite build_calls. apply model_inv_foldl_add_call, model_inv_empty. Qed.

Lemma length_scan_calls (im : Image) (r : Rectangle) :
  length (scan_calls im r) = length (adjacencies r).
Proof.
  unfold scan_calls, adjacencies.
  induction (pixels r) as [| p ps IH]; [reflexivity |].
  rewrite !bind_cons, !length_app, IH. unfold calls_at.
  rewrite !length_fmap. reflexivity.
Qed.

Lemma transitions_build (im : Image) :
  transitions (build im) = length (adjacencies (Bounds im)).
Proof.
  rewrite build_calls, transitions_foldl_add_call, length_scan_calls.
  unfold transitions. simpl. rewrite map_fold_empty. reflexivity.
Qed.

(** ** Counting the adjacencies of a rectangle *)

Lemma zsum_cons {T} (f : T -> Z) (x : T) (l : list T) :
  zsum f (x :: l) = f x + zsum f l.
Proof. reflexivity. Qed.

Lemma zsum_app {T} (f : T -> Z) (l k : list T) :
  zsum f (l ++ k) = zsum f l + zsum f k.
Proof.
  induction l as [| x l IH]; [reflexivity |].
  rewrite <- app_comm_cons, !zsum_cons, IH. lia.
Qed.

Lemma zsum_bind {T U} (f : U -> Z) (g : T -> list U) (l : list T) :
  zsum f (l ≫= g) = zsum (fun x => zsum f (g x)) l.
Proof.
  induction l as [| x l IH]; [reflexivity |].
  rewrite bind_cons, zsum_app, zsum_cons, IH. reflexivity.
Qed.

Lemma length_zsum {T} (l : list T) : Z.of_nat (length l) = zsum (fun _ => 1) l.
Proof. induction l as [| x l IH]; [reflexivity |]. rewrite zsum_cons, <- IH. cbn [length]. lia. Qed.

Lemma zsum_ext_in {T} (f g : T -> Z) (l : list T) :
  (forall x, x ∈ l -> f x = g x) -> zsum f l = zsum g l.
Proof.
  induction l as [| x l IH]; intros H; [reflexivity |].
  rewrite !zsum_cons, IH, (H x) by (intros; try apply H; set_solver). reflexivity.
Qed.

Lemma zsum_add {T} (f g : T -> Z) (l : list T) :
  zsum (fun x => f x + g x) l = zsum f l + zsum g l.
Proof. induction l as [| x l IH]; [reflexivity |]. rewrite !zsum_cons, IH. lia. Qed.

Lemma zsum_const {T} (c : Z) (l : list T) :
  zsum (fun _ => c) l = c * Z.of_nat (length l).
Proof. induction l as [| x l IH]; [cbn; lia |]. rewrite zsum_cons, IH. cbn [length]. lia. Qed.

Lemma zsum_seqZ_above (c a : Z) (k : nat) :
  zsum (fun y => b2z (c <? y)) (seqZ a (Z.of_nat k))
  = Z.max 0 (Z.min (Z.of_nat k) (a + Z.of_nat k - 1 - c)).
Proof.
  revert a. induction k as [| k IH]; intros a.
  { replace (seqZ a (Z.of_nat 0)) with (@nil Z) by reflexivity.
    cbn [zsum foldr]. lia. }
  rewrite seqZ_cons by lia. rewrite zsum_cons.
  replace (Z.pred (Z.of_nat (S k))) with (Z.of_nat k) by lia.
  rewrite IH. unfold b2z. destruct (Z.ltb_spec c a); lia.
Qed.

Lemma zsum_seqZ_below (d a : Z) (k : nat) :
  zsum (fun y => b2z (y <? d)) (seqZ a (Z.of_nat k))
  = Z.max 0 (Z.min (Z.of_nat k) (d - a)).
Proof.
  revert a. induction k as [| k IH]; intros a.
  { replace (seqZ a (Z.of_nat 0)) with (@nil Z) by reflexivity.
    cbn [zsum foldr]. lia. }
  rewrite seqZ_cons by lia. rewrite zsum_cons.
  replace (Z.pred (Z.of_nat (S k))) with (Z.of_nat k) by lia.
  rewrite IH. unfold b2z. destruct (Z.ltb_spec a d); lia.
Qed.

Lemma zsum_seqZ_above_Z (c a n : Z) :
  0 <= n ->
  zsum (fun y => b2z (c <? y)) (seqZ a n) = Z.max 0 (Z.min n (a + n - 1 - c)).
Proof.
  intros Hn. rewrite <- (Z2Nat.id n Hn) at 1. rewrite zsum_seqZ_above. lia.
Qed.

Lemma zsum_seqZ_below_Z (d a n : Z) :
  0 <= n ->
  zsum (fun y => b2z (y <? d)) (seqZ a n) = Z.max 0 (Z.min n (d - a)).
Proof.
  intros Hn. rewrite <- (Z2Nat.id n Hn) at 1. rewrite zsum_seqZ_below. lia.
Qed.

(* How many of the four neighbours of a pixel of [r] lie in [r]. *)
Lemma length_neighbours (r : Rectangle) (x y : Z) :
  X (Min r) <= x < X (Max r) -> Y (Min r) <= y < Y (Max r) ->
  Z.of_nat (length (neighbours r {| X := x; Y := y |}))
  = b2z (X (Min r) <? x) + b2z (x <? X (Max r) - 1)
    + (b2z (Y (Min r) <? y) + b2z (y <? Y (Max r) - 1)).
Proof.
  intros Hx Hy. unfold neighbours, adjacent.
  rewrite !fmap_cons, fmap_nil. unfold Add. cbn [X Y].
  assert (E1 : In_ {| X := x + -1; Y := y + 0 |} r = (X (Min r) <? x)).
  { unfold In_. cbn [X Y]. destruct (Z.ltb_spec (X (Min r)) x); lia. }
  assert (E2 : In_ {| X := x + 0; Y := y + -1 |} r = (Y (Min r) <? y)).
  { unfold In_. cbn [X Y]. destruct (Z.ltb_spec (Y (Min r)) y); lia. }
  assert (E3 : In_ {| X := x + 1; Y := y + 0 |} r = (x <? X (Max r) - 1)).
  { unfold In_. cbn [X Y]. destruct (Z.ltb_spec x (X (Max r) - 1)); lia. }
  assert (E4 : In_ {| X := x + 0; Y := y + 1 |} r = (y <? Y (Max r) - 1)).
  { unfold In_. cbn [X Y]. destruct (Z.ltb_spec y (Y (Max r) - 1)); lia. }
  rewrite !filter_cons, filter_nil, E1, E2, E3, E4.
  destruct (X (Min r) <? x), (Y (Min r) <? y), (x <? X (Max r) - 1),
    (y <? Y (Max r) - 1); reflexivity.
Qed.

Lemma length_adjacencies (r : Rectangle) :
  1 <= Dx r -> 1 <= Dy r ->
  Z.of_nat (length (adjacencies r)) = 4 * Dx r * Dy r - 2 * Dx r - 2 * Dy r.
Proof.
  unfold Dx, Dy. intros HW HH.
  set (x0 := X (Min r)) in *. set (x1 := X (Max r)) in *.
  set (y0 := Y (Min r)) in *. set (y1 := Y (Max r)) in *.
  rewrite length_zsum. unfold adjacencies, pixels, zrange.
  fold x0 x1 y0 y1.
  rewrite zsum_bind, zsum_bind.
  rewrite (zsum_ext_in _ (fun x =>
     (y1 - y0) * (b2z (x0 <? x) + b2z (x <? x1 - 1)) + 2 * (y1 - y0 - 1))).
  - rewrite zsum_add, zsum_const, length_seqZ.
    rewrite (zsum_ext_in _ (fun x => (y1 - y0) * b2z (x0 <? x) + (y1 - y0) * b2z (x <? x1 - 1)))
      by (intros; lia).
    rewrite zsum_add.
    assert (Hmul : forall (c : Z) (f : Z -> Z) (l : list Z),
               zsum (fun x => c * f x) l = c * zsum f l).
    { intros c f l. induction l as [| z l IH]; [cbn; lia |].
      rewrite !zsum_cons, IH. lia. }
    rewrite !Hmul.
    rewrite zsum_seqZ_above_Z, zsum_seqZ_below_Z by lia. nia.
  - intros x Hx%elem_of_seqZ. rewrite zsum_bind.
    rewrite (zsum_ext_in _ (fun y =>
       (b2z (x0 <? x) + b2z (x <? x1 - 1)) + (b2z (y0 <? y) + b2z (y <? y1 - 1)))).
    + rewrite zsum_add, zsum_const, length_seqZ, zsum_add.
      rewrite zsum_seqZ_above_Z, zsum_seqZ_below_Z by lia. lia.
    + intros y Hy%elem_of_seqZ. rewrite zsum_cons. cbn [zsum foldr].
      rewrite Z.add_0_r, <- length_zsum, length_fmap.
      apply length_neighbours; fold x0 x1 y0 y1; lia.
Qed.

(** ** The model of a scanned image *)

Lemma lookup_add_call_mono (m : markov) (cc : Color * Color) (k : Z) :
  is_Some (model m !! k) -> is_Some (model (add_call m cc) !! k).
Proof.
  intros H. unfold add_call, AddColorTransition. cbn [model].
  rewrite lookup_insert. case_decide; [eauto | exact H].
Qed.

Lemma lookup_foldl_add_call_mono (ops : list (Color * Color)) (m : markov) (k : Z) :
  is_Some (model m !! k) -> is_Some (model (foldl add_call m ops) !! k).
Proof.
  revert m. induction ops as [| op ops IH]; intros m H; [exact H |].
  cbn [foldl]. apply IH, lookup_add_call_mono, H.
Qed.

Lemma lookup_foldl_add_call (ops : list (Color * Color)) (m : markov)
    (cc : Color * Color) :
  cc ∈ ops -> is_Some (model (foldl add_call m ops) !! encodeColor cc.1).
Proof.
  revert m. induction ops as [| op ops IH]; intros m H; [inversion H |].
  cbn [foldl]. apply elem_of_cons in H as [-> | H]; [| apply IH, H].
  apply lookup_foldl_add_call_mono. unfold add_call, AddColorTransition.
  cbn [model]. rewrite lookup_insert_eq. eauto.
Qed.

Lemma In__true (p : Point) (r : Rectangle) :
  In_ p r = true
  <-> X (Min r) <= X p < X (Max r) /\ Y (Min r) <= Y p < Y (Max r).
Proof.
  unfold In_.
  destruct (Z.leb_spec (X (Min r)) (X p)), (Z.ltb_spec (X p) (X (Max r))),
    (Z.leb_spec (Y (Min r)) (Y p)), (Z.ltb_spec (Y p) (Y (Max r)));
    cbn [andb]; split; try discriminate; try lia; reflexivity.
Qed.

Lemma elem_of_pixels (r : Rectangle) (p : Point) :
  p ∈ pixels r <-> In_ p r = true.
Proof.
  rewrite In__true. unfold pixels, zrange. rewrite list_elem_of_bind. split.
  - intros (x & (y & ->%list_elem_of_singleton & Hy%elem_of_seqZ)%list_elem_of_bind
              & Hx%elem_of_seqZ).
    cbn [X Y]. lia.
  - intros H. exists (X p). split.
    + apply list_elem_of_bind. exists (Y p). split.
      * destruct p. apply list_elem_of_singleton. reflexivity.
      * apply elem_of_seqZ. lia.
    + apply elem_of_seqZ. lia.
Qed.

Lemma neighbours_nonempty (r : Rectangle) (p : Point) :
  In_ p r = true -> 2 <= Dx r \/ 2 <= Dy r -> exists q, q ∈ neighbours r p.
Proof.
  rewrite In__true. unfold Dx, Dy, neighbours. intros Hp Hd.
  assert (Hsome : exists adj, adj ∈ adjacent /\ In_ (Add p adj) r = true).
  { unfold adjacent.
    destruct (Z.ltb_spec (X (Min r)) (X p)).
    { exists {| X := -1; Y := 0 |}. split; [repeat constructor |].
      apply In__true. cbn [Add X Y]. lia. }
    destruct (Z.ltb_spec (X p + 1) (X (Max r))).
    { exists {| X := 1; Y := 0 |}. split; [repeat constructor |].
      apply In__true. cbn [Add X Y]. lia. }
    destruct (Z.ltb_spec (Y (Min r)) (Y p)).
    { exists {| X := 0; Y := -1 |}. split; [repeat constructor |].
      apply In__true. cbn [Add X Y]. lia. }
    exists {| X := 0; Y := 1 |}. split; [repeat constructor |].
    apply In__true. cbn [Add X Y]. lia. }
  destruct Hsome as (adj & Hadj & Hin). exists (Add p adj).
  apply list_elem_of_filter. split; [exact Hin |].
  apply list_elem_of_fmap. exists adj. auto.
Qed.

Lemma pixel_key_present (im : Image) (p : Point) :
  In_ p (Bounds im) = true ->
  2 <= Dx (Bounds im) \/ 2 <= Dy (Bounds im) ->
  exists values,
    model (build im) !! encodeColor (At im (X p) (Y p)) = Some values
    /\ values ≠ [].
Proof.
  intros Hp Hd. destruct (neighbours_nonempty _ _ Hp Hd) as [q Hq].
  pose proof (lookup_foldl_add_call (scan_calls im (Bounds im))
                {| keys := []; model := ∅; format := "png"; bounds := Bounds im |}
                (At im (X p) (Y p), At im (X q) (Y q))) as H.
  rewrite <- build_calls in H. destruct H as [values Hv].
  - unfold scan_calls. apply list_elem_of_bind. exists p.
    split; [| apply elem_of_pixels, Hp].
    unfold calls_at. apply list_elem_of_fmap. exists q. auto.
  - exists values. split; [exact Hv |].
    exact (inv_nonempty _ (model_inv_build im) _ _ Hv).
Qed.

(** C9.  After the scan of a grid with at least two columns and two rows,
    the quantised colour key of every pixel is a key of the state space and
    its list of transitions is not empty. *)
Theorem model_complete (im : Image) (x y : Z) :
  2 <= Dx (Bounds im) -> 2 <= Dy (Bounds im) ->
  In_ {| X := x; Y := y |} (Bounds im) = true ->
  exists values,
    model (build im) !! encodeColor (At im x y) = Some values /\ values ≠ [].
Proof.
  intros HW HH Hp.
  apply (pixel_key_present im {| X := x; Y := y |} Hp). left. exact HW.
Qed.

Lemma model_complete_witness :
  exists values,
    model (build four_colours) !! encodeColor (At four_colours 1 0) = Some values
    /\ values ≠ [].
Proof.
  apply (model_complete four_colours 1 0).
  - vm_compute. discriminate.
  - vm_compute. discriminate.
  - reflexivity.
Defined.

(** C4, as amended.  After the scan, the lengths of the transition lists sum
    to the number of ordered pairs of a pixel and a neighbour within bounds;
    for a grid of W columns and H rows, both at least 1, that number is
    4*H*W - 2*H - 2*W. *)
Theorem transition_count (im : Image) :
  1 <= Dx (Bounds im) -> 1 <= Dy (Bounds im) ->
  transitions (build im) = length (adjacencies (Bounds im)) /\
  Z.of_nat (transitions (build im))
  = 4 * Dy (Bounds im) * Dx (Bounds im) - 2 * Dy (Bounds im) - 2 * Dx (Bounds im).
Proof.
  intros HW HH. split; [apply transitions_build |].
  rewrite transitions_build, length_adjacencies by assumption. lia.
Qed.

Lemma transition_count_witness :
  transitions (build four_colours) = length (adjacencies (Bounds four_colours)) /\
  Z.of_nat (transitions (build four_colours)) = 8.
Proof.
  destruct (transition_count four_colours) as [H1 H2].
  - vm_compute. discriminate.
  - vm_compute. discriminate.
  - split; [exact H1 |]. rewrite H2. reflexivity.
Defined.

(** C4, as stated, fails: the four pixels of a 2x2 grid have two neighbours
    each, 8 transitions, where the formula 2*H*W - 2*H - 2*W gives 0. *)
Lemma transition_count_formula_refuted :
  Z.of_nat (transitions (build four_colours)) = 8 /\
  Z.of_nat (transitions (build four_colours))
  <> 2 * Dy (Bounds four_colours) * Dx (Bounds four_colours)
     - 2 * Dy (Bounds four_colours) - 2 * Dx (Bounds four_colours).
Proof. split; vm_compute; [reflexivity | discriminate]. Qed.

(** ** Running the monad *)

Lemma rand_Int_ok (max : Z) (w : World) :
  0 < max -> rand_Int max w = Ok (entropy w 0%nat mod max, advance w).
Proof. intros H. unfold rand_Int. destruct (Z.leb_spec max 0); [lia | reflexivity]. Qed.

Lemma rand_Int_panics (max : Z) (w : World) : max <= 0 -> rand_Int max w = Panic.
Proof. intros H. unfold rand_Int. destruct (Z.leb_spec max 0); [reflexivity | lia]. Qed.

Lemma index_ok {T} (s : list T) (i : Z) (v : T) (w : World) :
  0 <= i -> s !! Z.to_nat i = Some v -> index s i w = Ok (v, w).
Proof.
  intros Hi Hv. unfold index. destruct (Z.ltb_spec i 0); [lia |].
  rewrite Hv. reflexivity.
Qed.

Lemma index_drawn {T} (s : list T) (e : Z) (w : World) :
  s ≠ [] ->
  exists v, s !! Z.to_nat (e mod Z.of_nat (length s)) = Some v
            /\ index s (e mod Z.of_nat (length s)) w = Ok (v, w).
Proof.
  intros Hs. assert (0 < Z.of_nat (length s)) by (destruct s; [congruence | cbn [length]; lia]).
  pose proof (Z.mod_pos_bound e (Z.of_nat (length s)) ltac:(lia)) as Hb.
  destruct (lookup_lt_is_Some_2 s (Z.to_nat (e mod Z.of_nat (length s)))) as [v Hv]; [lia |].
  exists v. split; [exact Hv |]. apply index_ok; [lia | exact Hv].
Qed.

Lemma GetNextColor_found (m : markov) (c : Color) (values : list Z) (w : World) :
  model m !! encodeColor c = Some values -> values ≠ [] ->
  exists v,
    values !! Z.to_nat (entropy w 0%nat mod Z.of_nat (length values)) = Some v
    /\ GetNextColor m c w
       = Ok (Some (decodeColor v),
             {| entropy := entropy (advance w);
                calls := calls w ++ [(c, Some (decodeColor v))] |}).
Proof.
  intros Hk Hne.
  destruct (index_drawn values (entropy w 0%nat) (advance w) Hne) as (v & Hv & Hi).
  exists v. split; [exact Hv |].
  unfold GetNextColor, bind. rewrite Hk.
  rewrite rand_Int_ok by (destruct values; [congruence | cbn [length]; lia]).
  rewrite Hi. reflexivity.
Qed.

Lemma GetNextColor_missing (m : markov) (c : Color) (w : World) :
  model m !! encodeColor c = None ->
  GetNextColor m c w
  = Ok (None, {| entropy := entropy w; calls := calls w ++ [(c, None)] |}).
Proof. intros Hk. unfold GetNextColor, bind. rewrite Hk. reflexivity. Qed.

Lemma filter_all {T} (P : T -> Prop) `{forall x, Decision (P x)} (l : list T) :
  (forall x, P x) -> filter P l = l.
Proof.
  intros HP. induction l as [| x l IH]; [reflexivity |].
  rewrite filter_cons_True by apply HP. rewrite IH. reflexivity.
Qed.

(** C10.  The model keeps its invariant: every key of the state space has a
    transition list that is not empty, and the list of distinct keys holds
    exactly the keys of the map, none twice.  New() has it, every call of
    AddColorTransition keeps it, and after any calls the distinct keys are the
    source keys of the calls in the order in which each first came.  Hence,
    when GetNextColor finds the key of its colour, the index it draws is in
    range of the transition list. *)
Theorem model_invariant (m : markov) (c1 c2 c : Color) (values : list Z)
    (w : World) (ops : list (Color * Color)) :
  model_inv m ->
  model_inv New /\
  model_inv (AddColorTransition m c1 c2) /\
  keys (foldl add_call New ops)
  = first_occurrences ((fun cc => encodeColor cc.1) <$> ops) /\
  (model m !! encodeColor c = Some values ->
   let i := entropy w 0%nat mod Z.of_nat (length values) in
   0 <= i < Z.of_nat (length values) /\
   exists v w', values !! Z.to_nat i = Some v
                /\ GetNextColor m c w = Ok (Some (decodeColor v), w')).
Proof.
  intros Hm. split; [exact model_inv_New |].
  split; [apply model_inv_AddColorTransition, Hm |]. split.
  - rewrite keys_foldl_add_call by exact model_inv_New.
    cbn [keys New app]. apply filter_all. intros x Hx. inversion Hx.
  - intros Hk i. pose proof (inv_nonempty m Hm _ _ Hk) as Hne. split.
    + apply Z.mod_pos_bound. destruct values; [congruence | cbn [length]; lia].
    + destruct (GetNextColor_found m c values w Hk Hne) as (v & Hv & Hg).
      eauto.
Qed.

Lemma model_invariant_witness :
  model_inv (AddColorTransition (build four_colours) (opaque 1 2 3) (opaque 4 5 6)) /\
  exists v w',
    GetNextColor (build four_colours) (opaque 255 0 0) sample_world
    = Ok (Some (decodeColor v), w').
Proof.
  destruct (model_invariant (build four_colours) (opaque 1 2 3) (opaque 4 5 6)
              (opaque 255 0 0) [16711935; 65535] sample_world [])
    as (_ & Hadd & _ & Hnext).
  - apply model_inv_build.
  - split; [exact Hadd |].
    destruct Hnext as (_ & v & w' & _ & Hg); [reflexivity | eauto].
Defined.

(** ** A source of one pixel *)

Lemma GetRandomColor_no_keys (m : markov) (w : World) :
  keys m = [] -> GetRandomColor m w = Panic.
Proof. intros H. unfold GetRandomColor, bind. rewrite H. reflexivity. Qed.

Lemma Generate_init_no_keys (m : markov) (w : World) :
  keys m = [] -> Generate_init m w = Panic.
Proof.
  intros H. unfold Generate_init, bind.
  destruct (NewRGBA _ w) as [[im w1] |]; [| reflexivity].
  destruct (Generate_start m w1) as [[p w2] |]; [| reflexivity].
  rewrite GetRandomColor_no_keys by exact H. reflexivity.
Qed.

Lemma scan_calls_one_pixel (im : Image) (r : Rectangle) :
  Dx r = 1 -> Dy r = 1 -> scan_calls im r = [].
Proof.
  intros HW HH. apply length_zero_iff_nil.
  rewrite length_scan_calls.
  pose proof (length_adjacencies r ltac:(lia) ltac:(lia)). lia.
Qed.

Lemma build_one_pixel (im : Image) :
  Dx (Bounds im) = 1 -> Dy (Bounds im) = 1 ->
  build im = {| keys := []; model := ∅; format := "png"; bounds := Bounds im |}.
Proof.
  intros HW HH. rewrite build_calls, scan_calls_one_pixel by assumption.
  reflexivity.
Qed.

Lemma Generate_one_pixel (im : Image) (fuel : nat) (w : World) :
  Dx (Bounds im) = 1 -> Dy (Bounds im) = 1 ->
  fst (Generate fuel (build im) w) = Panicked.
Proof.
  intros HW HH. rewrite build_one_pixel by assumption.
  unfold Generate. rewrite Generate_init_no_keys by reflexivity. reflexivity.
Qed.

(** C3, on the code.  For a source of one pixel the scan records no
    transition and, since keys are only listed by AddColorTransition, no
    distinct key either; Generate then panics in GetRandomColor, whatever the
    draws. *)
Theorem one_pixel_source (im : Image) (fuel : nat) (w : World) :
  Dx (Bounds im) = 1 -> Dy (Bounds im) = 1 ->
  transitions (build im) = 0%nat /\
  keys (build im) = [] /\
  fst (Generate fuel (build im) w) = Panicked.
Proof.
  intros HW HH. split; [| split].
  - rewrite build_one_pixel by assumption. apply map_fold_empty.
  - rewrite build_one_pixel by assumption. reflexivity.
  - apply Generate_one_pixel; assumption.
Qed.

Lemma one_pixel_source_witness :
  keys (build one_pixel) = [] /\
  fst (Generate 5 (build one_pixel) sample_world) = Panicked.
Proof.
  destruct (one_pixel_source one_pixel 5 sample_world) as (_ & H1 & H2);
    [reflexivity | reflexivity |].
  split; assumption.
Defined.

(** ** The starting point *)

Lemma Generate_start_ok (m : markov) (w : World) :
  0 < MaxX m -> 0 < MaxY m ->
  Generate_start m w
  = Ok ({| X := entropy w 0%nat mod MaxX m; Y := entropy w 1%nat mod MaxY m |},
        advance (advance w)).
Proof.
  intros HX HY. unfold Generate_start, bind.
  rewrite rand_Int_ok by exact HX. rewrite rand_Int_ok by exact HY. reflexivity.
Qed.

(* The draws are taken below max X and max Y from 0, not from min X and
   min Y.  Were the bounds those from (2,2) to (4,4), which the bounds of a
   decoded PNG never are, the starting point could be (1,1). *)
Lemma start_outside_bounds :
  exists w',
    Generate_start (build off_origin) ones_world = Ok ({| X := 1; Y := 1 |}, w')
    /\ within (build off_origin) {| X := 1; Y := 1 |} = false.
Proof. eexists. split; vm_compute; reflexivity. Qed.

(** ** What a step does to the world and to the canvas *)

Lemma bind_Ok {T U} (c : M T) (k : T -> M U) (w : World) (r : U * World) :
  bind c k w = Ok r <-> exists v w1, c w = Ok (v, w1) /\ k v w1 = Ok r.
Proof.
  unfold bind. split.
  - destruct (c w) as [[v w1] |]; [eauto | discriminate].
  - intros (v & w1 & -> & H). exact H.
Qed.

Lemma ret_Ok {T} (v v' : T) (w w' : World) :
  ret v w = Ok (v', w') <-> v' = v /\ w' = w.
Proof. unfold ret. split; [intros [= <- <-]; auto | intros [-> ->]; reflexivity]. Qed.

Lemma rand_Int_Ok (max v : Z) (w w' : World) :
  rand_Int max w = Ok (v, w') ->
  0 < max /\ v = entropy w 0%nat mod max /\ w' = advance w.
Proof.
  unfold rand_Int. destruct (Z.leb_spec max 0); [discriminate |].
  intros [= <- <-]. auto.
Qed.

Lemma index_Ok {T} (s : list T) (i : Z) (v : T) (w w' : World) :
  index s i w = Ok (v, w') -> 0 <= i /\ s !! Z.to_nat i = Some v /\ w' = w.
Proof.
  unfold index. destruct (Z.ltb_spec i 0); [discriminate |].
  destruct (s !! Z.to_nat i) as [v0 |]; [| discriminate].
  intros [= <- <-]. auto.
Qed.

Lemma slice4_Ok (pix : list Z) (i : Z) (r : Z * Z * Z * Z) (w w' : World) :
  slice4 pix i w = Ok (r, w') ->
  0 <= i /\ i + 4 <= Z.of_nat (length pix) /\ w' = w.
Proof.
  unfold slice4.
  destruct (Z.ltb_spec i 0); [discriminate |].
  destruct (Z.ltb_spec (Z.of_nat (length pix)) (i + 4)); [discriminate |].
  cbn [orb]. cbv zeta.
  destruct (pix !! Z.to_nat i), (pix !! S (Z.to_nat i)),
    (pix !! S (S (Z.to_nat i))), (pix !! S (S (S (Z.to_nat i))));
    try discriminate.
  intros [= <- <-]. auto.
Qed.

Lemma SetRGBA_Ok (p p' : image_RGBA) (x y : Z) (c : color_RGBA) (w w' : World) :
  SetRGBA p x y c w = Ok (p', w') ->
  Rect p' = Rect p /\ Stride p' = Stride p
  /\ length (Pix p') = length (Pix p) /\ w' = w.
Proof.
  unfold SetRGBA. destruct (negb _).
  - intros [-> ->]%ret_Ok. auto.
  - intros (v & w1 & (_ & _ & ->)%slice4_Ok & [-> ->]%ret_Ok)%bind_Ok.
    cbn [Rect Stride Pix]. rewrite !length_insert. auto.
Qed.

Lemma RGBA_At_Ok (p : image_RGBA) (x y : Z) (c : Color) (w w' : World) :
  RGBA_At p x y w = Ok (c, w') -> w' = w.
Proof.
  unfold RGBA_At, RGBAAt.
  intros (v & w1 & H & [_ ->]%ret_Ok)%bind_Ok.
  destruct (negb _).
  - apply ret_Ok in H as [_ ->]. reflexivity.
  - apply bind_Ok in H as ([[[a b] c0] d] & w2 & (_ & _ & ->)%slice4_Ok & [_ ->]%ret_Ok).
    reflexivity.
Qed.

Lemma RGBA_At_pure (p : image_RGBA) (x y : Z) (c : Color) (w w' w0 : World) :
  RGBA_At p x y w = Ok (c, w') -> RGBA_At p x y w0 = Ok (c, w0).
Proof.
  unfold RGBA_At, RGBAAt, bind, slice4, ret, panic.
  destruct (negb _); [intros [= <- _]; reflexivity |].
  destruct (_ || _); [discriminate |]. cbv zeta.
  set (n := Z.to_nat (PixOffset p x y)).
  destruct (Pix p !! n), (Pix p !! S n), (Pix p !! S (S n)),
    (Pix p !! S (S (S n))); try discriminate.
  intros [= <- _]. reflexivity.
Qed.

Lemma GetNextColor_Ok (m : markov) (c : Color) (r : option Color) (w w' : World) :
  GetNextColor m c w = Ok (r, w') -> calls w' = calls w ++ [(c, r)].
Proof.
  unfold GetNextColor.
  intros (r0 & w1 & H & (u & w2 & Hrec & [-> ->]%ret_Ok)%bind_Ok)%bind_Ok.
  assert (Hw1 : calls w1 = calls w).
  { destruct (model m !! encodeColor c) as [values |].
    - apply bind_Ok in H as (i & w3 & (_ & _ & ->)%rand_Int_Ok & H).
      apply bind_Ok in H as (v & w4 & (_ & _ & ->)%index_Ok & [_ ->]%ret_Ok).
      reflexivity.
    - apply ret_Ok in H as [_ ->]. reflexivity. }
  unfold record_call in Hrec. injection Hrec as Hrec. subst w2. cbn [calls].
  rewrite Hw1. reflexivity.
Qed.

Lemma Pop_Ok (stack stack' : list Point) (p : Point) (w w' : World) :
  Pop stack w = Ok ((p, stack'), w') ->
  calls w' = calls w
  /\ exists i, stack !! i = Some p /\ stack' = delete i stack.
Proof.
  unfold Pop.
  intros (i & w1 & (_ & _ & ->)%rand_Int_Ok & H)%bind_Ok.
  apply bind_Ok in H as (q & w2 & (_ & Hq & ->)%index_Ok & [[= -> ->] ->]%ret_Ok).
  split; [reflexivity | eauto].
Qed.

Lemma foldM_inv {S T} (I : S -> World -> Prop) (f : S -> T -> M S)
    (l : list T) (s s' : S) (w w' : World) :
  (forall s x w s' w', I s w -> f s x w = Ok (s', w') -> I s' w') ->
  I s w -> foldM f l s w = Ok (s', w') -> I s' w'.
Proof.
  intros Hf. revert s w. induction l as [| x l IH]; intros s w Hs; cbn [foldM].
  - intros [-> ->]%ret_Ok. exact Hs.
  - intros (s1 & w1 & H1 & H2)%bind_Ok. eapply IH; [| exact H2]. eauto.
Qed.

(* One neighbour: either nothing happens, or GetNextColor is called once,
   with the current colour, and what it returns becomes the current colour. *)
Lemma Generate_adjacent_Ok (m : markov) (p adj : Point) (c c' : Color)
    (im im' : image_RGBA) (stack stack' : list Point) (w w' : World) :
  Generate_adjacent m p (c, im, stack) adj w = Ok ((c', im', stack'), w') ->
  Rect im' = Rect im /\
  ((c' = c /\ im' = im /\ stack' = stack /\ calls w' = calls w) \/
   (stack' = Push stack (Add p adj) /\ calls w' = calls w ++ [(c, Some c')])).
Proof.
  unfold Generate_adjacent. destruct (within m (Add p adj)).
  - intros (v & w1 & (_ & _ & ->)%index_Ok & H)%bind_Ok.
    destruct (v =? 0).
    + apply bind_Ok in H as (r & w2 & Hn%GetNextColor_Ok & H).
      destruct r as [c1 |]; [| discriminate].
      apply bind_Ok in H as (im1 & w3 & (HR & _ & _ & ->)%SetRGBA_Ok & H).
      apply ret_Ok in H as [[= -> -> ->] ->]. auto.
    + apply ret_Ok in H as [[= -> -> ->] ->]. split; [reflexivity |]. left. auto.
  - intros [[= -> -> ->] ->]%ret_Ok. split; [reflexivity |]. left. auto.
Qed.

Lemma chained_snoc (c0 c c' : Color) (l : list (Color * option Color)) :
  chained c0 l c -> chained c0 (l ++ [(c, Some c')]) c'.
Proof.
  revert c0. induction l as [| [a r] l IH]; intros c0; cbn [chained app].
  - intros ->. eauto.
  - intros (-> & c1 & -> & H). split; [reflexivity |]. eauto.
Qed.

(* In a step of the synthesis the calls of GetNextColor form a chain: the
   first is given the colour read from the output grid at the popped
   coordinate, and each later one is given the colour that the call before
   it in the same step returned. *)
Lemma neighbour_colours_chained (m : markov) (im im' : image_RGBA)
    (stack stack' : list Point) (w w' : World) :
  Generate_step m im stack w = Ok ((im', stack'), w') ->
  exists p stack1 w1 c0 entries c_last,
    Pop stack w = Ok ((p, stack1), w1) /\
    RGBA_At im (X p) (Y p) w1 = Ok (c0, w1) /\
    calls w' = calls w ++ entries /\
    chained c0 entries c_last.
Proof.
  unfold Generate_step.
  intros ([p stack1] & w1 & HPop & H)%bind_Ok.
  pose proof (Pop_Ok _ _ _ _ _ HPop) as (Hc1 & _).
  apply bind_Ok in H as (c0 & w2 & Hat & H).
  pose proof (RGBA_At_Ok _ _ _ _ _ _ Hat) as ->.
  apply bind_Ok in H as ([[c_last im2] stack2] & w3 & Hfold & [_ Ew]%ret_Ok).
  subst w3. exists p, stack1, w1, c0.
  assert (Hinv : exists entries,
             calls w' = calls w ++ entries /\ chained c0 entries c_last).
  { revert Hfold.
    apply (foldM_inv
             (fun s w2 => exists entries,
                  calls w2 = calls w ++ entries /\ chained c0 entries s.1.1)).
    - intros [[c a] st] adj wa [[c' a'] st'] wb (entries & Hcalls & Hch) Hadj.
      apply Generate_adjacent_Ok in Hadj as (_ & [(-> & _ & _ & Hw) | (_ & Hw)]).
      + exists entries. rewrite Hw. auto.
      + exists (entries ++ [(c, Some c')]). rewrite Hw, Hcalls, app_assoc.
        split; [reflexivity |]. apply chained_snoc, Hch.
    - exists []. rewrite app_nil_r. split; [exact Hc1 | reflexivity]. }
  destruct Hinv as (entries & Hcalls & Hch). exists entries, c_last. auto.
Qed.

Lemma neighbour_colours_chained_witness :
  exists p stack1 w1 c0 entries c_last,
    Pop [{| X := 0; Y := 0 |}] zeros_world = Ok ((p, stack1), w1) /\
    RGBA_At red_corner (X p) (Y p) w1 = Ok (c0, w1) /\
    calls after_red_corner = calls zeros_world ++ entries /\
    chained c0 entries c_last.
Proof.
  eapply (neighbour_colours_chained (build four_colours) red_corner _
            [{| X := 0; Y := 0 |}]).
  vm_compute. reflexivity.
Defined.

(** C6, on the code.  The claim is what the comments of the loop say: take
    the colour of the popped point and set all adjacent points to a next
    colour of it, as the sibling loop of ReadFile keeps the colour of its
    pixel for all four offsets.  The code assigns the result of GetNextColor
    to the variable that holds that colour.  On the 2x2 source of red, green,
    blue and yellow, under the oracle of zeros, Generate starts from red at
    (0,0); the step that pops (0,0) reads red there, calls GetNextColor with
    red for the neighbour (1,0) and gets green, and then calls it with green,
    the colour it has just produced, for the neighbour (0,1), and gets red.
    So the cell (0,1), next to the red cell whose turn it is, is painted
    red, which is not among the transitions of red in the model: those are
    green and blue. *)
Theorem neighbour_colour_not_from_popped :
  exists w1 im' stack' w2,
    Generate_init (build four_colours) zeros_world
    = Ok ((red_corner, [{| X := 0; Y := 0 |}]), w1) /\
    RGBA_At red_corner 0 0 w1 = Ok (opaque 255 0 0, w1) /\
    Generate_step (build four_colours) red_corner [{| X := 0; Y := 0 |}] w1
    = Ok ((im', stack'), w2) /\
    calls w2 = [ (opaque 255 0 0, Some (opaque 0 255 0));
                 (opaque 0 255 0, Some (opaque 255 0 0)) ] /\
    ~ Forall (fun e => e.1 = opaque 255 0 0) (calls w2) /\
    cell im' {| X := 1; Y := 0 |} = Some (colorToRGBA (opaque 0 255 0)) /\
    cell im' {| X := 0; Y := 1 |} = Some (colorToRGBA (opaque 255 0 0)) /\
    model (build four_colours) !! encodeColor (opaque 255 0 0)
    = Some [encodeColor (opaque 0 255 0); encodeColor (opaque 0 0 255)] /\
    encodeColor (opaque 255 0 0)
    ∉ [encodeColor (opaque 0 255 0); encodeColor (opaque 0 0 255)].
Proof.
  eexists. eexists. eexists. eexists.
  split; [vm_compute; reflexivity |].
  split; [vm_compute; reflexivity |].
  split; [vm_compute; reflexivity |].
  split; [reflexivity |].
  split.
  { intros H. cbn [calls] in H.
    apply Forall_cons in H as [_ H]. apply Forall_cons in H as [H _].
    discriminate H. }
  split; [vm_compute; reflexivity |].
  split; [vm_compute; reflexivity |].
  split; [vm_compute; reflexivity |].
  intros H. vm_compute in H.
  apply elem_of_cons in H as [H | H]; [discriminate H |].
  apply elem_of_cons in H as [H | H]; [discriminate H | inversion H].
Qed.

(** ** A colour without transitions *)

Lemma Generate_adjacent_missing (m : markov) (p adj : Point) (c : Color)
    (im : image_RGBA) (stack : list Point) (w : World) :
  within m (Add p adj) = true ->
  index (Pix im) (PixOffset im (X (Add p adj)) (Y (Add p adj))) w = Ok (0, w) ->
  model m !! encodeColor c = None ->
  Generate_adjacent m p (c, im, stack) adj w = Panic.
Proof.
  intros Hin Hpix Hk. unfold Generate_adjacent. rewrite Hin.
  unfold bind at 1. rewrite Hpix. cbn [Z.eqb].
  unfold bind at 1. rewrite GetNextColor_missing by exact Hk. reflexivity.
Qed.

(* In a step that completes every call of GetNextColor returned a colour. *)
Lemma Generate_step_calls (m : markov) (im im' : image_RGBA)
    (stack stack' : list Point) (w w' : World) :
  Generate_step m im stack w = Ok ((im', stack'), w') ->
  exists entries,
    calls w' = calls w ++ entries /\ Forall (fun e => is_Some e.2) entries.
Proof.
  unfold Generate_step.
  intros ([p stack1] & w1 & (Hc1 & _)%Pop_Ok & H)%bind_Ok.
  apply bind_Ok in H as (c0 & w2 & ->%RGBA_At_Ok & H).
  apply bind_Ok in H as ([[c1 im2] stack2] & w3 & Hfold & [_ Ew]%ret_Ok).
  subst w3. revert Hfold.
  apply (foldM_inv
           (fun _ w2 => exists entries,
                calls w2 = calls w ++ entries
                /\ Forall (fun e => is_Some e.2) entries)).
  - intros [[c a] st] adj wa [[c' a'] st'] wb (entries & Hcalls & Hall) Hadj.
    apply Generate_adjacent_Ok in Hadj as (_ & [(_ & _ & _ & Hw) | (_ & Hw)]).
    + exists entries. rewrite Hw. auto.
    + exists (entries ++ [(c, Some c')]). rewrite Hw, Hcalls, app_assoc.
      split; [reflexivity |]. apply Forall_app. split; [exact Hall |].
      constructor; [eexists; reflexivity | constructor].
  - exists []. rewrite app_nil_r. split; [exact Hc1 | constructor].
Qed.

Lemma Generate_loop_calls (fuel : nat) (m : markov) (im out : image_RGBA)
    (stack : list Point) (w w' : World) :
  Generate_loop fuel m im stack w = (Returned out, w') ->
  exists entries,
    calls w' = calls w ++ entries /\ Forall (fun e => is_Some e.2) entries.
Proof.
  revert im stack w. induction fuel as [| fuel IH]; intros im stack w;
    cbn [Generate_loop]; destruct (Len stack >? 0).
  - discriminate.
  - intros [= _ <-]. exists []. rewrite app_nil_r. split; [reflexivity | constructor].
  - destruct (Generate_step m im stack w) as [[[im1 stack1] w1] |] eqn:E;
      [| discriminate].
    intros (entries2 & H2 & Hall2)%IH.
    apply Generate_step_calls in E as (entries1 & H1 & Hall1).
    exists (entries1 ++ entries2). rewrite H2, H1, app_assoc.
    split; [reflexivity |]. apply Forall_app. auto.
  - intros [= _ <-]. exists []. rewrite app_nil_r. split; [reflexivity | constructor].
Qed.

(* A run of Generate that returns a grid has met no colour without
   transitions: had GetNextColor returned nil, the run would have panicked. *)
Lemma Generate_returned_calls (fuel : nat) (m : markov) (out : image_RGBA)
    (w w' : World) :
  Generate fuel m w = (Returned out, w') ->
  exists entries,
    calls w' = calls w ++ entries /\ Forall (fun e => is_Some e.2) entries.
Proof.
  unfold Generate.
  destruct (Generate_init m w) as [[[im0 stack0] w0] |] eqn:E; [| discriminate].
  intros (entries & H & Hall)%Generate_loop_calls.
  exists entries. split; [| exact Hall]. rewrite H. f_equal.
  unfold Generate_init in E.
  apply bind_Ok in E as (im1 & w1 & Hnew & E).
  assert (w1 = w) as ->.
  { unfold NewRGBA in Hnew. destruct (_ || _); [discriminate |].
    apply ret_Ok in Hnew as [_ ->]. reflexivity. }
  apply bind_Ok in E as (p & w2 & Hstart & E).
  unfold Generate_start in Hstart.
  apply bind_Ok in Hstart as (x & w3 & (_ & _ & ->)%rand_Int_Ok & Hstart).
  apply bind_Ok in Hstart as (y & w4 & (_ & _ & ->)%rand_Int_Ok & [_ ->]%ret_Ok).
  apply bind_Ok in E as (c & w5 & Hc & E).
  unfold GetRandomColor in Hc.
  apply bind_Ok in Hc as (i & w6 & (_ & _ & ->)%rand_Int_Ok & Hc).
  apply bind_Ok in Hc as (v & w7 & (_ & _ & ->)%index_Ok & [_ ->]%ret_Ok).
  apply bind_Ok in E as (im2 & w8 & (_ & _ & _ & ->)%SetRGBA_Ok & [_ ->]%ret_Ok).
  reflexivity.
Qed.


(** C2, on the code.  The model is that of three white pixels in a row, with
    one transition from white to yellow added through AddColorTransition;
    yellow has no transitions.  Under [yellow_world] the first step paints
    (1,0) yellow; the second pops it, asks nextColor for the unset neighbour
    (2,0), gets nil, and Generate panics in colorToRGBA instead of leaving the
    cell unset and going on. *)
Theorem missing_transition_run (fuel : nat) :
  model white_then_yellow !! encodeColor (opaque 255 255 0) = None /\
  fst (Generate 1 white_then_yellow yellow_world)
  = Running {| Pix := [255; 255; 255; 255; 255; 255; 0; 255; 0; 0; 0; 0];
               Stride := 12; Rect := rect 0 0 3 1 |}
            [{| X := 1; Y := 0 |}] /\
  fst (Generate (S (S fuel)) white_then_yellow yellow_world) = Panicked.
Proof.
  split; [reflexivity |]. split; vm_compute; reflexivity.
Qed.

(** ** Running one neighbour *)

Lemma Generate_adjacent_outside (m : markov) (p adj : Point)
    (st : Color * image_RGBA * list Point) (w : World) :
  within m (Add p adj) = false -> Generate_adjacent m p st adj w = Ok (st, w).
Proof.
  intros H. destruct st as [[c im] stack]. unfold Generate_adjacent.
  rewrite H. reflexivity.
Qed.

Lemma Generate_adjacent_set (m : markov) (p adj : Point) (c : Color)
    (im : image_RGBA) (stack : list Point) (v : Z) (w : World) :
  within m (Add p adj) = true ->
  index (Pix im) (PixOffset im (X (Add p adj)) (Y (Add p adj))) w = Ok (v, w) ->
  v ≠ 0 ->
  Generate_adjacent m p (c, im, stack) adj w = Ok ((c, im, stack), w).
Proof.
  intros Hin Hpix Hv. unfold Generate_adjacent. rewrite Hin.
  unfold bind. rewrite Hpix. destruct (Z.eqb_spec v 0); [contradiction | reflexivity].
Qed.

Lemma Generate_adjacent_paint (m : markov) (p adj : Point) (c c' : Color)
    (im im' : image_RGBA) (stack : list Point) (w w' : World) :
  within m (Add p adj) = true ->
  index (Pix im) (PixOffset im (X (Add p adj)) (Y (Add p adj))) w = Ok (0, w) ->
  GetNextColor m c w = Ok (Some c', w') ->
  SetRGBA im (X (Add p adj)) (Y (Add p adj)) (colorToRGBA c') w' = Ok (im', w') ->
  Generate_adjacent m p (c, im, stack) adj w
  = Ok ((c', im', Push stack (Add p adj)), w').
Proof.
  intros Hin Hpix Hnext Hset. unfold Generate_adjacent. rewrite Hin.
  unfold bind. rewrite Hpix. cbn [Z.eqb]. rewrite Hnext, Hset. reflexivity.
Qed.

(* After a neighbour was painted, the next offset of the same turn is
   handled with the colour just painted as the current colour, whatever the
   colour of the popped point was. *)
Lemma second_neighbour_colour (m : markov) (p adj1 adj2 : Point) (c c1 : Color)
    (im im1 : image_RGBA) (stack : list Point) (w w1 : World) :
  within m (Add p adj1) = true ->
  index (Pix im) (PixOffset im (X (Add p adj1)) (Y (Add p adj1))) w = Ok (0, w) ->
  GetNextColor m c w = Ok (Some c1, w1) ->
  SetRGBA im (X (Add p adj1)) (Y (Add p adj1)) (colorToRGBA c1) w1 = Ok (im1, w1) ->
  foldM (Generate_adjacent m p) [adj1; adj2] (c, im, stack) w
  = Generate_adjacent m p (c1, im1, Push stack (Add p adj1)) adj2 w1.
Proof.
  intros Hin Hpix Hnext Hset. cbn [foldM]. unfold bind at 1.
  rewrite (Generate_adjacent_paint m p adj1 c c1 im im1 stack w w1) by assumption.
  unfold bind.
  destruct (Generate_adjacent m p (c1, im1, Push stack (Add p adj1)) adj2 w1)
    as [[s2 w2] |]; reflexivity.
Qed.

Lemma Pop_nonempty (stack : list Point) (w : World) :
  stack ≠ [] ->
  exists i p, stack !! i = Some p
              /\ Pop stack w = Ok ((p, delete i stack), advance w).
Proof.
  intros Hne.
  destruct (index_drawn stack (entropy w 0%nat) (advance w) Hne) as (p & Hp & Hi).
  exists (Z.to_nat (entropy w 0%nat mod Z.of_nat (length stack))), p.
  split; [exact Hp |]. unfold Pop, Len, bind.
  rewrite rand_Int_ok by (destruct stack; [congruence | cbn [length]; lia]).
  rewrite Hi. reflexivity.
Qed.

Lemma foldM_four {S T} (f : S -> T -> M S) (a1 a2 a3 a4 : T)
    (s0 s1 s2 s3 s4 : S) (w0 w1 w2 w3 w4 : World) :
  f s0 a1 w0 = Ok (s1, w1) -> f s1 a2 w1 = Ok (s2, w2) ->
  f s2 a3 w2 = Ok (s3, w3) -> f s3 a4 w3 = Ok (s4, w4) ->
  foldM f [a1; a2; a3; a4] s0 w0 = Ok (s4, w4).
Proof.
  intros H1 H2 H3 H4. cbn [foldM]. unfold bind.
  rewrite H1, H2, H3, H4. reflexivity.
Qed.

Lemma Generate_step_run (m : markov) (im im' : image_RGBA)
    (stack stack1 stack' : list Point) (p : Point) (c c' : Color)
    (w w1 w' : World) :
  Pop stack w = Ok ((p, stack1), w1) ->
  RGBA_At im (X p) (Y p) w1 = Ok (c, w1) ->
  foldM (Generate_adjacent m p) adjacent (c, im, stack1) w1
  = Ok ((c', im', stack'), w') ->
  Generate_step m im stack w = Ok ((im', stack'), w').
Proof.
  intros HPop Hat Hfold. unfold Generate_step, bind.
  rewrite HPop, Hat, Hfold. reflexivity.
Qed.

(** ** Two black pixels: the synthesis does not end *)

Lemma GetNextColor_black (w : World) :
  exists w', GetNextColor (build black_row) (opaque 0 0 0) w
             = Ok (Some (opaque 0 0 0), w').
Proof.
  destruct (GetNextColor_found (build black_row) (opaque 0 0 0) [255; 255] w)
    as (v & Hv & Hg); [reflexivity | discriminate |].
  assert (v = 255) as ->.
  { apply list_elem_of_lookup_2 in Hv.
    apply elem_of_cons in Hv as [-> | Hv]; [reflexivity |].
    apply list_elem_of_singleton in Hv. exact Hv. }
  eexists. exact Hg.
Qed.

Lemma GetRandomColor_black (w : World) :
  GetRandomColor (build black_row) w = Ok (opaque 0 0 0, advance w).
Proof.
  unfold GetRandomColor, bind.
  change (keys (build black_row)) with [255].
  rewrite rand_Int_ok by (cbn; lia). cbn [length].
  change (Z.of_nat 1) with 1. rewrite Z.mod_1_r. reflexivity.
Qed.

Lemma black_state_init (w : World) :
  exists im stack w',
    Generate_init (build black_row) w = Ok ((im, stack), w')
    /\ black_state im stack.
Proof.
  unfold Generate_init.
  change (NewRGBA _) with
    (@ret image_RGBA {| Pix := [0; 0; 0; 0; 0; 0; 0; 0]; Stride := 8;
                       Rect := rect 0 0 2 1 |}).
  unfold bind at 1. unfold ret at 1.
  unfold bind at 1. rewrite Generate_start_ok by reflexivity.
  change (MaxX (build black_row)) with 2. change (MaxY (build black_row)) with 1.
  rewrite Z.mod_1_r.
  unfold bind at 1. rewrite GetRandomColor_black.
  assert (Hx : entropy w 0%nat mod 2 = 0 \/ entropy w 0%nat mod 2 = 1)
    by (pose proof (Z.mod_pos_bound (entropy w 0%nat) 2 ltac:(lia)); lia).
  cbn [X Y]. destruct Hx as [-> | ->].
  - do 3 eexists. split; [reflexivity |].
    exists 255, 0. split; [reflexivity |]. split; [discriminate |].
    intros p ->%list_elem_of_singleton. left. auto.
  - do 3 eexists. split; [reflexivity |].
    exists 0, 255. split; [reflexivity |]. split; [discriminate |].
    intros p ->%list_elem_of_singleton. right. auto.
Qed.

Lemma black_state_step (im : image_RGBA) (stack : list Point) (w : World) :
  black_state im stack ->
  exists im' stack' w',
    Generate_step (build black_row) im stack w = Ok ((im', stack'), w')
    /\ black_state im' stack'.
Proof.
  intros (a & b & -> & Hne & Hall).
  destruct (Pop_nonempty stack w Hne) as (i & p & Hp & HPop).
  assert (Hrest : forall q, q ∈ delete i stack -> q ∈ stack)
    by (intros q; apply list_elem_of_delete_inv).
  destruct (GetNextColor_black (advance w)) as [w1 Hnext].
  destruct (Hall p (list_elem_of_lookup_2 _ _ _ Hp)) as [[-> ->] | [-> ->]].
  - (* (0,0) is popped: (1,0) reads as unset and is painted black *)
    do 3 eexists. split.
    + eapply Generate_step_run; [exact HPop | reflexivity |].
      eapply foldM_four.
      * apply Generate_adjacent_outside. reflexivity.
      * apply Generate_adjacent_outside. reflexivity.
      * eapply Generate_adjacent_paint;
          [reflexivity | reflexivity | exact Hnext | vm_compute; reflexivity].
      * apply Generate_adjacent_outside. reflexivity.
    + exists 255, 255. split; [reflexivity |].
      split; [unfold Push; destruct (delete i stack); discriminate |].
      intros q [Hq | ->%list_elem_of_singleton]%elem_of_app; [| right; auto].
      destruct (Hall q (Hrest q Hq)) as [[-> _] | [-> _]]; auto.
  - (* (1,0) is popped: (0,0) reads as unset and is painted black *)
    do 3 eexists. split.
    + eapply Generate_step_run; [exact HPop | reflexivity |].
      eapply foldM_four.
      * eapply Generate_adjacent_paint;
          [reflexivity | reflexivity | exact Hnext | vm_compute; reflexivity].
      * apply Generate_adjacent_outside. reflexivity.
      * apply Generate_adjacent_outside. reflexivity.
      * apply Generate_adjacent_outside. reflexivity.
    + exists 255, 255. split; [reflexivity |].
      split; [unfold Push; destruct (delete i stack); discriminate |].
      intros q [Hq | ->%list_elem_of_singleton]%elem_of_app; [| left; auto].
      destruct (Hall q (Hrest q Hq)) as [[-> _] | [-> _]]; auto.
Qed.

Lemma black_state_loop (fuel : nat) (im : image_RGBA) (stack : list Point)
    (w : World) :
  black_state im stack ->
  exists im' stack' w',
    Generate_loop fuel (build black_row) im stack w = (Running im' stack', w').
Proof.
  revert im stack w. induction fuel as [| fuel IH]; intros im stack w Hst.
  - destruct Hst as (a & b & -> & Hne & _).
    destruct stack as [| p stack]; [congruence |]. do 3 eexists. reflexivity.
  - destruct (black_state_step im stack w Hst) as (im1 & stack1 & w1 & Hstep & Hst1).
    destruct (IH im1 stack1 w1 Hst1) as (im2 & stack2 & w2 & Hloop).
    exists im2, stack2, w2. cbn [Generate_loop].
    destruct Hst as (a & b & -> & Hne & _).
    destruct stack as [| p stack]; [congruence |].
    change (Len (p :: stack) >? 0) with (Z.pos (Pos.of_succ_nat (length stack)) >? 0).
    cbn [Z.gtb Z.compare]. rewrite Hstep. exact Hloop.
Qed.

(** C1, on the code.  For the model of two black, opaque pixels side by side
    the loop of Generate never ends: whatever the draws and however many
    turns it is given, it is still running, with a frontier that is not
    empty.  (The cells it paints have a zero red byte, which is what the loop
    reads as unset.) *)
Theorem black_row_never_returns (fuel : nat) (w : World) :
  exists im stack,
    fst (Generate fuel (build black_row) w) = Running im stack /\ stack ≠ [].
Proof.
  destruct (black_state_init w) as (im & stack & w1 & Hinit & Hst).
  unfold Generate. rewrite Hinit.
  destruct (black_state_loop fuel im stack w1 Hst) as (im2 & stack2 & w2 & Hloop).
  rewrite Hloop. exists im2, stack2. split; [reflexivity |].
  revert Hloop. clear. revert im stack w1.
  induction fuel as [| fuel IH]; intros im stack w1; cbn [Generate_loop].
  - destruct (Len stack >? 0) eqn:E; [| discriminate].
    intros [= <- <- <-]. intros ->. discriminate E.
  - destruct (Len stack >? 0); [| discriminate].
    destruct (Generate_step _ im stack w1) as [[[im1 stack1] w3] |]; [| discriminate].
    apply IH.
Qed.

(** ** The bounds of the output grid *)

Lemma Generate_step_Rect (m : markov) (im im' : image_RGBA)
    (stack stack' : list Point) (w w' : World) :
  Generate_step m im stack w = Ok ((im', stack'), w') -> Rect im' = Rect im.
Proof.
  unfold Generate_step.
  intros ([p stack1] & w1 & _ & H)%bind_Ok.
  apply bind_Ok in H as (c0 & w2 & _ & H).
  apply bind_Ok in H as ([[c1 im2] stack2] & w3 & Hfold & [[= -> _] _]%ret_Ok).
  revert Hfold.
  apply (foldM_inv (fun s _ => Rect s.1.2 = Rect im)); [| reflexivity].
  intros [[c a] st] adj wa [[c' a'] st'] wb Ha Hadj.
  apply Generate_adjacent_Ok in Hadj as [HR _]. cbn [fst snd] in *. congruence.
Qed.

Lemma Generate_loop_Rect (fuel : nat) (m : markov) (im : image_RGBA)
    (stack : list Point) (w : World) :
  match fst (Generate_loop fuel m im stack w) with
  | Returned out | Running out _ => Rect out = Rect im
  | Panicked => True
  end.
Proof.
  revert im stack w. induction fuel as [| fuel IH]; intros im stack w;
    cbn [Generate_loop]; destruct (Len stack >? 0); try reflexivity.
  destruct (Generate_step m im stack w) as [[[im1 stack1] w1] |] eqn:E;
    [| exact I].
  specialize (IH im1 stack1 w1).
  rewrite (Generate_step_Rect _ _ _ _ _ _ _ E) in IH. exact IH.
Qed.

Lemma Generate_init_Ok (m : markov) (im : image_RGBA) (stack : list Point)
    (w w' : World) :
  Generate_init m w = Ok ((im, stack), w') ->
  Rect im = image_Rect (MinX m) (MinY m) (MaxX m) (MaxY m) /\ keys m ≠ [].
Proof.
  unfold Generate_init.
  intros (im0 & w0 & Hnew & H)%bind_Ok.
  apply bind_Ok in H as (p & w1 & _ & H).
  apply bind_Ok in H as (c & w2 & Hc & H).
  apply bind_Ok in H as (im1 & w3 & (HR & _)%SetRGBA_Ok & [[= -> _] _]%ret_Ok).
  split.
  - rewrite HR. unfold NewRGBA in Hnew. destruct (_ || _); [discriminate |].
    apply ret_Ok in Hnew as [-> _]. reflexivity.
  - intros Hk. rewrite GetRandomColor_no_keys in Hc by exact Hk. discriminate.
Qed.

Lemma image_Rect_ordered (r : Rectangle) :
  X (Min r) <= X (Max r) -> Y (Min r) <= Y (Max r) ->
  image_Rect (X (Min r)) (Y (Min r)) (X (Max r)) (Y (Max r)) = r.
Proof.
  intros HX HY. unfold image_Rect.
  destruct (Z.ltb_spec (X (Max r)) (X (Min r))); [lia |].
  destruct (Z.ltb_spec (Y (Max r)) (Y (Min r))); [lia |].
  destruct r as [[x0 y0] [x1 y1]]. reflexivity.
Qed.

(* A model with a key was scanned from a grid with a pixel. *)
Lemma keys_build_bounds (im : Image) :
  keys (build im) ≠ [] ->
  X (Min (Bounds im)) < X (Max (Bounds im))
  /\ Y (Min (Bounds im)) < Y (Max (Bounds im)).
Proof.
  intros Hk.
  destruct (scan_calls im (Bounds im)) as [| cc l] eqn:E.
  { exfalso. apply Hk. rewrite build_calls, E. reflexivity. }
  assert (Hcc : cc ∈ scan_calls im (Bounds im)) by (rewrite E; constructor).
  unfold scan_calls in Hcc.
  apply list_elem_of_bind in Hcc as (p & _ & Hp%elem_of_pixels%In__true). lia.
Qed.

(** ** Colours and keys *)

Lemma u8_widen (v : Z) : is_u8 v -> u8 (widen v) = v.
Proof.
  intros Hv. unfold widen, u8. rewrite Z.lor_comm, Z.shiftl_mul_pow2 by lia.
  unfold is_u8 in Hv.
  rewrite (lor_add_low (v * 2 ^ 8) v v 8) by pow_lia.
  change (2 ^ 8) with 256. rewrite Z.add_comm, Z.mod_add by lia.
  apply Z.mod_small. lia.
Qed.

Lemma u8_is_u8 (x : Z) : is_u8 (u8 x).
Proof. unfold is_u8, u8. apply Z.mod_pos_bound. lia. Qed.

Lemma u8_small (x : Z) : is_u8 x -> u8 x = x.
Proof. unfold is_u8, u8. intros H. apply Z.mod_small. exact H. Qed.

Lemma colorToRGBA_is_u8 (c : Color) :
  is_u8 (R (colorToRGBA c)) /\ is_u8 (G (colorToRGBA c))
  /\ is_u8 (B (colorToRGBA c)) /\ is_u8 (A (colorToRGBA c)).
Proof.
  unfold colorToRGBA. destruct (RGBA c) as [[[r g] b] a]. cbn [R G B A].
  repeat split; apply Z.mod_pos_bound; lia.
Qed.

(* With the default compression the key of a colour packs its four bytes. *)
Lemma encodeColor_pack (c : Color) :
  encodeColor c
  = pack (R (colorToRGBA c), G (colorToRGBA c), B (colorToRGBA c), A (colorToRGBA c)).
Proof.
  unfold encodeColor, compressColor, colorToRGBA, DefaultCompression.
  destruct (RGBA c) as [[[r g] b] a]. cbn [RGBA R G B A].
  rewrite !Z.div_1_r, !Z.mul_1_r.
  rewrite !(u8_small (u8 _)) by apply u8_is_u8.
  rewrite !u8_widen by apply u8_is_u8. reflexivity.
Qed.

Lemma encodeColor_is_u32 (c : Color) : is_u32 (encodeColor c).
Proof.
  rewrite encodeColor_pack.
  destruct (colorToRGBA_is_u8 c) as (H0 & H1 & H2 & H3).
  rewrite pack_sum by assumption. unfold is_u32, is_u8 in *. pow_lia.
Qed.

Lemma key_RGBA_unpack (k : Z) :
  let '(b0, b1, b2, b3) := unpack k in
  key_RGBA k = {| R := b0; G := b1; B := b2; A := b3 |}.
Proof.
  pose proof (unpack_is_u8 k) as Hu. unfold key_RGBA, decodeColor, colorToRGBA.
  destruct (unpack k) as [[[b0 b1] b2] b3]. destruct Hu as (H0 & H1 & H2 & H3).
  cbn [RGBA R G B A]. rewrite !u8_widen by assumption. reflexivity.
Qed.

(* Reading back what was written for a key gives the colour of the key. *)
Lemma OfRGBA_key_RGBA (k : Z) : OfRGBA (key_RGBA k) = decodeColor k.
Proof.
  pose proof (key_RGBA_unpack k) as H. unfold decodeColor.
  destruct (unpack k) as [[[b0 b1] b2] b3]. rewrite H. reflexivity.
Qed.

Lemma encodeColor_decodeColor (k : Z) : is_u32 k -> encodeColor (decodeColor k) = k.
Proof.
  intros Hk. rewrite encodeColor_pack. fold (key_RGBA k).
  pose proof (key_RGBA_unpack k) as H. rewrite <- (pack_unpack k Hk) at 5.
  destruct (unpack k) as [[[b0 b1] b2] b3]. rewrite H. reflexivity.
Qed.

Lemma key_RGBA_encodeColor (c : Color) : key_RGBA (encodeColor c) = colorToRGBA c.
Proof.
  pose proof (key_RGBA_unpack (encodeColor c)) as H.
  rewrite encodeColor_pack in *.
  destruct (colorToRGBA_is_u8 c) as (H0 & H1 & H2 & H3).
  rewrite unpack_pack in H by assumption. rewrite H.
  destruct (colorToRGBA c). reflexivity.
Qed.

(** ** The model of a scanned image is closed *)

Lemma lookup_foldl_add_call_source (ops : list (Color * Color)) (m : markov) (k : Z) :
  is_Some (model (foldl add_call m ops) !! k) ->
  is_Some (model m !! k) \/ exists cc, cc ∈ ops /\ encodeColor cc.1 = k.
Proof.
  revert m. induction ops as [| op ops IH]; intros m H; [left; exact H |].
  cbn [foldl] in H. apply IH in H as [H | (cc & Hcc & Hk)].
  - unfold add_call, AddColorTransition in H. cbn [model] in H.
    rewrite lookup_insert in H. case_decide as Hd; [| left; exact H].
    right. exists op. split; [constructor | exact Hd].
  - right. exists cc. split; [constructor; exact Hcc | exact Hk].
Qed.

Lemma lookup_foldl_add_call_target (ops : list (Color * Color)) (m : markov)
    (k v : Z) (values : list Z) :
  model (foldl add_call m ops) !! k = Some values -> v ∈ values ->
  (exists old, model m !! k = Some old /\ v ∈ old)
  \/ exists cc, cc ∈ ops /\ encodeColor cc.1 = k /\ encodeColor cc.2 = v.
Proof.
  revert m. induction ops as [| op ops IH]; intros m H Hv; [left; eauto |].
  cbn [foldl] in H.
  destruct (IH _ H Hv) as [(old & Hold & Hin) | (cc & Hcc & Hk & Hv')].
  - unfold add_call, AddColorTransition in Hold. cbn [model] in Hold.
    rewrite lookup_insert in Hold. case_decide as Hd; [| left; eauto].
    injection Hold as <-.
    apply elem_of_app in Hin as [Hin | ->%list_elem_of_singleton].
    + left. destruct (model m !! encodeColor op.1) as [l |] eqn:E.
      * exists l. rewrite <- Hd, E. auto.
      * inversion Hin.
    + right. exists op. split; [constructor | auto].
  - right. exists cc. split; [constructor; exact Hcc | auto].
Qed.

Lemma elem_of_scan_calls (im : Image) (r : Rectangle) (cc : Color * Color) :
  cc ∈ scan_calls im r <->
  exists p q, In_ p r = true /\ q ∈ neighbours r p
              /\ cc = (At im (X p) (Y p), At im (X q) (Y q)).
Proof.
  unfold scan_calls, calls_at. rewrite list_elem_of_bind. split.
  - intros (p & (q & -> & Hq)%list_elem_of_fmap & Hp%elem_of_pixels). eauto.
  - intros (p & q & Hp & Hq & ->). exists p.
    split; [| apply elem_of_pixels, Hp].
    apply list_elem_of_fmap. eauto.
Qed.

(* Adjacency goes both ways. *)
Lemma neighbours_sym (r : Rectangle) (p q : Point) :
  In_ p r = true -> q ∈ neighbours r p -> In_ q r = true /\ p ∈ neighbours r q.
Proof.
  unfold neighbours. intros Hp (Hq & (adj & -> & Hadj)%list_elem_of_fmap)%list_elem_of_filter.
  split; [exact Hq |]. apply list_elem_of_filter. split; [exact Hp |].
  apply list_elem_of_fmap. exists {| X := - X adj; Y := - Y adj |}. split.
  - destruct p as [x y]. unfold Add. cbn [X Y]. f_equal; lia.
  - unfold adjacent in *.
    repeat (apply elem_of_cons in Hadj as [-> | Hadj]; [cbn [X Y Z.opp]; repeat constructor |]).
    inversion Hadj.
Qed.

Lemma model_closed_build (im : Image) :
  (forall p, In_ p (Bounds im) = true ->
             R (colorToRGBA (At im (X p) (Y p))) ≠ 0) ->
  model_closed (build im).
Proof.
  intros Hred.
  assert (Hsrc : forall k, is_Some (model (build im) !! k) ->
                           exists p, In_ p (Bounds im) = true
                                     /\ k = encodeColor (At im (X p) (Y p))).
  { intros k Hk. rewrite build_calls in Hk.
    apply lookup_foldl_add_call_source in Hk as [Hk | (cc & Hcc & <-)].
    - cbn [model] in Hk. rewrite lookup_empty in Hk. destruct Hk; discriminate.
    - apply elem_of_scan_calls in Hcc as (p & q & Hp & _ & ->). eauto. }
  split.
  - apply model_inv_build.
  - intros k values v Hk Hv. rewrite build_calls in Hk.
    destruct (lookup_foldl_add_call_target _ _ _ _ _ Hk Hv)
      as [(old & Hold & _) | (cc & Hcc & _ & <-)].
    + cbn [model] in Hold. rewrite lookup_empty in Hold. discriminate.
    + apply elem_of_scan_calls in Hcc as (p & q & Hp & Hq & ->).
      destruct (neighbours_sym _ _ _ Hp Hq) as [Hq' Hp'].
      rewrite build_calls.
      apply (lookup_foldl_add_call _ _ (At im (X q) (Y q), At im (X p) (Y p))).
      apply elem_of_scan_calls. eauto.
  - intros k (p & _ & ->)%Hsrc. apply encodeColor_is_u32.
  - intros k (p & Hp & ->)%Hsrc. rewrite key_RGBA_encodeColor. apply Hred, Hp.
Qed.

(** ** The cells of a canvas *)

Lemma lookup_set4_other {T} (l : list T) (n j : nat) (a b c d : T) :
  (j < n \/ n + 4 <= j)%nat ->
  (<[S (S (S n)) := d]> (<[S (S n) := c]> (<[S n := b]> (<[n := a]> l)))) !! j
  = l !! j.
Proof. intros H. rewrite !list_lookup_insert_ne by lia. reflexivity. Qed.

Lemma lookup_set4_at {T} (l : list T) (n : nat) (a b c d : T) :
  (n + 4 <= length l)%nat ->
  let l' := <[S (S (S n)) := d]> (<[S (S n) := c]> (<[S n := b]> (<[n := a]> l))) in
  l' !! n = Some a /\ l' !! S n = Some b
  /\ l' !! S (S n) = Some c /\ l' !! S (S (S n)) = Some d.
Proof.
  intros H l'. unfold l'. repeat split.
  - rewrite !list_lookup_insert_ne by lia. apply list_lookup_insert_eq. lia.
  - rewrite !list_lookup_insert_ne by lia.
    apply list_lookup_insert_eq. rewrite !length_insert. lia.
  - rewrite !list_lookup_insert_ne by lia.
    apply list_lookup_insert_eq. rewrite !length_insert. lia.
  - apply list_lookup_insert_eq. rewrite !length_insert. lia.
Qed.

Lemma slice4_ok (pix : list Z) (i a b c d : Z) (w : World) :
  0 <= i -> i + 4 <= Z.of_nat (length pix) ->
  pix !! Z.to_nat i = Some a -> pix !! S (Z.to_nat i) = Some b ->
  pix !! S (S (Z.to_nat i)) = Some c -> pix !! S (S (S (Z.to_nat i))) = Some d ->
  slice4 pix i w = Ok ((a, b, c, d), w).
Proof.
  intros Hi Hlen Ha Hb Hc Hd. unfold slice4.
  destruct (Z.ltb_spec i 0); [lia |].
  destruct (Z.ltb_spec (Z.of_nat (length pix)) (i + 4)); [lia |].
  cbn [orb]. cbv zeta. rewrite Ha, Hb, Hc, Hd. reflexivity.
Qed.

Section Canvas.

Variable r : Rectangle.
Variable im : image_RGBA.
Hypothesis Hrect : Rect im = r.
Hypothesis Hstride : Stride im = 4 * Dx r.
Hypothesis Hlen : Z.of_nat (length (Pix im)) = 4 * Dx r * Dy r.

Lemma PixOffset_cell (p : Point) :
  PixOffset im (X p) (Y p)
  = 4 * ((Y p - Y (Min r)) * Dx r + (X p - X (Min r))).
Proof. unfold PixOffset. rewrite Hrect, Hstride. lia. Qed.

Lemma PixOffset_range (p : Point) :
  In_ p r = true ->
  0 <= PixOffset im (X p) (Y p)
  /\ PixOffset im (X p) (Y p) + 4 <= Z.of_nat (length (Pix im)).
Proof.
  intros Hp%In__true. rewrite PixOffset_cell, Hlen. unfold Dx, Dy. nia.
Qed.

Lemma PixOffset_apart (p q : Point) :
  In_ p r = true -> In_ q r = true -> p ≠ q ->
  PixOffset im (X p) (Y p) + 4 <= PixOffset im (X q) (Y q)
  \/ PixOffset im (X q) (Y q) + 4 <= PixOffset im (X p) (Y p).
Proof.
  intros Hp%In__true Hq%In__true Hne. rewrite !PixOffset_cell. unfold Dx.
  destruct (Z.lt_trichotomy (Y p) (Y q)) as [Hy | [Hy | Hy]]; [nia | | nia].
  destruct (Z.lt_trichotomy (X p) (X q)) as [Hx | [Hx | Hx]]; [nia | | nia].
  exfalso. apply Hne. destruct p, q. cbn [X Y] in *. congruence.
Qed.

Lemma cell_is_Some (p : Point) :
  In_ p r = true -> exists c, cell im p = Some c /\ red_at im p = Some (R c).
Proof.
  intros Hp. destruct (PixOffset_range p Hp) as [H0 H4].
  unfold cell, red_at. set (n := Z.to_nat (PixOffset im (X p) (Y p))).
  destruct (lookup_lt_is_Some_2 (Pix im) n) as [a Ha]; [lia |].
  destruct (lookup_lt_is_Some_2 (Pix im) (S n)) as [b Hb]; [lia |].
  destruct (lookup_lt_is_Some_2 (Pix im) (S (S n))) as [c Hc]; [lia |].
  destruct (lookup_lt_is_Some_2 (Pix im) (S (S (S n)))) as [d Hd]; [lia |].
  rewrite Ha, Hb, Hc, Hd. eexists. split; reflexivity.
Qed.

Lemma cell_red_at (p : Point) (c : color_RGBA) :
  cell im p = Some c -> red_at im p = Some (R c).
Proof.
  unfold cell, red_at. set (n := Z.to_nat (PixOffset im (X p) (Y p))).
  destruct (Pix im !! n), (Pix im !! S n), (Pix im !! S (S n)),
    (Pix im !! S (S (S n))); try discriminate.
  intros [= <-]. reflexivity.
Qed.

Lemma index_red_at (p : Point) (v : Z) (w : World) :
  In_ p r = true -> red_at im p = Some v ->
  index (Pix im) (PixOffset im (X p) (Y p)) w = Ok (v, w).
Proof.
  intros Hp Hv. apply index_ok; [apply PixOffset_range, Hp | exact Hv].
Qed.

Lemma RGBA_At_cell (p : Point) (c : color_RGBA) (w : World) :
  In_ p r = true -> cell im p = Some c ->
  RGBA_At im (X p) (Y p) w = Ok (OfRGBA c, w).
Proof.
  intros Hp Hc. destruct (PixOffset_range p Hp) as [H0 H4].
  unfold RGBA_At, RGBAAt. rewrite Hrect.
  replace {| X := X p; Y := Y p |} with p by (destruct p; reflexivity).
  rewrite Hp. cbn [negb]. unfold cell in Hc.
  set (n := Z.to_nat (PixOffset im (X p) (Y p))) in *.
  destruct (Pix im !! n) as [a |] eqn:Ea; [| discriminate].
  destruct (Pix im !! S n) as [b |] eqn:Eb; [| discriminate].
  destruct (Pix im !! S (S n)) as [c0 |] eqn:Ec; [| discriminate].
  destruct (Pix im !! S (S (S n))) as [d |] eqn:Ed; [| discriminate].
  injection Hc as <-. unfold bind.
  rewrite (slice4_ok _ _ a b c0 d) by assumption. reflexivity.
Qed.

(* Writing a cell within bounds: it holds the colour, no other cell
   changes, and the shape of the canvas stays. *)
Lemma SetRGBA_cell (q : Point) (c : color_RGBA) :
  In_ q r = true ->
  exists im',
    (forall w, SetRGBA im (X q) (Y q) c w = Ok (im', w)) /\
    Rect im' = r /\ Stride im' = 4 * Dx r /\
    Z.of_nat (length (Pix im')) = 4 * Dx r * Dy r /\
    cell im' q = Some c /\
    (forall p, In_ p r = true -> p ≠ q ->
               cell im' p = cell im p /\ red_at im' p = red_at im p).
Proof.
  intros Hq. destruct (PixOffset_range q Hq) as [H0 H4].
  set (n := Z.to_nat (PixOffset im (X q) (Y q))).
  exists {| Pix := <[S (S (S n)) := A c]>
                     (<[S (S n) := B c]> (<[S n := G c]> (<[n := R c]> (Pix im))));
            Stride := Stride im; Rect := Rect im |}.
  split; [| split; [exact Hrect | split; [exact Hstride | split; [| split]]]].
  - intros w. unfold SetRGBA. rewrite Hrect.
    replace {| X := X q; Y := Y q |} with q by (destruct q; reflexivity).
    rewrite Hq. cbn [negb]. unfold bind.
    destruct (cell_is_Some q Hq) as (c0 & Hc0 & _). unfold cell in Hc0.
    fold n in Hc0.
    destruct (Pix im !! n) as [a0 |] eqn:Ea; [| discriminate].
    destruct (Pix im !! S n) as [b0 |] eqn:Eb; [| discriminate].
    destruct (Pix im !! S (S n)) as [c1 |] eqn:Ec; [| discriminate].
    destruct (Pix im !! S (S (S n))) as [d0 |] eqn:Ed; [| discriminate].
    rewrite (slice4_ok _ _ a0 b0 c1 d0) by assumption. reflexivity.
  - cbn [Pix]. rewrite !length_insert. exact Hlen.
  - unfold cell, PixOffset. cbn [Pix Stride Rect]. fold (PixOffset im (X q) (Y q)).
    fold n.
    destruct (lookup_set4_at (Pix im) n (R c) (G c) (B c) (A c)) as (Ea & Eb & Ec & Ed);
      [lia |].
    rewrite Ea, Eb, Ec, Ed. destruct c. reflexivity.
  - intros p Hp Hne. destruct (PixOffset_range p Hp) as [Hp0 Hp4].
    pose proof (PixOffset_apart p q Hp Hq Hne) as Hapart.
    unfold cell, red_at, PixOffset. cbn [Pix Stride Rect].
    fold (PixOffset im (X p) (Y p)).
    set (k := Z.to_nat (PixOffset im (X p) (Y p))).
    rewrite !lookup_set4_other by (unfold n, k; lia). auto.
Qed.

End Canvas.

(** ** Counting the cells that read as unset *)

Lemma NoDup_pixels (r : Rectangle) : NoDup (pixels r).
Proof.
  unfold pixels. apply NoDup_bind; [| | apply NoDup_seqZ].
  - intros x1 x2 p _ _ (y1 & ->%list_elem_of_singleton & _)%list_elem_of_bind
           (y2 & [= -> _]%list_elem_of_singleton & _)%list_elem_of_bind.
    reflexivity.
  - intros x _. apply NoDup_bind; [| | apply NoDup_seqZ].
    + intros y1 y2 p _ _ ->%list_elem_of_singleton [= ->]%list_elem_of_singleton.
      reflexivity.
    + intros y _. apply NoDup_singleton.
Qed.

Lemma length_pixels (r : Rectangle) :
  0 <= Dx r -> 0 <= Dy r -> Z.of_nat (length (pixels r)) = Dx r * Dy r.
Proof.
  intros HW HH. rewrite length_zsum. unfold pixels, zrange.
  rewrite zsum_bind.
  rewrite (zsum_ext_in _ (fun _ => Dy r)).
  - rewrite zsum_const, length_seqZ.
    change (X (Max r) - X (Min r)) with (Dx r). rewrite Z2Nat.id by exact HW. lia.
  - intros x _. rewrite zsum_bind.
    rewrite (zsum_ext_in _ (fun _ => 1)) by (intros; reflexivity).
    rewrite zsum_const, length_seqZ.
    change (Y (Max r) - Y (Min r)) with (Dy r). rewrite Z2Nat.id by exact HH. lia.
Qed.

Lemma filter_agree {T} (P P' : T -> Prop) `{forall x, Decision (P x)}
    `{forall x, Decision (P' x)} (l : list T) :
  (forall x, x ∈ l -> P x <-> P' x) -> filter P l = filter P' l.
Proof.
  induction l as [| x l IH]; intros Hl; [reflexivity |].
  rewrite !filter_cons.
  rewrite IH by (intros y Hy; apply Hl; constructor; exact Hy).
  destruct (decide (P x)) as [Hx | Hx], (decide (P' x)) as [Hx' | Hx'];
    try reflexivity; exfalso.
  - apply Hx', (Hl x); [constructor | exact Hx].
  - apply Hx, (Hl x); [constructor | exact Hx'].
Qed.

(* Changing the test at one element of a list without repetitions. *)
Lemma length_filter_one {T} (P P' : T -> Prop) `{forall x, Decision (P x)}
    `{forall x, Decision (P' x)} (l : list T) (q : T) :
  NoDup l -> q ∈ l -> P q -> ~ P' q ->
  (forall x, x ∈ l -> x ≠ q -> P x <-> P' x) ->
  length (filter P l) = S (length (filter P' l)).
Proof.
  induction l as [| x l IH]; intros Hnd Hq HP HP' Hl; [inversion Hq |].
  apply NoDup_cons in Hnd as [Hx Hnd]. rewrite !filter_cons.
  apply elem_of_cons in Hq as [-> | Hq].
  - rewrite decide_True by exact HP. rewrite decide_False by exact HP'.
    cbn [length]. f_equal. f_equal. apply filter_agree.
    intros y Hy. apply Hl; [constructor; exact Hy |]. intros ->. exact (Hx Hy).
  - assert (Hne : x ≠ q) by (intros ->; exact (Hx Hq)).
    assert (IH' : length (filter P l) = S (length (filter P' l))).
    { apply IH; auto. intros y Hy. apply Hl. constructor. exact Hy. }
    assert (Hxx : P x <-> P' x) by (apply Hl; [constructor | exact Hne]).
    destruct (decide (P x)) as [Hp | Hp], (decide (P' x)) as [Hp' | Hp'];
      cbn [length]; try lia; tauto.
Qed.

Lemma filter_all_in {T} (P : T -> Prop) `{forall x, Decision (P x)} (l : list T) :
  (forall x, x ∈ l -> P x) -> filter P l = l.
Proof.
  induction l as [| x l IH]; intros Hl; [reflexivity |].
  rewrite filter_cons_True by (apply Hl; constructor).
  rewrite IH by (intros y Hy; apply Hl; constructor; exact Hy). reflexivity.
Qed.

Lemma unset_painted (r : Rectangle) (im im' : image_RGBA) (q : Point) (v : Z) :
  In_ q r = true -> red_at im q = Some 0 -> red_at im' q = Some v -> v ≠ 0 ->
  (forall p, In_ p r = true -> p ≠ q -> red_at im' p = red_at im p) ->
  unset im r = S (unset im' r).
Proof.
  intros Hq H0 Hv Hne Hsame. unfold unset.
  apply (length_filter_one _ _ _ q); [apply NoDup_pixels | | exact H0 | |].
  - apply elem_of_pixels, Hq.
  - rewrite Hv. intros [= ->]. contradiction.
  - intros p Hp%elem_of_pixels Hpq. rewrite (Hsame p Hp Hpq). tauto.
Qed.

Lemma unset_fresh (r : Rectangle) (im : image_RGBA) :
  (forall p, In_ p r = true -> red_at im p = Some 0) ->
  unset im r = length (pixels r).
Proof.
  intros Hall. unfold unset. f_equal. apply filter_all_in.
  intros p Hp%elem_of_pixels. apply Hall, Hp.
Qed.

(** ** The synthesis ends when every colour has a red byte *)

Lemma foldM_total {S T} (I : S -> Prop) (f : S -> T -> M S) (l : list T) :
  (forall s x w, I s -> exists s' w', f s x w = Ok (s', w') /\ I s') ->
  forall s w, I s -> exists s' w', foldM f l s w = Ok (s', w') /\ I s'.
Proof.
  intros Hf. induction l as [| x l IH]; intros s w Hs; cbn [foldM].
  - exists s, w. split; [reflexivity | exact Hs].
  - destruct (Hf s x w Hs) as (s1 & w1 & E1 & Hs1).
    destruct (IH s1 w1 Hs1) as (s2 & w2 & E2 & Hs2).
    exists s2, w2. split; [| exact Hs2]. unfold bind. rewrite E1. exact E2.
Qed.

Lemma Len_nonempty (stack : list Point) : stack ≠ [] -> (Len stack >? 0) = true.
Proof. destruct stack; [congruence | reflexivity]. Qed.

Section Synthesis.

Variable m : markov.
Hypothesis Hm : model_closed m.

Lemma painted_red (im : image_RGBA) (p : Point) :
  painted m im p -> exists v, red_at im p = Some v /\ (v ≠ 0).
Proof.
  intros (k & Hk & Hc). exists (R (key_RGBA k)).
  split; [apply cell_red_at, Hc | apply (mc_red m Hm), Hk].
Qed.

Lemma Generate_adjacent_total (p adj : Point) (n : nat)
    (st : Color * image_RGBA * list Point) (w : World) :
  turn_inv m n st ->
  exists st' w', Generate_adjacent m p st adj w = Ok (st', w') /\ turn_inv m n st'.
Proof.
  destruct st as [[c im] stack]. intros Hst.
  destruct (within m (Add p adj)) eqn:Hin.
  2: { exists (c, im, stack), w. split; [| exact Hst].
       apply Generate_adjacent_outside, Hin. }
  destruct Hst as ((k & Hk & ->) & Hcv & Hn).
  destruct Hcv as [Hrect Hstride Hlen Hcells Hstack].
  set (q := Add p adj) in *. rewrite within_In_ in Hin.
  destruct (Hcells q Hin) as [Hred | Hpainted].
  - (* the cell reads as unset: it is painted and pushed *)
    assert (Hkey : encodeColor (decodeColor k) = k)
      by (apply encodeColor_decodeColor, (mc_u32 m Hm), Hk).
    destruct Hk as [values Hvalues].
    destruct (GetNextColor_found m (decodeColor k) values w) as (v & Hv & Hnext).
    { rewrite Hkey. exact Hvalues. }
    { exact (inv_nonempty m (mc_inv m Hm) _ _ Hvalues). }
    assert (Hvk : is_Some (model m !! v)).
    { eapply (mc_values m Hm); [exact Hvalues |].
      eapply list_elem_of_lookup_2, Hv. }
    destruct (SetRGBA_cell (bounds m) im Hrect Hstride Hlen q (key_RGBA v) Hin)
      as (im' & Hset & Hrect' & Hstride' & Hlen' & Hcell' & Hother).
    eexists (decodeColor v, im', Push stack q), _. split.
    { eapply Generate_adjacent_paint.
      - rewrite within_In_. exact Hin.
      - apply (index_red_at (bounds m)); assumption.
      - exact Hnext.
      - apply Hset. }
    assert (Hq' : painted m im' q) by (exists v; auto).
    split; [eauto |]. split.
    + split; try assumption.
      * intros p' Hp'. destruct (decide (p' = q)) as [-> | Hne]; [right; exact Hq' |].
        destruct (Hother p' Hp' Hne) as [Ec Er].
        destruct (Hcells p' Hp') as [H0 | (k' & Hk' & Hc')].
        -- left. rewrite Er. exact H0.
        -- right. exists k'. rewrite Ec. auto.
      * intros p' [Hp' | ->%list_elem_of_singleton]%elem_of_app; [| auto].
        destruct (Hstack p' Hp') as [Hb Hpt]. split; [exact Hb |].
        assert (Hne : p' ≠ q).
        { intros ->. destruct (painted_red _ _ Hpt) as (v0 & E0 & Hv0).
          rewrite Hred in E0. congruence. }
        destruct Hpt as (k' & Hk' & Hc'). exists k'.
        rewrite (proj1 (Hother p' Hb Hne)). auto.
    + destruct (painted_red _ _ Hq') as (v0 & E0 & Hv0).
      rewrite (unset_painted (bounds m) im im' q v0) in Hn; auto.
      * unfold Push. rewrite length_app. cbn [length]. lia.
      * intros p' Hp' Hne. apply Hother; assumption.
  - (* the cell is painted: nothing happens *)
    destruct (painted_red _ _ Hpainted) as (v0 & E0 & Hv0).
    exists (decodeColor k, im, stack), w. split.
    + eapply Generate_adjacent_set; [rewrite within_In_; exact Hin | | exact Hv0].
      apply (index_red_at (bounds m)); assumption.
    + split; [eauto |]. split; [split; assumption | exact Hn].
Qed.

Lemma Generate_step_total (n : nat) (im : image_RGBA) (stack : list Point)
    (w : World) :
  canvas_inv m im stack -> stack ≠ [] ->
  (length stack + unset im (bounds m) <= S n)%nat ->
  exists im' stack' w',
    Generate_step m im stack w = Ok ((im', stack'), w')
    /\ canvas_inv m im' stack'
    /\ (length stack' + unset im' (bounds m) <= n)%nat.
Proof.
  intros Hcv Hne Hn.
  destruct (Pop_nonempty stack w Hne) as (i & p & Hp & HPop).
  destruct (cv_stack m im stack Hcv p (list_elem_of_lookup_2 _ _ _ Hp))
    as (Hb & k & Hk & Hc).
  assert (Hat : RGBA_At im (X p) (Y p) (advance w) = Ok (decodeColor k, advance w)).
  { rewrite <- OfRGBA_key_RGBA.
    apply (RGBA_At_cell (bounds m)); try assumption; apply Hcv. }
  destruct (foldM_total (turn_inv m n) (Generate_adjacent m p) adjacent)
    with (s := (decodeColor k, im, delete i stack)) (w := advance w)
    as ([[c' im'] stack'] & w' & Hfold & _ & Hcv' & Hn').
  - intros st adj w0. apply Generate_adjacent_total.
  - split; [eauto |]. split.
    + destruct Hcv as [Hrect Hstride Hlen Hcells Hstack]. split; try assumption.
      intros q Hq%list_elem_of_delete_inv. apply Hstack, Hq.
    + pose proof (lookup_lt_Some _ _ _ Hp). rewrite length_delete by eauto. lia.
  - exists im', stack', w'. split; [| auto].
    eapply Generate_step_run; eassumption.
Qed.

Lemma Generate_loop_total (n : nat) (im : image_RGBA) (stack : list Point)
    (w : World) :
  canvas_inv m im stack ->
  (length stack + unset im (bounds m) <= n)%nat ->
  exists out w',
    Generate_loop n m im stack w = (Returned out, w') /\ Rect out = bounds m.
Proof.
  revert im stack w. induction n as [| n IH]; intros im stack w Hcv Hn.
  - destruct stack as [| p stack]; [| cbn [length] in Hn; lia].
    exists im, w. split; [reflexivity | apply Hcv].
  - destruct stack as [| p stack].
    { exists im, w. split; [reflexivity | apply Hcv]. }
    destruct (Generate_step_total n im (p :: stack) w Hcv ltac:(discriminate) Hn)
      as (im1 & stack1 & w1 & Hstep & Hcv1 & Hn1).
    destruct (IH im1 stack1 w1 Hcv1 Hn1) as (out & w' & Hloop & Hout).
    exists out, w'. split; [| exact Hout].
    cbn [Generate_loop]. rewrite Len_nonempty by discriminate.
    rewrite Hstep. exact Hloop.
Qed.

Hypothesis Hmin : Min (bounds m) = {| X := 0; Y := 0 |}.
Hypothesis HmaxX : 0 < MaxX m.
Hypothesis HmaxY : 0 < MaxY m.
Hypothesis Hkeys : keys m ≠ [].

Lemma Generate_init_total (w : World) :
  exists im stack w',
    Generate_init m w = Ok ((im, stack), w')
    /\ canvas_inv m im stack
    /\ (length stack + unset im (bounds m)
        = Z.to_nat (Dx (bounds m) * Dy (bounds m)))%nat.
Proof.
  assert (HDx : Dx (bounds m) = MaxX m) by (unfold Dx, MaxX; rewrite Hmin; cbn [X]; lia).
  assert (HDy : Dy (bounds m) = MaxY m) by (unfold Dy, MaxY; rewrite Hmin; cbn [Y]; lia).
  set (im0 := {| Pix := replicate (Z.to_nat (4 * Dx (bounds m) * Dy (bounds m))) 0;
                 Stride := 4 * Dx (bounds m); Rect := bounds m |}).
  assert (Hnew : forall w0,
             NewRGBA (image_Rect (MinX m) (MinY m) (MaxX m) (MaxY m)) w0
             = Ok (im0, w0)).
  { intros w0. unfold MinX, MinY, MaxX, MaxY in *.
    rewrite image_Rect_ordered by (rewrite Hmin; cbn [X Y]; lia).
    unfold NewRGBA.
    destruct (Z.ltb_spec (Dx (bounds m)) 0); [unfold MaxX in *; lia |].
    destruct (Z.ltb_spec (Dy (bounds m)) 0); [unfold MaxY in *; lia |].
    reflexivity. }
  set (p0 := {| X := entropy w 0%nat mod MaxX m; Y := entropy w 1%nat mod MaxY m |}).
  assert (Hp0 : In_ p0 (bounds m) = true).
  { apply In__true. rewrite Hmin. unfold p0. cbn [X Y].
    pose proof (Z.mod_pos_bound (entropy w 0%nat) (MaxX m) HmaxX).
    pose proof (Z.mod_pos_bound (entropy w 1%nat) (MaxY m) HmaxY).
    unfold MaxX, MaxY in *. lia. }
  destruct (index_drawn (keys m) (entropy (advance (advance w)) 0%nat)
              (advance (advance (advance w))) Hkeys) as (k & Hk & Hik).
  assert (Hkm : is_Some (model m !! k)).
  { apply (inv_keys m (mc_inv m Hm)). eapply list_elem_of_lookup_2, Hk. }
  assert (Hlen0 : Z.of_nat (length (Pix im0))
                  = 4 * Dx (bounds m) * Dy (bounds m)).
  { cbn [Pix im0]. rewrite length_replicate. nia. }
  assert (Hzero : forall p, In_ p (bounds m) = true -> red_at im0 p = Some 0).
  { intros p Hp.
    destruct (PixOffset_range (bounds m) im0 eq_refl eq_refl Hlen0 p Hp) as [H0 H4].
    unfold red_at. cbn [Pix im0]. apply lookup_replicate_2.
    cbn [Pix im0] in H4. rewrite length_replicate in H4. lia. }
  destruct (SetRGBA_cell (bounds m) im0 eq_refl eq_refl Hlen0 p0 (key_RGBA k) Hp0)
    as (im1 & Hset & Hrect1 & Hstride1 & Hlen1 & Hcell1 & Hother).
  assert (Hpaint : painted m im1 p0) by (exists k; auto).
  exists im1, [p0], (advance (advance (advance w))). split; [| split].
  - unfold Generate_init, bind. rewrite Hnew.
    rewrite Generate_start_ok by assumption. fold p0.
    unfold GetRandomColor, bind.
    rewrite rand_Int_ok by (destruct (keys m); [congruence | cbn [length]; lia]).
    rewrite Hik. unfold ret at 1. fold (key_RGBA k).
    rewrite Hset. reflexivity.
  - split; try assumption.
    + intros p Hp. destruct (decide (p = p0)) as [-> | Hne]; [right; exact Hpaint |].
      left. rewrite (proj2 (Hother p Hp Hne)). apply Hzero, Hp.
    + intros p ->%list_elem_of_singleton. auto.
  - destruct (painted_red _ _ Hpaint) as (v0 & E0 & Hv0).
    pose proof (unset_painted (bounds m) im0 im1 p0 v0 Hp0 (Hzero p0 Hp0) E0 Hv0) as Hu.
    rewrite unset_fresh in Hu by exact Hzero.
    pose proof (length_pixels (bounds m) ltac:(lia) ltac:(lia)) as Hl.
    cbn [length]. rewrite <- Hl, Nat2Z.id.
    rewrite Hu; [lia |]. intros p Hp Hne. apply Hother; assumption.
Qed.

Lemma Generate_total (w : World) :
  exists out,
    fst (Generate (Z.to_nat (Dx (bounds m) * Dy (bounds m))) m w) = Returned out
    /\ Rect out = bounds m.
Proof.
  destruct (Generate_init_total w) as (im & stack & w1 & Hinit & Hcv & Hn).
  destruct (Generate_loop_total (Z.to_nat (Dx (bounds m) * Dy (bounds m)))
              im stack w1 Hcv ltac:(lia)) as (out & w' & Hloop & Hout).
  exists out. unfold Generate. rewrite Hinit, Hloop. auto.
Qed.

End Synthesis.

(** ** The output grid *)

Lemma build_total (im : Image) (w : World) :
  Min (Bounds im) = {| X := 0; Y := 0 |} ->
  1 <= Dx (Bounds im) -> 1 <= Dy (Bounds im) ->
  2 <= Dx (Bounds im) * Dy (Bounds im) ->
  (forall p, In_ p (Bounds im) = true ->
             R (colorToRGBA (At im (X p) (Y p))) ≠ 0) ->
  exists out,
    fst (Generate (Z.to_nat (Dx (Bounds im) * Dy (Bounds im))) (build im) w)
    = Returned out
    /\ Rect out = Bounds im.
Proof.
  intros Hmin HW HH Htwo Hred.
  assert (HX : X (Max (Bounds im)) = Dx (Bounds im))
    by (unfold Dx; rewrite Hmin; cbn [X]; lia).
  assert (HY : Y (Max (Bounds im)) = Dy (Bounds im))
    by (unfold Dy; rewrite Hmin; cbn [Y]; lia).
  rewrite <- (bounds_build im). apply Generate_total.
  - apply model_closed_build, Hred.
  - rewrite bounds_build. exact Hmin.
  - unfold MaxX. rewrite bounds_build. lia.
  - unfold MaxY. rewrite bounds_build. lia.
  - destruct (pixel_key_present im {| X := 0; Y := 0 |}) as (values & Hv & _).
    + apply In__true. rewrite Hmin. cbn [X Y]. lia.
    + nia.
    + intros Hk.
      assert (Hin : encodeColor (At im 0 0) ∈ keys (build im))
        by (apply (inv_keys _ (model_inv_build im)); eauto).
      rewrite Hk in Hin. inversion Hin.
Qed.

(* Whatever grid Generate holds, while it runs or when it returns, on a
   model built from a source grid, its bounds rectangle is exactly the bounds
   rectangle of the source grid.  And Generate does return such a grid,
   within as many turns of its loop as there are pixels and whatever the
   draws, when the source grid has its min corner at (0,0), at least two
   pixels, and no pixel whose red byte is zero. *)
Lemma output_bounds (im : Image) (fuel : nat) (w : World) :
  match fst (Generate fuel (build im) w) with
  | Returned out | Running out _ => Rect out = Bounds im
  | Panicked => True
  end /\
  (Min (Bounds im) = {| X := 0; Y := 0 |} ->
   1 <= Dx (Bounds im) -> 1 <= Dy (Bounds im) ->
   2 <= Dx (Bounds im) * Dy (Bounds im) ->
   (forall p, In_ p (Bounds im) = true ->
              R (colorToRGBA (At im (X p) (Y p))) ≠ 0) ->
   exists out,
     fst (Generate (Z.to_nat (Dx (Bounds im) * Dy (Bounds im))) (build im) w)
     = Returned out
     /\ Rect out = Bounds im).
Proof.
  split; [| apply build_total].
  unfold Generate.
  destruct (Generate_init (build im) w) as [[[im0 stack0] w0] |] eqn:E;
    [| exact I].
  apply Generate_init_Ok in E as [HR Hk].
  apply keys_build_bounds in Hk as [HX HY].
  pose proof (Generate_loop_Rect fuel (build im) im0 stack0 w0) as H.
  rewrite HR in H. unfold MinX, MinY, MaxX, MaxY in H.
  rewrite bounds_build, image_Rect_ordered in H by lia. exact H.
Qed.

Lemma output_bounds_witness :
  exists out,
    fst (Generate 3 (build white_row) sample_world) = Returned out
    /\ Rect out = Bounds white_row.
Proof.
  apply (output_bounds white_row 0 sample_world).
  - reflexivity.
  - vm_compute. discriminate.
  - vm_compute. discriminate.
  - vm_compute. discriminate.
  - intros p _. vm_compute. discriminate.
Defined.

(** C7, on the code.  The bounds are as the claim has them: whatever grid
    Generate holds or returns on the model of a source grid has exactly the
    bounds rectangle of the source.  But Generate does not always return a
    grid: on the model of a source of one pixel, whose list of keys the scan
    leaves empty, it panics in GetRandomColor, whatever the draws, and
    returns none. *)
Theorem one_pixel_returns_no_grid (im : Image) (fuel : nat) (w : World) :
  match fst (Generate fuel (build im) w) with
  | Returned out | Running out _ => Rect out = Bounds im
  | Panicked => True
  end /\
  (Dx (Bounds im) = 1 -> Dy (Bounds im) = 1 ->
   fst (Generate fuel (build im) w) = Panicked
   /\ forall out, fst (Generate fuel (build im) w) <> Returned out).
Proof.
  split.
  - unfold Generate.
    destruct (Generate_init (build im) w) as [[[im0 stack0] w0] |] eqn:E;
      [| exact I].
    apply Generate_init_Ok in E as [HR Hk].
    apply keys_build_bounds in Hk as [HX HY].
    pose proof (Generate_loop_Rect fuel (build im) im0 stack0 w0) as H.
    rewrite HR in H. unfold MinX, MinY, MaxX, MaxY in H.
    rewrite bounds_build, image_Rect_ordered in H by lia. exact H.
  - intros HW HH. rewrite (Generate_one_pixel im fuel w HW HH).
    split; [reflexivity | discriminate].
Qed.

Lemma one_pixel_returns_no_grid_witness :
  fst (Generate 5 (build one_pixel) sample_world) = Panicked
  /\ forall out, fst (Generate 5 (build one_pixel) sample_world) <> Returned out.
Proof.
  apply (proj2 (one_pixel_returns_no_grid one_pixel 5 sample_world)).
  - reflexivity.
  - reflexivity.
Defined.

(** * Further properties of the code *)

(** ** color.go *)

Lemma compress_channel (v t : Z) :
  is_u8 v -> 0 < t ->
  u8 ((v / t) * t) = t * (v / t)
  /\ is_u8 (t * (v / t)) /\ t * (v / t) <= v < t * (v / t) + t.
Proof.
  intros Hv Ht. unfold is_u8 in *.
  pose proof (Z.mul_div_le v t Ht). pose proof (Z.mul_succ_div_gt v t Ht).
  assert (0 <= v / t) by (apply Z.div_pos; lia).
  assert (Hr : 0 <= t * (v / t) < 256) by nia.
  split; [| split; [exact Hr | lia]].
  unfold u8. rewrite Z.mul_comm. apply Z.mod_small. exact Hr.
Qed.

Lemma colorToRGBA_compressColor (c : Color) (t : Z) :
  0 < t ->
  colorToRGBA (compressColor c t)
  = {| R := t * (R (colorToRGBA c) / t); G := t * (G (colorToRGBA c) / t);
       B := t * (B (colorToRGBA c) / t); A := t * (A (colorToRGBA c) / t) |}
  /\ compressColor c t = OfRGBA (colorToRGBA (compressColor c t)).
Proof.
  intros Ht. unfold compressColor, colorToRGBA.
  destruct (RGBA c) as [[[r g] b] a]. cbn [RGBA R G B A].
  destruct (compress_channel (u8 r) t (u8_is_u8 r) Ht) as (Er & Hr & _).
  destruct (compress_channel (u8 g) t (u8_is_u8 g) Ht) as (Eg & Hg & _).
  destruct (compress_channel (u8 b) t (u8_is_u8 b) Ht) as (Eb & Hb & _).
  destruct (compress_channel (u8 a) t (u8_is_u8 a) Ht) as (Ea & Ha & _).
  rewrite Er, Eg, Eb, Ea. rewrite !u8_widen by assumption. auto.
Qed.

(** X1.  Compressing a colour twice with the same threshold, which is not
    zero, gives what compressing it once gives. *)
Theorem compressColor_idempotent (c : Color) (threshold : Z) :
  0 < threshold ->
  compressColor (compressColor c threshold) threshold = compressColor c threshold.
Proof.
  intros Ht.
  destruct (colorToRGBA_compressColor c threshold Ht) as [E1 E2].
  destruct (colorToRGBA_compressColor (compressColor c threshold) threshold Ht)
    as [E3 E4].
  assert (Hq : forall q, threshold * (threshold * q / threshold) = threshold * q).
  { intros q. rewrite (Z.mul_comm threshold q), Z.div_mul by lia. apply Z.mul_comm. }
  rewrite E4. etransitivity; [| symmetry; exact E2]. f_equal.
  rewrite E3, E1. cbn [R G B A]. rewrite !Hq. reflexivity.
Qed.

Lemma compressColor_idempotent_witness :
  compressColor (compressColor (opaque 22 200 7) 3) 3
  = compressColor (opaque 22 200 7) 3.
Proof. apply compressColor_idempotent. lia. Defined.

(** X2.  compressColor takes each 8-bit channel down to the largest multiple
    of the threshold that is not above it: a multiple of the threshold, at
    most the channel and less than a threshold below it, so a channel below
    the threshold becomes 0. *)
Theorem compressColor_floor (c : Color) (threshold : Z) :
  0 < threshold ->
  let before := colorToRGBA c in
  let after := colorToRGBA (compressColor c threshold) in
  (R after = threshold * (R before / threshold)
   /\ R after <= R before < R after + threshold) /\
  (G after = threshold * (G before / threshold)
   /\ G after <= G before < G after + threshold) /\
  (B after = threshold * (B before / threshold)
   /\ B after <= B before < B after + threshold) /\
  (A after = threshold * (A before / threshold)
   /\ A after <= A before < A after + threshold).
Proof.
  intros Ht before after. unfold after.
  rewrite (proj1 (colorToRGBA_compressColor c threshold Ht)). cbn [R G B A].
  fold before. destruct (colorToRGBA_is_u8 c) as (HR & HG & HB & HA).
  fold before in HR, HG, HB, HA.
  repeat split;
    first [ apply (compress_channel (R before) threshold HR Ht)
          | apply (compress_channel (G before) threshold HG Ht)
          | apply (compress_channel (B before) threshold HB Ht)
          | apply (compress_channel (A before) threshold HA Ht) ].
Qed.

Lemma compressColor_floor_witness :
  R (colorToRGBA (compressColor (opaque 22 200 2) 3)) = 21
  /\ B (colorToRGBA (compressColor (opaque 22 200 2) 3)) = 0.
Proof.
  destruct (compressColor_floor (opaque 22 200 2) 3) as ((ER & _) & _ & (EB & _) & _);
    [lia |].
  split; [rewrite ER | rewrite EB]; reflexivity.
Defined.

Lemma is_RGBA8_colorToRGBA (c : Color) : is_RGBA8 (colorToRGBA c).
Proof. apply colorToRGBA_is_u8. Qed.

Lemma colorToRGBA_OfRGBA (c : color_RGBA) :
  is_RGBA8 c -> colorToRGBA (OfRGBA c) = c.
Proof.
  intros (HR & HG & HB & HA). unfold colorToRGBA. cbn [RGBA].
  rewrite !u8_widen by assumption. destruct c. reflexivity.
Qed.

Lemma decodeColor_encodeColor (c : Color) :
  decodeColor (encodeColor c) = OfRGBA (colorToRGBA c).
Proof. rewrite <- OfRGBA_key_RGBA, key_RGBA_encodeColor. reflexivity. Qed.

(** X3.  Keys and colours go round: decoding a 32-bit key and encoding the
    colour gives the key back, and encoding a colour and decoding the key
    gives the colour cut to its four low bytes, which is the colour itself
    when it is a color.RGBA. *)
Theorem encode_decode_round_trip (k : Z) (c : Color) (c8 : color_RGBA) :
  is_u32 k -> is_RGBA8 c8 ->
  encodeColor (decodeColor k) = k /\
  decodeColor (encodeColor c) = OfRGBA (colorToRGBA c) /\
  decodeColor (encodeColor (OfRGBA c8)) = OfRGBA c8.
Proof.
  intros Hk H8. split; [apply encodeColor_decodeColor, Hk |].
  split; [apply decodeColor_encodeColor |].
  rewrite decodeColor_encodeColor, colorToRGBA_OfRGBA by exact H8. reflexivity.
Qed.

Lemma encode_decode_round_trip_witness :
  encodeColor (decodeColor 4278190335) = 4278190335 /\
  decodeColor (encodeColor (opaque 255 255 0)) = opaque 255 255 0.
Proof.
  destruct (encode_decode_round_trip 4278190335 (opaque 255 255 0)
              {| R := 255; G := 255; B := 0; A := 255 |}) as (H1 & _ & H3).
  - unfold is_u32. pow_lia.
  - unfold is_RGBA8, is_u8. cbn [R G B A]. lia.
  - split; [exact H1 | exact H3].
Defined.

(** X4.  Two colours have the same key exactly when their four low bytes
    agree; and the key of a colour is R*2^24 + G*2^16 + B*2^8 + A of those
    bytes, a 32-bit value. *)
Theorem encodeColor_key (c1 c2 : Color) :
  (encodeColor c1 = encodeColor c2 <-> colorToRGBA c1 = colorToRGBA c2) /\
  encodeColor c1
  = R (colorToRGBA c1) * 16777216 + G (colorToRGBA c1) * 65536
    + B (colorToRGBA c1) * 256 + A (colorToRGBA c1) /\
  is_u32 (encodeColor c1).
Proof.
  split; [| split; [| apply encodeColor_is_u32]].
  - split; intros H.
    + rewrite <- (key_RGBA_encodeColor c1), <- (key_RGBA_encodeColor c2), H.
      reflexivity.
    + rewrite !encodeColor_pack, H. reflexivity.
  - rewrite encodeColor_pack.
    destruct (colorToRGBA_is_u8 c1) as (H0 & H1 & H2 & H3).
    apply pack_sum; assumption.
Qed.

(** ** The transition lists *)

Lemma targets_cons (k : Z) (op : Color * Color) (ops : list (Color * Color)) :
  targets k (op :: ops)
  = if decide (encodeColor op.1 = k) then encodeColor op.2 :: targets k ops
    else targets k ops.
Proof.
  unfold targets. rewrite filter_cons. destruct (decide (encodeColor op.1 = k));
    reflexivity.
Qed.

Lemma lookup_foldl_add_call_targets (ops : list (Color * Color)) (m : markov) (k : Z) :
  model (foldl add_call m ops) !! k
  = match targets k ops with
    | [] => model m !! k
    | l => Some (default [] (model m !! k) ++ l)
    end.
Proof.
  revert m. induction ops as [| op ops IH]; intros m; [reflexivity |].
  cbn [foldl]. rewrite IH, targets_cons.
  unfold add_call at 1 2, AddColorTransition. cbn [model].
  rewrite lookup_insert. destruct (decide (encodeColor op.1 = k)) as [-> | Hne].
  - destruct (targets _ ops) as [| t l]; cbn [default]; [reflexivity |].
    unfold id. rewrite <- app_assoc. reflexivity.
  - reflexivity.
Qed.

(** X5.  After any calls of AddColorTransition on a new model, the
    transition list of a key holds the target keys of the calls with that
    source key, in the order of the calls and with their repetitions; a key
    that was the source of no call has no entry.  So, after the scan of an
    image, the list of a key holds the keys of the neighbours of the pixels
    of that key, in scan order. *)
Theorem transition_lists (ops : list (Color * Color)) (im : Image) (k : Z) :
  model (foldl add_call New ops) !! k
  = match targets k ops with [] => None | l => Some l end /\
  model (build im) !! k
  = match targets k (scan_calls im (Bounds im)) with [] => None | l => Some l end.
Proof.
  split.
  - rewrite lookup_foldl_add_call_targets. cbn [model New].
    rewrite lookup_empty. reflexivity.
  - rewrite build_calls, lookup_foldl_add_call_targets. cbn [model].
    rewrite lookup_empty. reflexivity.
Qed.

(** ** The scanned chain goes both ways *)

Lemma scan_calls_adjacencies (im : Image) (r : Rectangle) :
  scan_calls im r
  = (fun pq => (At im (X pq.1) (Y pq.1), At im (X pq.2) (Y pq.2)))
      <$> adjacencies r.
Proof.
  unfold scan_calls, adjacencies.
  induction (pixels r) as [| p ps IH]; [reflexivity |].
  rewrite !bind_cons, fmap_app, IH. f_equal.
  unfold calls_at. rewrite <- list_fmap_compose. reflexivity.
Qed.

Lemma NoDup_adjacent : NoDup adjacent.
Proof.
  unfold adjacent. repeat (apply NoDup_cons; split);
    [| | | | apply NoDup_nil_2];
    rewrite ?elem_of_cons, ?elem_of_nil; intros H;
    repeat (destruct H as [H | H]; [discriminate H |]); exact H.
Qed.

Lemma NoDup_neighbours (r : Rectangle) (p : Point) : NoDup (neighbours r p).
Proof.
  unfold neighbours. apply NoDup_filter, NoDup_fmap_2_strong; [| apply NoDup_adjacent].
  intros a b _ _ H. destruct a, b, p. unfold Add in H. cbn [X Y] in H.
  injection H as Hx Hy. f_equal; lia.
Qed.

Lemma elem_of_adjacencies (r : Rectangle) (p q : Point) :
  (p, q) ∈ adjacencies r <-> In_ p r = true /\ q ∈ neighbours r p.
Proof.
  unfold adjacencies. rewrite list_elem_of_bind. split.
  - intros (p' & (q' & [= -> ->] & Hq)%list_elem_of_fmap & Hp%elem_of_pixels). auto.
  - intros [Hp Hq]. exists p. split; [| apply elem_of_pixels, Hp].
    apply list_elem_of_fmap. eauto.
Qed.

Lemma NoDup_adjacencies (r : Rectangle) : NoDup (adjacencies r).
Proof.
  unfold adjacencies. apply NoDup_bind; [| | apply NoDup_pixels].
  - intros p1 p2 pq _ _ (q1 & -> & _)%list_elem_of_fmap (q2 & [= -> _] & _)%list_elem_of_fmap.
    reflexivity.
  - intros p _. apply NoDup_fmap_2_strong; [| apply NoDup_neighbours].
    intros a b _ _ [= ->]. reflexivity.
Qed.

(* The adjacencies of a rectangle, each turned round, are the adjacencies. *)
Lemma adjacencies_swap (r : Rectangle) :
  (fun pq : Point * Point => (pq.2, pq.1)) <$> adjacencies r ≡ₚ adjacencies r.
Proof.
  apply NoDup_Permutation; [| apply NoDup_adjacencies |].
  - apply NoDup_fmap_2_strong; [| apply NoDup_adjacencies].
    intros [a b] [c d] _ _ [= -> ->]. reflexivity.
  - intros [q p]. rewrite list_elem_of_fmap, elem_of_adjacencies. split.
    + intros ([p' q'] & [= -> ->] & [Hp Hq]%elem_of_adjacencies).
      apply neighbours_sym; assumption.
    + intros [Hq Hp]. exists (p, q). split; [reflexivity |].
      apply elem_of_adjacencies.
      destruct (neighbours_sym r q p Hq Hp). auto.
Qed.

Lemma length_filter_fmap {S T} (f : S -> T) (P : T -> Prop)
    `{forall y, Decision (P y)} (l : list S) :
  length (filter P (f <$> l)) = length (filter (fun x => P (f x)) l).
Proof.
  induction l as [| x l IH]; [reflexivity |].
  rewrite fmap_cons, !filter_cons. destruct (decide (P (f x))); cbn [length]; lia.
Qed.

(* How often [b] stands in the transition list of [a]. *)
Lemma count_transitions (im : Image) (a b : Z) :
  length (filter (fun v => v = b) (default [] (model (build im) !! a)))
  = length (filter (fun pq : Point * Point =>
                      encodeColor (At im (X pq.1) (Y pq.1)) = a
                      /\ encodeColor (At im (X pq.2) (Y pq.2)) = b)
                   (adjacencies (Bounds im))).
Proof.
  assert (E : default [] (model (build im) !! a)
              = targets a (scan_calls im (Bounds im))).
  { rewrite build_calls, lookup_foldl_add_call_targets. cbn [model].
    rewrite lookup_empty. destruct (targets _ _); reflexivity. }
  rewrite E. unfold targets. rewrite length_filter_fmap, list_filter_filter.
  rewrite scan_calls_adjacencies, length_filter_fmap. cbn [fst snd].
  f_equal. apply list_filter_iff. intros [p q]. cbn [fst snd]. tauto.
Qed.

(** X6.  The scan records the transitions both ways: after it, the key [b]
    stands in the transition list of the key [a] as often as [a] stands in
    the list of [b]. *)
Theorem transitions_symmetric (im : Image) (a b : Z) :
  length (filter (fun v => v = b) (default [] (model (build im) !! a)))
  = length (filter (fun v => v = a) (default [] (model (build im) !! b))).
Proof.
  rewrite !count_transitions.
  rewrite <- (adjacencies_swap (Bounds im)) at 2.
  rewrite length_filter_fmap. cbn [fst snd].
  f_equal. apply list_filter_iff. intros [p q]. cbn [fst snd]. tauto.
Qed.

(** ** The distinct keys of a scanned image *)

Lemma filter_first_occurrences_replicate (a : Z) (n : nat) (l : list Z) :
  filter (fun k => k ≠ a) (first_occurrences (replicate n a ++ l))
  = filter (fun k => k ≠ a) (first_occurrences l).
Proof.
  induction n as [| n IH]; [reflexivity |].
  cbn [replicate app first_occurrences].
  rewrite filter_cons_False by (intros H; apply H; reflexivity).
  rewrite list_filter_filter, <- IH. apply list_filter_iff. intros x. tauto.
Qed.

Lemma first_occurrences_repeated {T} (f : T -> Z) (n : T -> nat) (l : list T) :
  (forall x, x ∈ l -> (0 < n x)%nat) ->
  first_occurrences (l ≫= fun x => replicate (n x) (f x))
  = first_occurrences (f <$> l).
Proof.
  induction l as [| x l IH]; intros Hn; [reflexivity |].
  rewrite bind_cons, fmap_cons.
  destruct (n x) as [| nx] eqn:E.
  { specialize (Hn x ltac:(constructor)). lia. }
  cbn [replicate app first_occurrences]. f_equal.
  rewrite filter_first_occurrences_replicate, IH; [reflexivity |].
  intros y Hy. apply Hn. constructor. exact Hy.
Qed.

Lemma sources_scan_calls (im : Image) (r : Rectangle) :
  (fun cc : Color * Color => encodeColor cc.1) <$> scan_calls im r
  = pixels r ≫= fun p => replicate (length (neighbours r p))
                                   (encodeColor (At im (X p) (Y p))).
Proof.
  unfold scan_calls. induction (pixels r) as [| p ps IH]; [reflexivity |].
  rewrite !bind_cons, fmap_app, IH. f_equal.
  unfold calls_at. rewrite <- list_fmap_compose.
  induction (neighbours r p) as [| q qs IHq]; [reflexivity |].
  cbn [length replicate]. rewrite fmap_cons, IHq. reflexivity.
Qed.

(** X7.  For an image with at least two pixels the list of distinct keys
    holds the keys of the colours of its pixels, each once, where the scan
    (column after column, each from its top) first meets it. *)
Theorem keys_are_the_colours (im : Image) :
  1 <= Dx (Bounds im) -> 1 <= Dy (Bounds im) ->
  2 <= Dx (Bounds im) * Dy (Bounds im) ->
  keys (build im)
  = first_occurrences
      ((fun p => encodeColor (At im (X p) (Y p))) <$> pixels (Bounds im)).
Proof.
  intros HW HH Htwo.
  rewrite build_calls, keys_foldl_add_call by apply model_inv_empty.
  cbn [keys app]. rewrite filter_all by (intros x Hx; inversion Hx).
  rewrite sources_scan_calls. apply first_occurrences_repeated.
  intros p Hp%elem_of_pixels.
  destruct (neighbours_nonempty (Bounds im) p Hp ltac:(nia)) as [q Hq].
  destruct (neighbours (Bounds im) p); [inversion Hq | cbn [length]; lia].
Qed.

Lemma keys_are_the_colours_witness :
  keys (build four_colours)
  = first_occurrences
      ((fun p => encodeColor (At four_colours (X p) (Y p)))
         <$> pixels (Bounds four_colours)).
Proof.
  apply keys_are_the_colours.
  - vm_compute. discriminate.
  - vm_compute. discriminate.
  - vm_compute. discriminate.
Defined.

(** ** ReadFile *)

Lemma format_foldl_add_call (ops : list (Color * Color)) (m : markov) :
  format (foldl add_call m ops) = format m.
Proof.
  revert m. induction ops as [| op ops IH]; intros m; [reflexivity |].
  cbn [foldl]. rewrite IH. reflexivity.
Qed.

(** X8.  ReadFile returns no error exactly when the file opens and decodes
    with the format png.  When it returns an error the model is as it was;
    when it returns none, the format of the model is png and its bounds are
    those of the decoded image. *)
Theorem ReadFile_outcome (m : markov) (f : File) :
  (snd (ReadFile m f) = None <-> exists im, f = Decodes im "png") /\
  (snd (ReadFile m f) ≠ None -> fst (ReadFile m f) = m) /\
  (forall im, f = Decodes im "png" ->
              format (fst (ReadFile m f)) = "png"
              /\ bounds (fst (ReadFile m f)) = Bounds im).
Proof.
  split; [| split].
  - destruct f as [err | err | im fmt]; cbn [ReadFile snd].
    + split; [discriminate | intros [im H]; discriminate].
    + split; [discriminate | intros [im H]; discriminate].
    + destruct (String.eqb_spec fmt "png") as [-> | Hne]; cbn [negb snd].
      * split; [eauto | reflexivity].
      * split; [discriminate |]. intros [im' [= _ H]]. contradiction.
  - destruct f as [err | err | im fmt]; cbn [ReadFile snd fst]; try reflexivity.
    destruct (String.eqb_spec fmt "png") as [-> | Hne]; cbn [negb snd fst];
      [| reflexivity].
    intros H. contradiction.
  - intros im ->. cbn [ReadFile]. cbn [String.eqb Ascii.eqb Bool.eqb negb fst].
    rewrite ReadFile_scan_calls, bounds_foldl_add_call, format_foldl_add_call.
    split; reflexivity.
Qed.

Lemma ReadFile_outcome_witness :
  fst (ReadFile white_then_yellow (DecodeFails "unknown format"))
  = white_then_yellow
  /\ format (fst (ReadFile New (Decodes four_colours "png"))) = "png"
  /\ bounds (fst (ReadFile New (Decodes four_colours "png")))
     = Bounds four_colours.
Proof.
  split.
  - apply (proj1 (proj2 (ReadFile_outcome white_then_yellow
                           (DecodeFails "unknown format")))).
    cbn [ReadFile snd]. discriminate.
  - apply (proj2 (proj2 (ReadFile_outcome New (Decodes four_colours "png")))
             four_colours).
    reflexivity.
Defined.

Lemma keys_foldl_add_call_prefix (ops : list (Color * Color)) (m : markov) :
  exists more, keys (foldl add_call m ops) = keys m ++ more.
Proof.
  revert m. induction ops as [| op ops IH]; intros m.
  - exists []. rewrite app_nil_r. reflexivity.
  - cbn [foldl]. destruct (IH (add_call m op)) as [more Hmore]. rewrite Hmore.
    unfold add_call, AddColorTransition. cbn [keys].
    destruct (model m !! encodeColor op.1); [eauto |].
    rewrite <- app_assoc. eauto.
Qed.

(** X9.  ReadFile does not start the model afresh: reading an image into a
    model that holds transitions keeps every transition list as the
    beginning of the new list of its key, keeps the distinct keys as the
    beginning of the new ones, and adds as many transitions as the image
    has adjacencies. *)
Theorem ReadFile_accumulates (m : markov) (im : Image) (k : Z) (old : list Z) :
  model m !! k = Some old ->
  let m' := fst (ReadFile m (Decodes im "png")) in
  (exists more, model m' !! k = Some (old ++ more)) /\
  (exists more, keys m' = keys m ++ more) /\
  transitions m' = (transitions m + length (adjacencies (Bounds im)))%nat.
Proof.
  intros Hold m'. unfold m'. cbn [ReadFile].
  cbn [String.eqb Ascii.eqb Bool.eqb negb fst].
  rewrite ReadFile_scan_calls. cbn [bounds]. split; [| split].
  - rewrite lookup_foldl_add_call_targets. cbn [model]. rewrite Hold.
    destruct (targets _ _) as [| t l]; [exists []; rewrite app_nil_r | eexists];
      reflexivity.
  - apply (keys_foldl_add_call_prefix _
             {| keys := keys m; model := model m; format := "png";
                bounds := Bounds im |}).
  - rewrite transitions_foldl_add_call, length_scan_calls. reflexivity.
Qed.

Lemma ReadFile_accumulates_witness :
  exists more,
    model (fst (ReadFile (build four_colours) (Decodes four_colours "png")))
      !! 4278190335
    = Some ([16711935; 65535] ++ more).
Proof.
  destruct (ReadFile_accumulates (build four_colours) four_colours 4278190335
              [16711935; 65535]) as (H & _); [reflexivity | exact H].
Defined.

(** ** GetNextColor and GetRandomColor *)

(** X10.  GetNextColor looks the key of its colour up.  Without an entry it
    returns nil and draws nothing; with an empty list it panics; with a list
    that is not empty it draws once and returns the colour of a key of the
    list. *)
Theorem GetNextColor_cases (m : markov) (c : Color) (w : World) :
  match model m !! encodeColor c with
  | None =>
      exists w', GetNextColor m c w = Ok (None, w') /\ entropy w' = entropy w
  | Some [] => GetNextColor m c w = Panic
  | Some values =>
      exists v w', v ∈ values
                   /\ GetNextColor m c w = Ok (Some (decodeColor v), w')
                   /\ entropy w' = entropy (advance w)
  end.
Proof.
  destruct (model m !! encodeColor c) as [[| v0 values] |] eqn:E.
  - unfold GetNextColor, bind. rewrite E. reflexivity.
  - destruct (GetNextColor_found m c (v0 :: values) w E ltac:(discriminate))
      as (v & Hv & Hg).
    eexists v, _. split; [eapply list_elem_of_lookup_2, Hv |].
    split; [exact Hg | reflexivity].
  - eexists. split; [apply GetNextColor_missing, E | reflexivity].
Qed.

(** X11.  GetRandomColor panics when the model has no key; otherwise it
    draws once and returns the colour of one of the distinct keys. *)
Theorem GetRandomColor_cases (m : markov) (w : World) :
  match keys m with
  | [] => GetRandomColor m w = Panic
  | _ => exists v, v ∈ keys m
                   /\ GetRandomColor m w = Ok (decodeColor v, advance w)
  end.
Proof.
  destruct (keys m) as [| k0 ks] eqn:E.
  - apply GetRandomColor_no_keys, E.
  - destruct (index_drawn (k0 :: ks) (entropy w 0%nat) (advance w) ltac:(discriminate))
      as (v & Hv & Hi).
    exists v. split; [eapply list_elem_of_lookup_2, Hv |].
    unfold GetRandomColor, bind. rewrite E.
    rewrite rand_Int_ok by (cbn [length]; lia). rewrite Hi. reflexivity.
Qed.

(** ** The synthesis on the model of a scanned image *)

Lemma model_sound_build (im : Image) : model_sound (build im).
Proof.
  split.
  - apply model_inv_build.
  - intros k values v Hk Hv. rewrite build_calls in Hk.
    destruct (lookup_foldl_add_call_target _ _ _ _ _ Hk Hv)
      as [(old & Hold & _) | (cc & Hcc & _ & <-)].
    + cbn [model] in Hold. rewrite lookup_empty in Hold. discriminate.
    + apply elem_of_scan_calls in Hcc as (p & q & Hp & Hq & ->).
      destruct (neighbours_sym _ _ _ Hp Hq) as [Hq' Hp'].
      rewrite build_calls.
      apply (lookup_foldl_add_call _ _ (At im (X q) (Y q), At im (X p) (Y p))).
      apply elem_of_scan_calls. eauto.
  - intros k Hk. rewrite build_calls in Hk.
    apply lookup_foldl_add_call_source in Hk as [Hk | (cc & _ & <-)].
    + cbn [model] in Hk. rewrite lookup_empty in Hk. destruct Hk; discriminate.
    + apply encodeColor_is_u32.
Qed.

Lemma elem_of_delete_ne {T} (l : list T) (i : nat) (p x : T) :
  l !! i = Some p -> x ∈ l -> x ≠ p -> x ∈ delete i l.
Proof.
  intros Hi [j Hj]%list_elem_of_lookup_1 Hne.
  destruct (Nat.lt_trichotomy j i) as [Hlt | [-> | Hgt]].
  - apply (list_elem_of_lookup_2 _ j). rewrite list_lookup_delete_lt by exact Hlt. exact Hj.
  - congruence.
  - apply (list_elem_of_lookup_2 _ (pred j)). rewrite list_lookup_delete_ge by lia.
    replace (S (pred j)) with j by lia. exact Hj.
Qed.

Lemma elem_of_neighbours (r : Rectangle) (p q : Point) :
  q ∈ neighbours r p
  <-> In_ q r = true /\ exists adj, adj ∈ adjacent /\ q = Add p adj.
Proof.
  unfold neighbours. rewrite list_elem_of_filter, list_elem_of_fmap.
  split; intros [Hin (adj & H1 & H2)]; eauto.
Qed.

Section Sound.

Variable m : markov.
Hypothesis Hs : model_sound m.

Lemma Generate_adjacent_sound (p adj : Point) (im0 : image_RGBA)
    (stack1 done : list Point) (c : Color) (im : image_RGBA)
    (stack : list Point) (w : World) :
  turn_sound m p im0 stack1 done c im stack ->
  exists c' im' stack' w',
    Generate_adjacent m p (c, im, stack) adj w = Ok ((c', im', stack'), w')
    /\ turn_sound m p im0 stack1 (done ++ [adj]) c' im' stack'.
Proof.
  intros [Hcol Hrect Hstride Hlen Hstack Hcells Hkept Hnew Hdone Hfront Hfixed].
  set (q := Add p adj).
  destruct (within m q) eqn:Hin.
  2: { exists c, im, stack, w. split; [apply Generate_adjacent_outside, Hin |].
       split; try assumption.
       intros adj' [Hd | ->%list_elem_of_singleton]%elem_of_app Hq; [auto |].
       fold q in Hq. rewrite within_In_ in Hin. congruence. }
  rewrite within_In_ in Hin.
  destruct (cell_is_Some (bounds m) im Hrect Hstride Hlen q Hin) as (c0 & Hc0 & Hr0).
  destruct (decide (R c0 = 0)) as [Hzero | Hnz].
  2: { exists c, im, stack, w. split.
       - eapply Generate_adjacent_set; [rewrite within_In_; exact Hin | | exact Hnz].
         apply (index_red_at (bounds m)); assumption.
       - split; try assumption.
         intros adj' [Hd | ->%list_elem_of_singleton]%elem_of_app Hq; [auto |].
         fold q. destruct (Hcells q Hin) as [Hz | Hp]; [| exact Hp].
         rewrite Hc0 in Hz. injection Hz as ->. contradiction. }
  rewrite Hzero in Hr0.
  destruct Hcol as (k & Hk & ->).
  assert (Hkey : encodeColor (decodeColor k) = k)
    by (apply encodeColor_decodeColor, (ms_u32 m Hs), Hk).
  destruct Hk as [values Hvalues].
  destruct (GetNextColor_found m (decodeColor k) values w) as (v & Hv & Hnext).
  { rewrite Hkey. exact Hvalues. }
  { exact (inv_nonempty m (ms_inv m Hs) _ _ Hvalues). }
  assert (Hvk : is_Some (model m !! v)).
  { eapply (ms_values m Hs); [exact Hvalues |]. eapply list_elem_of_lookup_2, Hv. }
  destruct (SetRGBA_cell (bounds m) im Hrect Hstride Hlen q (key_RGBA v) Hin)
    as (im' & Hset & Hrect' & Hstride' & Hlen' & Hcell' & Hother).
  assert (Hq' : painted m im' q) by (exists v; auto).
  assert (Hkeep : forall x, In_ x (bounds m) = true ->
                            painted m im x -> painted m im' x).
  { intros x Hx Hp. destruct (decide (x = q)) as [-> | Hne]; [exact Hq' |].
    destruct Hp as (k' & Hk' & Hc'). exists k'.
    rewrite (proj1 (Hother x Hx Hne)). auto. }
  eexists (decodeColor v), im', (Push stack q), _. split.
  { eapply Generate_adjacent_paint.
    - rewrite within_In_. exact Hin.
    - apply (index_red_at (bounds m)); assumption.
    - exact Hnext.
    - apply Hset. }
  split; try assumption.
  - eauto.
  - intros x [Hx | ->%list_elem_of_singleton]%elem_of_app; [| auto].
    destruct (Hstack x Hx) as [Hb Hp]. auto.
  - intros x Hx. destruct (decide (x = q)) as [-> | Hne]; [right; exact Hq' |].
    rewrite (proj1 (Hother x Hx Hne)).
    destruct (Hcells x Hx) as [Hz | Hp]; [left; exact Hz | right; auto].
  - intros x Hx Hp. auto.
  - intros x Hx Hp. destruct (decide (x = q)) as [-> | Hne].
    + left. apply elem_of_app. right. constructor.
    + assert (Hp' : painted m im x).
      { destruct Hp as (k' & Hk' & Hc'). exists k'.
        rewrite <- (proj1 (Hother x Hx Hne)). auto. }
      destruct (Hnew x Hx Hp') as [Hst | H0]; [| right; exact H0].
      left. apply elem_of_app. left. exact Hst.
  - intros adj' [Hd | ->%list_elem_of_singleton]%elem_of_app Hb; [auto | exact Hq'].
  - intros x Hx. apply elem_of_app. left. auto.
  - intros x v0 Hx Hred Hv0. rewrite <- (Hfixed x v0 Hx Hred Hv0).
    apply Hother; [exact Hx |]. intros ->.
    destruct (cell_is_Some (bounds m) im Hrect Hstride Hlen q Hin) as (cx & Hcx & Hrx).
    rewrite (Hfixed q v0 Hx Hred Hv0) in Hcx.
    apply cell_red_at in Hcx. rewrite Hred in Hcx. rewrite Hr0 in Hrx.
    congruence.
Qed.

Lemma Generate_fold_sound (p : Point) (im0 : image_RGBA) (stack1 : list Point)
    (adjs done : list Point) (c : Color) (im : image_RGBA)
    (stack : list Point) (w : World) :
  turn_sound m p im0 stack1 done c im stack ->
  exists c' im' stack' w',
    foldM (Generate_adjacent m p) adjs (c, im, stack) w
    = Ok ((c', im', stack'), w')
    /\ turn_sound m p im0 stack1 (done ++ adjs) c' im' stack'.
Proof.
  revert done c im stack w.
  induction adjs as [| adj adjs IH]; intros done c im stack w Ht.
  - exists c, im, stack, w. rewrite app_nil_r. split; [reflexivity | exact Ht].
  - destruct (Generate_adjacent_sound p adj im0 stack1 done c im stack w Ht)
      as (c1 & im1 & st1 & w1 & E1 & Ht1).
    destruct (IH (done ++ [adj]) c1 im1 st1 w1 Ht1)
      as (c2 & im2 & st2 & w2 & E2 & Ht2).
    exists c2, im2, st2, w2. rewrite <- app_assoc in Ht2. split; [| exact Ht2].
    cbn [foldM]. unfold bind. rewrite E1. exact E2.
Qed.

(* A turn of the loop on a state of the synthesis does not panic, gives a
   state of the synthesis, and leaves every cell with a red byte that is not
   zero as it is. *)
Lemma Generate_step_sound (im : image_RGBA) (stack : list Point) (w : World) :
  frontier_inv m im stack -> stack ≠ [] ->
  exists im' stack' w',
    Generate_step m im stack w = Ok ((im', stack'), w')
    /\ frontier_inv m im' stack'
    /\ (forall x v, In_ x (bounds m) = true -> red_at im x = Some v -> v ≠ 0 ->
                    cell im' x = cell im x).
Proof.
  intros [Hrect Hstride Hlen Hstack Hcells Hclosed Hsome] Hne.
  destruct (Pop_nonempty stack w Hne) as (i & p & Hp & HPop).
  destruct (Hstack p (list_elem_of_lookup_2 _ _ _ Hp)) as (Hb & k & Hk & Hc).
  assert (Hat : RGBA_At im (X p) (Y p) (advance w) = Ok (decodeColor k, advance w)).
  { rewrite <- OfRGBA_key_RGBA. apply (RGBA_At_cell (bounds m)); assumption. }
  destruct (Generate_fold_sound p im (delete i stack) adjacent [] (decodeColor k)
              im (delete i stack) (advance w))
    as (c' & im' & stack' & w' & Hfold & Ht).
  { split; try assumption; eauto.
    - intros x Hx%list_elem_of_delete_inv. auto.
    - intros adj Hadj. inversion Hadj. }
  destruct Ht as [_ Hrect' Hstride' Hlen' Hstack' Hcells' Hkept Hnew Hdone Hfront Hfixed].
  exists im', stack', w'. split; [eapply Generate_step_run; eassumption |].
  split; [| exact Hfixed].
  split; try assumption.
  - intros x Hx Hpx. destruct (decide (x = p)) as [-> | Hxp].
    + right. intros q (Hq & adj & Hadj & ->)%elem_of_neighbours. auto.
    + destruct (Hnew x Hx Hpx) as [Hst | H0]; [left; exact Hst |].
      destruct (Hclosed x Hx H0) as [Hst | Hnb].
      * left. apply Hfront. eapply elem_of_delete_ne; eassumption.
      * right. intros q Hq. pose proof Hq as (Hqb & _)%elem_of_neighbours. auto.
  - destruct Hsome as (x & Hx & Hpx). eauto.
Qed.

Lemma Generate_loop_sound (fuel : nat) (im : image_RGBA) (stack : list Point)
    (w : World) :
  frontier_inv m im stack ->
  match fst (Generate_loop fuel m im stack w) with
  | Returned out => frontier_inv m out [] /\ kept (bounds m) im out
  | Running out stack' => frontier_inv m out stack' /\ kept (bounds m) im out
  | Panicked => False
  end.
Proof.
  assert (Hrefl : forall im0, kept (bounds m) im0 im0) by (intros im0 x v _ _ _; reflexivity).
  revert im stack w. induction fuel as [| fuel IH]; intros im stack w Hfi;
    cbn [Generate_loop].
  - destruct stack as [| p stack]; [split; [exact Hfi | apply Hrefl] |].
    rewrite Len_nonempty by discriminate. cbn [fst]. auto.
  - destruct stack as [| p stack]; [split; [exact Hfi | apply Hrefl] |].
    rewrite Len_nonempty by discriminate.
    destruct (Generate_step_sound im (p :: stack) w Hfi ltac:(discriminate))
      as (im1 & stack1 & w1 & E & Hfi1 & Hfix1).
    rewrite E. specialize (IH im1 stack1 w1 Hfi1).
    assert (Htrans : forall out, kept (bounds m) im1 out -> kept (bounds m) im out).
    { intros out Hfix x v Hx Hred Hv. rewrite <- (Hfix1 x v Hx Hred Hv).
      destruct Hfi1 as [Hrect1 Hstride1 Hlen1 _ _ _ _].
      destruct (cell_is_Some (bounds m) im1 Hrect1 Hstride1 Hlen1 x Hx)
        as (cx & Hcx & Hrx).
      apply (Hfix x (R cx) Hx Hrx).
      rewrite (Hfix1 x v Hx Hred Hv) in Hcx. apply cell_red_at in Hcx.
      rewrite Hred in Hcx. congruence. }
    destruct (fst (Generate_loop fuel m im1 stack1 w1)) as [out | | out st];
      [| exact IH |]; destruct IH as [Hfo Hfix]; auto.
Qed.

End Sound.

(** ** The first cell, and the grids Generate holds *)

Lemma cell_fresh (r : Rectangle) (p : Point) :
  0 <= Dx r -> 0 <= Dy r -> In_ p r = true ->
  cell {| Pix := replicate (Z.to_nat (4 * Dx r * Dy r)) 0;
          Stride := 4 * Dx r; Rect := r |} p = Some zero_RGBA.
Proof.
  intros HX HY Hp.
  set (im0 := {| Pix := replicate (Z.to_nat (4 * Dx r * Dy r)) 0;
                 Stride := 4 * Dx r; Rect := r |}).
  assert (Hlen0 : Z.of_nat (length (Pix im0)) = 4 * Dx r * Dy r).
  { cbn [Pix im0]. rewrite length_replicate. nia. }
  destruct (PixOffset_range r im0 eq_refl eq_refl Hlen0 p Hp) as [H0 H4].
  unfold cell. rewrite Hlen0 in H4. cbn [Pix im0].
  rewrite !lookup_replicate_2 by nia. reflexivity.
Qed.

Section SoundStart.

Variable m : markov.
Hypothesis Hs : model_sound m.
Hypothesis Hmin : Min (bounds m) = {| X := 0; Y := 0 |}.
Hypothesis HmaxX : 0 < MaxX m.
Hypothesis HmaxY : 0 < MaxY m.
Hypothesis Hkeys : keys m ≠ [].

Lemma Generate_init_sound (w : World) :
  exists im stack w',
    Generate_init m w = Ok ((im, stack), w') /\ frontier_inv m im stack.
Proof.
  assert (HDx : Dx (bounds m) = MaxX m) by (unfold Dx, MaxX; rewrite Hmin; cbn [X]; lia).
  assert (HDy : Dy (bounds m) = MaxY m) by (unfold Dy, MaxY; rewrite Hmin; cbn [Y]; lia).
  set (im0 := {| Pix := replicate (Z.to_nat (4 * Dx (bounds m) * Dy (bounds m))) 0;
                 Stride := 4 * Dx (bounds m); Rect := bounds m |}).
  assert (Hnew : forall w0,
             NewRGBA (image_Rect (MinX m) (MinY m) (MaxX m) (MaxY m)) w0
             = Ok (im0, w0)).
  { intros w0. unfold MinX, MinY, MaxX, MaxY in *.
    rewrite image_Rect_ordered by (rewrite Hmin; cbn [X Y]; lia).
    unfold NewRGBA.
    destruct (Z.ltb_spec (Dx (bounds m)) 0); [unfold MaxX in *; lia |].
    destruct (Z.ltb_spec (Dy (bounds m)) 0); [unfold MaxY in *; lia |].
    reflexivity. }
  set (p0 := {| X := entropy w 0%nat mod MaxX m; Y := entropy w 1%nat mod MaxY m |}).
  assert (Hp0 : In_ p0 (bounds m) = true).
  { apply In__true. rewrite Hmin. unfold p0. cbn [X Y].
    pose proof (Z.mod_pos_bound (entropy w 0%nat) (MaxX m) HmaxX).
    pose proof (Z.mod_pos_bound (entropy w 1%nat) (MaxY m) HmaxY).
    unfold MaxX, MaxY in *. lia. }
  destruct (index_drawn (keys m) (entropy (advance (advance w)) 0%nat)
              (advance (advance (advance w))) Hkeys) as (k & Hk & Hik).
  assert (Hkm : is_Some (model m !! k)).
  { apply (inv_keys m (ms_inv m Hs)). eapply list_elem_of_lookup_2, Hk. }
  assert (Hlen0 : Z.of_nat (length (Pix im0))
                  = 4 * Dx (bounds m) * Dy (bounds m)).
  { cbn [Pix im0]. rewrite length_replicate. nia. }
  assert (Hzero : forall p, In_ p (bounds m) = true -> cell im0 p = Some zero_RGBA).
  { intros p Hp. apply cell_fresh; [lia | lia | exact Hp]. }
  destruct (SetRGBA_cell (bounds m) im0 eq_refl eq_refl Hlen0 p0 (key_RGBA k) Hp0)
    as (im1 & Hset & Hrect1 & Hstride1 & Hlen1 & Hcell1 & Hother).
  assert (Hpaint : painted m im1 p0) by (exists k; auto).
  exists im1, [p0], (advance (advance (advance w))). split.
  - unfold Generate_init, bind. rewrite Hnew.
    rewrite Generate_start_ok by assumption. fold p0.
    unfold GetRandomColor, bind.
    rewrite rand_Int_ok by (destruct (keys m); [congruence | cbn [length]; lia]).
    rewrite Hik. unfold ret at 1. fold (key_RGBA k).
    rewrite Hset. reflexivity.
  - split; try assumption.
    + intros p ->%list_elem_of_singleton. auto.
    + intros p Hp. destruct (decide (p = p0)) as [-> | Hne]; [right; exact Hpaint |].
      left. rewrite (proj1 (Hother p Hp Hne)). apply Hzero, Hp.
    + intros x Hx Hpx. destruct (decide (x = p0)) as [-> | Hne]; [left; constructor |].
      right. intros q (Hq & _)%elem_of_neighbours.
      destruct (decide (q = p0)) as [-> | Hne']; [exact Hpaint |].
      destruct Hpx as (k' & Hk' & Hc'). exists k'. split; [exact Hk' |].
      rewrite (proj1 (Hother q Hq Hne')), (Hzero q Hq).
      rewrite (proj1 (Hother x Hx Hne)), (Hzero x Hx) in Hc'. exact Hc'.
    + exists p0. auto.
Qed.

Lemma Generate_sound (fuel : nat) (w : World) :
  match fst (Generate fuel m w) with
  | Returned out => frontier_inv m out []
  | Running out stack => frontier_inv m out stack
  | Panicked => False
  end.
Proof.
  destruct (Generate_init_sound w) as (im & stack & w1 & Hinit & Hfi).
  unfold Generate. rewrite Hinit.
  pose proof (Generate_loop_sound m Hs fuel im stack w1 Hfi) as H.
  destruct (fst (Generate_loop fuel m im stack w1)); tauto.
Qed.

End SoundStart.

(** ** The grid is connected *)



(** ** Generate on the model of a grid of two pixels or more *)

Lemma build_start (im : Image) :
  Min (Bounds im) = {| X := 0; Y := 0 |} ->
  1 <= Dx (Bounds im) -> 1 <= Dy (Bounds im) ->
  2 <= Dx (Bounds im) * Dy (Bounds im) ->
  Min (bounds (build im)) = {| X := 0; Y := 0 |}
  /\ 0 < MaxX (build im) /\ 0 < MaxY (build im) /\ keys (build im) ≠ [].
Proof.
  intros Hmin HW HH Htwo.
  assert (HX : X (Max (Bounds im)) = Dx (Bounds im))
    by (unfold Dx; rewrite Hmin; cbn [X]; lia).
  assert (HY : Y (Max (Bounds im)) = Dy (Bounds im))
    by (unfold Dy; rewrite Hmin; cbn [Y]; lia).
  unfold MaxX, MaxY. rewrite bounds_build.
  split; [exact Hmin |]. split; [lia |]. split; [lia |].
  destruct (pixel_key_present im {| X := 0; Y := 0 |}) as (values & Hv & _).
  - apply In__true. rewrite Hmin. cbn [X Y]. lia.
  - nia.
  - intros Hk.
    assert (Hin : encodeColor (At im 0 0) ∈ keys (build im))
      by (apply (inv_keys _ (model_inv_build im)); eauto).
    rewrite Hk in Hin. inversion Hin.
Qed.


Lemma Generate_loop_add (n k : nat) (m : markov) (im : image_RGBA)
    (stack : list Point) (w : World) (im1 : image_RGBA) (stack1 : list Point)
    (w1 : World) :
  Generate_loop n m im stack w = (Running im1 stack1, w1) ->
  Generate_loop (n + k) m im stack w = Generate_loop k m im1 stack1 w1.
Proof.
  revert im stack w. induction n as [| n IH]; intros im stack w H.
  - cbn [Generate_loop] in H. destruct (Len stack >? 0); [| discriminate].
    injection H as -> -> ->. reflexivity.
  - cbn [Generate_loop Nat.add] in *. destruct (Len stack >? 0); [| discriminate].
    destruct (Generate_step m im stack w) as [[[im' stack'] w'] |];
      [| discriminate].
    apply IH, H.
Qed.

(** X12.  On the model of a source grid whose min corner is (0,0) and that
    has two pixels or more, Generate never panics, whatever the draws and
    however many turns of its loop are run. *)
Theorem Generate_never_panics (im : Image) (fuel : nat) (w : World) :
  Min (Bounds im) = {| X := 0; Y := 0 |} ->
  1 <= Dx (Bounds im) -> 1 <= Dy (Bounds im) ->
  2 <= Dx (Bounds im) * Dy (Bounds im) ->
  fst (Generate fuel (build im) w) ≠ Panicked.
Proof.
  intros Hmin HW HH Htwo.
  destruct (build_start im Hmin HW HH Htwo) as (H0 & HX & HY & Hk).
  pose proof (Generate_sound (build im) (model_sound_build im) H0 HX HY Hk fuel w) as H.
  intros E. rewrite E in H. exact H.
Qed.

Lemma Generate_never_panics_witness :
  fst (Generate 2 (build black_row) zeros_world) ≠ Panicked.
Proof.
  apply (Generate_never_panics black_row 2 zeros_world).
  - reflexivity.
  - vm_compute. discriminate.
  - vm_compute. discriminate.
  - vm_compute. discriminate.
Defined.




(** X14.  On such a model, once the red byte of a cell is not zero no later
    turn of the loop of Generate writes to the cell: the grid held after
    more turns has the same four bytes there. *)
Theorem Generate_never_repaints (im : Image) (n k : nat) (w : World)
    (im1 : image_RGBA) (stack1 : list Point) (x : Point) (v : Z) :
  Min (Bounds im) = {| X := 0; Y := 0 |} ->
  1 <= Dx (Bounds im) -> 1 <= Dy (Bounds im) ->
  2 <= Dx (Bounds im) * Dy (Bounds im) ->
  fst (Generate n (build im) w) = Running im1 stack1 ->
  In_ x (Bounds im) = true -> red_at im1 x = Some v -> v ≠ 0 ->
  match fst (Generate (n + k) (build im) w) with
  | Returned out | Running out _ => cell out x = cell im1 x
  | Panicked => False
  end.
Proof.
  intros Hmin HW HH Htwo Hrun Hx Hred Hv.
  destruct (build_start im Hmin HW HH Htwo) as (H0 & HX & HY & Hk).
  destruct (Generate_init_sound (build im) (model_sound_build im) H0 HX HY Hk w)
    as (im0 & stack0 & w0 & Hinit & Hfi).
  unfold Generate in *. rewrite Hinit in *.
  pose proof (Generate_loop_sound (build im) (model_sound_build im) n im0 stack0 w0 Hfi)
    as Hn.
  destruct (Generate_loop n (build im) im0 stack0 w0) as [o w1] eqn:En.
  cbn [fst] in Hrun, Hn. subst o. destruct Hn as [Hfi1 _].
  rewrite (Generate_loop_add n k _ _ _ _ _ _ _ En).
  pose proof (Generate_loop_sound (build im) (model_sound_build im) k im1 stack1 w1 Hfi1)
    as Hk'.
  rewrite bounds_build in Hk'.
  destruct (fst (Generate_loop k (build im) im1 stack1 w1)) as [out | | out st];
    [| exact Hk' |]; destruct Hk' as [_ Hkept]; exact (Hkept x v Hx Hred Hv).
Qed.

Lemma Generate_never_repaints_witness :
  match fst (Generate (1 + 3) (build four_colours) sample_world) with
  | Returned out | Running out _ =>
      cell out {| X := 0; Y := 0 |}
      = cell {| Pix := [255; 255; 0; 255; 0; 0; 255; 255;
                        0; 0; 0; 0; 0; 0; 255; 255];
                Stride := 8; Rect := rect 0 0 2 2 |} {| X := 0; Y := 0 |}
  | Panicked => False
  end.
Proof.
  apply (Generate_never_repaints four_colours 1 3 sample_world
           {| Pix := [255; 255; 0; 255; 0; 0; 255; 255;
                      0; 0; 0; 0; 0; 0; 255; 255];
              Stride := 8; Rect := rect 0 0 2 2 |}
           [{| X := 0; Y := 0 |}; {| X := 1; Y := 1 |}]
           {| X := 0; Y := 0 |} 255).
  - reflexivity.
  - vm_compute. discriminate.
  - vm_compute. discriminate.
  - vm_compute. discriminate.
  - vm_compute. reflexivity.
  - reflexivity.
  - vm_compute. reflexivity.
  - lia.
Defined.

(** ** The start of Generate on any model *)

Lemma image_Rect_Dx_Dy (x0 y0 x1 y1 : Z) :
  0 <= Dx (image_Rect x0 y0 x1 y1) /\ 0 <= Dy (image_Rect x0 y0 x1 y1).
Proof.
  unfold image_Rect, Dx, Dy.
  destruct (Z.ltb_spec x1 x0), (Z.ltb_spec y1 y0); cbn [Min Max X Y]; lia.
Qed.

Lemma SetRGBA_fresh (r : Rectangle) (p : Point) (c : color_RGBA) :
  0 <= Dx r -> 0 <= Dy r ->
  exists im', forall w,
    SetRGBA {| Pix := replicate (Z.to_nat (4 * Dx r * Dy r)) 0;
               Stride := 4 * Dx r; Rect := r |} (X p) (Y p) c w = Ok (im', w).
Proof.
  intros HX HY.
  set (im0 := {| Pix := replicate (Z.to_nat (4 * Dx r * Dy r)) 0;
                 Stride := 4 * Dx r; Rect := r |}).
  destruct (In_ p r) eqn:Hin.
  - assert (Hlen0 : Z.of_nat (length (Pix im0)) = 4 * Dx r * Dy r).
    { cbn [Pix im0]. rewrite length_replicate. nia. }
    destruct (SetRGBA_cell r im0 eq_refl eq_refl Hlen0 p c Hin) as (im' & Hset & _).
    exists im'. exact Hset.
  - exists im0. intros w. unfold SetRGBA. cbn [Rect im0].
    destruct p as [x y]. cbn [X Y]. rewrite Hin. reflexivity.
Qed.

(** X15.  Generate panics before its loop exactly on a model whose max X or
    max Y is not positive or that has no keys, whatever the draws; on any
    other model it reaches the loop with a frontier of one point, the one it
    drew, be it within bounds or not. *)
Theorem Generate_start_panics (m : markov) (w : World) :
  (MaxX m <= 0 \/ MaxY m <= 0 \/ keys m = [] ->
   forall fuel, fst (Generate fuel m w) = Panicked) /\
  (0 < MaxX m -> 0 < MaxY m -> keys m ≠ [] ->
   exists im,
     fst (Generate 0 m w)
     = Running im [{| X := entropy w 0%nat mod MaxX m;
                      Y := entropy w 1%nat mod MaxY m |}]).
Proof.
  pose proof (image_Rect_Dx_Dy (MinX m) (MinY m) (MaxX m) (MaxY m)) as [HDx HDy].
  assert (Hnew : forall w0, exists im0,
             NewRGBA (image_Rect (MinX m) (MinY m) (MaxX m) (MaxY m)) w0
             = Ok (im0, w0)
             /\ forall p c, exists im', forall w1,
                  SetRGBA im0 (X p) (Y p) c w1 = Ok (im', w1)).
  { intros w0. eexists. split.
    - unfold NewRGBA.
      destruct (Z.ltb_spec (Dx (image_Rect (MinX m) (MinY m) (MaxX m) (MaxY m))) 0);
        [lia |].
      destruct (Z.ltb_spec (Dy (image_Rect (MinX m) (MinY m) (MaxX m) (MaxY m))) 0);
        [lia |].
      reflexivity.
    - intros p c. apply SetRGBA_fresh; assumption. }
  split.
  - intros H fuel. unfold Generate.
    enough (E : Generate_init m w = Panic) by (rewrite E; reflexivity).
    destruct H as [H | [H | H]]; [| | apply Generate_init_no_keys, H];
      unfold Generate_init, bind; destruct (Hnew w) as (im0 & -> & _);
      unfold Generate_start, bind.
    + rewrite rand_Int_panics by exact H. reflexivity.
    + destruct (rand_Int (MaxX m) w) as [[x w1] |]; [| reflexivity].
      rewrite rand_Int_panics by exact H. reflexivity.
  - intros HX HY Hkeys. destruct (Hnew w) as (im0 & E0 & Hset).
    destruct (index_drawn (keys m) (entropy (advance (advance w)) 0%nat)
                (advance (advance (advance w))) Hkeys) as (k & Hk & Hik).
    set (p0 := {| X := entropy w 0%nat mod MaxX m; Y := entropy w 1%nat mod MaxY m |}).
    destruct (Hset p0 (key_RGBA k)) as (im1 & E1).
    exists im1. unfold Generate, Generate_init, bind. rewrite E0.
    rewrite Generate_start_ok by assumption. fold p0.
    unfold GetRandomColor, bind.
    rewrite rand_Int_ok by (destruct (keys m); [congruence | cbn [length]; lia]).
    rewrite Hik. unfold ret at 1. fold (key_RGBA k).
    rewrite E1. reflexivity.
Qed.

Lemma Generate_start_panics_witness :
  (forall fuel, fst (Generate fuel New sample_world) = Panicked) /\
  (exists im,
     fst (Generate 0 (build off_origin) sample_world)
     = Running im [{| X := entropy sample_world 0%nat mod MaxX (build off_origin);
                      Y := entropy sample_world 1%nat mod MaxY (build off_origin) |}]).
Proof.
  split.
  - apply (proj1 (Generate_start_panics New sample_world)). left. vm_compute. discriminate.
  - apply (proj2 (Generate_start_panics (build off_origin) sample_world)).
    + reflexivity.
    + reflexivity.
    + vm_compute. discriminate.
Defined.

(** ** The starting point on the model of a decoded image *)







(** ** WriteFile *)

Lemma ReadFile_format (m : markov) (f : File) :
  snd (ReadFile m f) = None ->
  format (fst (ReadFile m f)) = "png"
  /\ exists im, f = Decodes im "png"
                /\ bounds (fst (ReadFile m f)) = Bounds im.
Proof.
  destruct f as [err | err | im fmt]; cbn [ReadFile snd]; try discriminate.
  destruct (String.eqb_spec fmt "png") as [-> | Hne]; cbn [negb snd fst];
    [| discriminate].
  intros _. rewrite ReadFile_scan_calls, bounds_foldl_add_call, format_foldl_add_call.
  cbn [format bounds]. eauto.
Qed.

Lemma Generate_Rect_build (im : Image) (fuel : nat) (w : World) :
  match fst (Generate fuel (build im) w) with
  | Returned out | Running out _ => Rect out = Bounds im
  | Panicked => True
  end.
Proof.
  unfold Generate.
  destruct (Generate_init (build im) w) as [[[im0 stack0] w0] |] eqn:E;
    [| exact I].
  apply Generate_init_Ok in E as [HR Hk].
  apply keys_build_bounds in Hk as [HX HY].
  pose proof (Generate_loop_Rect fuel (build im) im0 stack0 w0) as H.
  rewrite HR in H. unfold MinX, MinY, MaxX, MaxY in H.
  rewrite bounds_build, image_Rect_ordered in H by lia. exact H.
Qed.

(** X16.  After a ReadFile that returned no error, the only error WriteFile
    returns is the one of os.Create: the error of an unsupported format
    cannot come up, since ReadFile left the format png. *)
Theorem WriteFile_after_ReadFile (m0 : markov) (f : File) (fuel : nat)
    (o : Created) (w : World) (err : string) (enc : option image_RGBA) :
  snd (ReadFile m0 f) = None ->
  fst (WriteFile fuel (fst (ReadFile m0 f)) o w) = WriteReturns (Some err) enc ->
  o = CreateFails err /\ enc = None.
Proof.
  intros [Hfmt _]%ReadFile_format. unfold WriteFile.
  destruct o as [err' |]; [intros [= -> <-]; auto |].
  destruct (Generate fuel (fst (ReadFile m0 f)) w) as [[d | | d st] w'];
    [| discriminate..].
  rewrite Hfmt. cbn [String.eqb Ascii.eqb Bool.eqb fst]. discriminate.
Qed.

Lemma WriteFile_after_ReadFile_witness :
  CreateFails "permission denied" = CreateFails "permission denied"
  /\ @None image_RGBA = None.
Proof.
  apply (WriteFile_after_ReadFile New (Decodes four_colours "png") 4
           (CreateFails "permission denied") sample_world
           "permission denied" None).
  - reflexivity.
  - reflexivity.
Defined.

(** X17.  WriteFile calls Generate before it looks at the format, and after
    it created the file: on a model without keys, as New() returns it, it
    panics once the file is created, it does not return the error of an
    unsupported format; and when the file cannot be created it returns the
    error of os.Create, without a draw. *)
Theorem WriteFile_no_keys (m : markov) (fuel : nat) (w : World) :
  keys m = [] ->
  fst (WriteFile fuel m Creates w) = WritePanics
  /\ forall err, WriteFile fuel m (CreateFails err) w
                 = (WriteReturns (Some err) None, w).
Proof.
  intros Hk. split; [| reflexivity].
  unfold WriteFile, Generate. rewrite Generate_init_no_keys by exact Hk.
  reflexivity.
Qed.

Lemma WriteFile_no_keys_witness :
  fst (WriteFile 4 New Creates sample_world) = WritePanics
  /\ forall err, WriteFile 4 New (CreateFails err) sample_world
                 = (WriteReturns (Some err) None, sample_world).
Proof.
  apply (WriteFile_no_keys New 4 sample_world). reflexivity.
Defined.

(** ** The command *)

Lemma run_three (a0 a1 a2 : string) (rest : list string)
    (fs_open : string -> File) (fs_create : string -> Created)
    (fuel : nat) (w : World) :
  run (a0 :: a1 :: a2 :: rest) fs_open fs_create fuel w
  = match ReadFile New (fs_open a1) with
    | (_, Some err) => fatal err "failed to read input file"
    | (m, None) =>
        match WriteFile fuel m (fs_create a2) w with
        | (WriteReturns (Some err) _, _) =>
            fatal err "failed to write output file"
        | (WriteReturns None encoded, _) =>
            {| stdout := [];
               output := (fun d => (a2, d)) <$> encoded;
               exit := Exited 0 |}
        | (WritePanics, _) =>
            {| stdout := []; output := None; exit := Crashed |}
        | (WriteRunning, _) =>
            {| stdout := []; output := None; exit := StillRunning |}
        end
    end.
Proof.
  unfold run.
  destruct (Z.ltb_spec (Z.of_nat (length (a0 :: a1 :: a2 :: rest))) 3) as [H | _];
    [cbn [length] in H; lia | reflexivity].
Qed.

Lemma run_few (args : list string) (fs_open : string -> File)
    (fs_create : string -> Created) (fuel : nat) (w : World) :
  (length args < 3)%nat ->
  run args fs_open fs_create fuel w
  = match args with
    | arg0 :: _ => usage arg0
    | [] => {| stdout := []; output := None; exit := Crashed |}
    end.
Proof.
  intros H. unfold run.
  destruct (Z.ltb_spec (Z.of_nat (length args)) 3) as [_ | H']; [reflexivity | lia].
Qed.

Lemma run_png (a0 a1 a2 : string) (rest : list string)
    (fs_open : string -> File) (fs_create : string -> Created)
    (fuel : nat) (w : World) (im : Image) :
  fs_open a1 = Decodes im "png" -> fs_create a2 = Creates ->
  run (a0 :: a1 :: a2 :: rest) fs_open fs_create fuel w
  = match fst (Generate fuel (build im) w) with
    | Returned d => {| stdout := []; output := Some (a2, d); exit := Exited 0 |}
    | Panicked => {| stdout := []; output := None; exit := Crashed |}
    | Running _ _ => {| stdout := []; output := None; exit := StillRunning |}
    end.
Proof.
  intros Ho Hc. rewrite run_three, Ho, Hc.
  pose proof (ReadFile_format New (Decodes im "png") eq_refl) as [Hfmt _].
  fold (build im) in Hfmt.
  change (ReadFile New (Decodes im "png")) with (build im, @None string).
  unfold WriteFile. rewrite Hfmt.
  destruct (Generate fuel (build im) w) as [[d | | d st] w']; reflexivity.
Qed.

(** X18.  The command exits with the code ExitCodeFatal, which is 1, exactly
    when it has an input and an output argument and the input does not open
    and decode as a PNG, or the output file cannot be created; it has then
    written no grid. *)
Theorem run_exit_fatal (args : list string) (fs_open : string -> File)
    (fs_create : string -> Created) (fuel : nat) (w : World) :
  (exit (run args fs_open fs_create fuel w) = Exited 1 <->
   exists a0 a1 a2 rest,
     args = a0 :: a1 :: a2 :: rest
     /\ ((forall im, fs_open a1 ≠ Decodes im "png")
         \/ exists err, fs_create a2 = CreateFails err))
  /\ (exit (run args fs_open fs_create fuel w) = Exited 1 ->
      output (run args fs_open fs_create fuel w) = None).
Proof.
  destruct args as [| a0 [| a1 [| a2 rest]]];
    try (rewrite run_few by (cbn [length]; lia); split;
         [split; [discriminate | intros (? & ? & ? & ? & [=] & _)] | discriminate]).
  destruct (fs_open a1) as [e | e | im fmt] eqn:Ho.
  1, 2: rewrite run_three, Ho; cbn [ReadFile];
        (split; [split; [intros _ | reflexivity] | reflexivity]);
        exists a0, a1, a2, rest; (split; [reflexivity | left]);
        rewrite Ho; discriminate.
  destruct (String.eqb_spec fmt "png") as [-> | Hne].
  2: { rewrite run_three, Ho. cbn [ReadFile].
       destruct (String.eqb_spec fmt "png") as [E | _]; [contradiction |].
       cbn [negb].
       split; [split; [intros _ | reflexivity] | reflexivity].
       exists a0, a1, a2, rest. split; [reflexivity | left].
       rewrite Ho. intros im' [= _ H]. contradiction. }
  destruct (fs_create a2) as [e |] eqn:Hc.
  - rewrite run_three, Ho, Hc.
    change (ReadFile New (Decodes im "png")) with (build im, @None string).
    unfold WriteFile.
    split; [split; [intros _ | reflexivity] | reflexivity].
    exists a0, a1, a2, rest. split; [reflexivity | right]. rewrite Hc. eauto.
  - rewrite (run_png _ _ _ _ _ _ _ _ im Ho Hc).
    destruct (fst (Generate fuel (build im) w)) as [d | | d st];
      cbn [exit output];
      (split; [split; [discriminate |] | discriminate]);
      intros (b0 & b1 & b2 & r & [= <- <- <- <-] & [H | [e H]]);
      solve [ exfalso; apply (H im); exact Ho | rewrite Hc in H; discriminate ].
Qed.

Lemma run_exit_fatal_witness :
  output (run ["markov"; "in.jpg"; "out.png"]%string
            (fun _ => Decodes four_colours "jpeg") (fun _ => Creates)
            4 sample_world) = None.
Proof.
  apply (proj2 (run_exit_fatal ["markov"; "in.jpg"; "out.png"]%string
                  (fun _ => Decodes four_colours "jpeg") (fun _ => Creates)
                  4 sample_world)).
  vm_compute. reflexivity.
Defined.

(** X19.  The command writes a grid only to the file its second argument
    names, only after the first argument opened and decoded as a PNG, and
    the grid has the bounds of that image; it then prints nothing and exits
    with the code 0. *)
Theorem run_output (args : list string) (fs_open : string -> File)
    (fs_create : string -> Created) (fuel : nat) (w : World)
    (name : string) (d : image_RGBA) :
  output (run args fs_open fs_create fuel w) = Some (name, d) ->
  exists a0 a1 rest im,
    args = a0 :: a1 :: name :: rest
    /\ fs_open a1 = Decodes im "png"
    /\ fs_create name = Creates
    /\ Rect d = Bounds im
    /\ stdout (run args fs_open fs_create fuel w) = []
    /\ exit (run args fs_open fs_create fuel w) = Exited 0.
Proof.
  destruct args as [| a0 [| a1 [| a2 rest]]];
    try (rewrite run_few by (cbn [length]; lia); discriminate).
  rewrite run_three.
  destruct (ReadFile New (fs_open a1)) as [m [e |]] eqn:Hr; [discriminate |].
  pose proof (ReadFile_format New (fs_open a1)) as Hf. rewrite Hr in Hf.
  destruct (Hf eq_refl) as (Hfmt & im & Ho & _). cbn [fst] in Hfmt.
  rewrite Ho in Hr. change (ReadFile New (Decodes im "png")) with (build im, @None string) in Hr.
  injection Hr as <-.
  unfold WriteFile. destruct (fs_create a2) as [e |] eqn:Hc; [discriminate |].
  pose proof (Generate_Rect_build im fuel w) as HR.
  destruct (Generate fuel (build im) w) as [[d' | | d' st] w'];
    [| discriminate..].
  rewrite Hfmt. cbn [String.eqb Ascii.eqb Bool.eqb output fmap option_fmap option_map].
  intros [= <- <-]. exists a0, a1, rest, im. cbn [fst] in HR. auto 10.
Qed.

Lemma run_output_witness :
  exists a0 a1 rest im,
    ["markov"; "in.png"; "out.png"]%string = a0 :: a1 :: "out.png"%string :: rest
    /\ (fun _ : string => Decodes white_row "png") a1 = Decodes im "png"
    /\ (fun _ : string => Creates) "out.png"%string = Creates
    /\ Rect {| Pix := replicate 12 255; Stride := 12; Rect := rect 0 0 3 1 |}
       = Bounds im
    /\ stdout (run ["markov"; "in.png"; "out.png"]%string
                 (fun _ => Decodes white_row "png") (fun _ => Creates)
                 3 sample_world) = []
    /\ exit (run ["markov"; "in.png"; "out.png"]%string
               (fun _ => Decodes white_row "png") (fun _ => Creates)
               3 sample_world) = Exited 0.
Proof.
  apply (run_output ["markov"; "in.png"; "out.png"]%string
           (fun _ => Decodes white_row "png") (fun _ => Creates) 3 sample_world
           "out.png"%string
           {| Pix := replicate 12 255; Stride := 12; Rect := rect 0 0 3 1 |}).
  vm_compute. reflexivity.
Defined.

(** X20.  Given an input that decodes as a PNG whose min corner is (0,0)
    and that has two pixels or more, and an output file that can be
    created, the command does not panic, whatever the draws and however
    many turns are run. *)
Theorem run_never_crashes (a0 a1 a2 : string) (rest : list string)
    (fs_open : string -> File) (fs_create : string -> Created)
    (fuel : nat) (w : World) (im : Image) :
  fs_open a1 = Decodes im "png" -> fs_create a2 = Creates ->
  Min (Bounds im) = {| X := 0; Y := 0 |} ->
  1 <= Dx (Bounds im) -> 1 <= Dy (Bounds im) ->
  2 <= Dx (Bounds im) * Dy (Bounds im) ->
  exit (run (a0 :: a1 :: a2 :: rest) fs_open fs_create fuel w) ≠ Crashed.
Proof.
  intros Ho Hc Hmin HW HH Htwo. rewrite (run_png _ _ _ _ _ _ _ _ im Ho Hc).
  destruct (build_start im Hmin HW HH Htwo) as (H0 & HX & HY & Hk).
  pose proof (Generate_sound (build im) (model_sound_build im) H0 HX HY Hk fuel w) as H.
  destruct (fst (Generate fuel (build im) w)); [discriminate | contradiction | discriminate].
Qed.

Lemma run_never_crashes_witness :
  exit (run ["markov"; "in.png"; "out.png"]%string
          (fun _ => Decodes black_row "png") (fun _ => Creates)
          7 zeros_world) ≠ Crashed.
Proof.
  apply (run_never_crashes "markov" "in.png" "out.png" []
           (fun _ => Decodes black_row "png") (fun _ => Creates)
           7 zeros_world black_row).
  - reflexivity.
  - reflexivity.
  - reflexivity.
  - vm_compute. discriminate.
  - vm_compute. discriminate.
  - vm_compute. discriminate.
Defined.


